(** * coolify-patrol: update-decision engine and check cycle

  A shallow embedding of the Go sources

  - [internal/semver/semver.go]   (ParseVersion, Compare, IsUpdateAllowed,
                                   FilterPrereleaseTags, FindLatestVersion)
  - [internal/registry]           (filterTags, compareVersions,
                                   parseSimpleVersion, GetLatestTag)
  - [internal/config]             (Load, loadFromEnv, parseCompactApps,
                                   GetUpdatePolicy)
  - [internal/coolify]            (ExtractImageAndTag, BuildImageReference)
  - [internal/watcher/watcher.go] (checkApplications, checkAndUpdateApp,
                                   performUpdate)
  - [pkg/types/types.go]          (UpdatePolicy, AppConfig, AppStatus, ...)

  Go strings are byte sequences: they are modelled by [string] (a list of
  8-bit [ascii]).  Go's [int] is the 64-bit signed integer of the build
  target; it is modelled by [Z] and every place where the source can leave
  the 64-bit range is written out (see [Atoi]). *)

From Stdlib Require Import ZArith Lia List Ascii String Bool DecimalString DecimalPos.
From stdpp Require Import gmap strings list fin_maps.

Import ListNotations.
Local Open Scope string_scope.
Local Open Scope Z_scope.

(** ** Results of fallible Go functions: [(T, error)] *)

Inductive result (A : Type) : Type :=
| OK (a : A)
| Err (msg : string).
Arguments OK {A} a.
Arguments Err {A} msg.

(** ** The parts of Go's standard library the sources call *)

Module Go.

Definition byte_of (c : ascii) : Z := Z.of_N (N_of_ascii c).

(** ['0' <= c && c <= '9'], the class [\d] of package regexp. *)
Definition isDigit (c : ascii) : bool :=
  (48 <=? byte_of c) && (byte_of c <=? 57).

Definition isLower (c : ascii) : bool :=
  (97 <=? byte_of c) && (byte_of c <=? 122).

Definition isUpper (c : ascii) : bool :=
  (65 <=? byte_of c) && (byte_of c <=? 90).

Fixpoint all_chars (p : ascii -> bool) (s : string) : bool :=
  match s with
  | EmptyString => true
  | String c r => p c && all_chars p r
  end.

(** The longest prefix of [s] whose bytes satisfy [p], and the rest. *)
Fixpoint span (p : ascii -> bool) (s : string) : string * string :=
  match s with
  | EmptyString => (EmptyString, EmptyString)
  | String c r =>
      if p c then let (a, b) := span p r in (String c a, b)
      else (EmptyString, s)
  end.

(** The operators of package regexp that [semverRegex] uses: a literal
    byte, a class of bytes, sequence, [r?] and [r+]. *)
Inductive regex : Type :=
| Chr (c : ascii)
| Class (p : ascii -> bool)
| Seq (r1 r2 : regex)
| Opt (r : regex)
| Plus (r : regex).

(** [matches r s]: the whole text [s] is a match of [r], as for a pattern
    anchored by [^] and [$]. *)
Inductive matches : regex -> string -> Prop :=
| matches_Chr (c : ascii) : matches (Chr c) (String c EmptyString)
| matches_Class (p : ascii -> bool) (c : ascii) :
    p c = true -> matches (Class p) (String c EmptyString)
| matches_Seq (r1 r2 : regex) (s1 s2 : string) :
    matches r1 s1 -> matches r2 s2 -> matches (Seq r1 r2) (s1 ++ s2)
| matches_Opt_none (r : regex) : matches (Opt r) EmptyString
| matches_Opt_some (r : regex) (s : string) : matches r s -> matches (Opt r) s
| matches_Plus_one (r : regex) (s : string) : matches r s -> matches (Plus r) s
| matches_Plus_more (r : regex) (s1 s2 : string) :
    matches r s1 -> matches (Plus r) s2 -> matches (Plus r) (s1 ++ s2).

(** [strings.HasPrefix(s, prefix)] *)
Definition HasPrefix (s pre : string) : bool := String.prefix pre s.

(** [strings.Contains(s, substr)] *)
Fixpoint Contains (s sub : string) : bool :=
  HasPrefix s sub ||
  match s with
  | EmptyString => false
  | String _ r => Contains r sub
  end.

(** [strings.Compare(a, b)]: byte-wise lexicographic, in {-1, 0, 1}. *)
Definition Compare (a b : string) : Z :=
  match String.compare a b with
  | Lt => -1
  | Eq => 0
  | Gt => 1
  end.

(** The Go operator [a > b] on strings. *)
Definition string_gt (a b : string) : bool :=
  match String.compare a b with Gt => true | _ => false end.

(** The Go operator [a < b] on strings. *)
Definition string_lt (a b : string) : bool :=
  match String.compare a b with Lt => true | _ => false end.

(** [strings.TrimPrefix(s, "v")] *)
Definition TrimPrefix_v (s : string) : string :=
  match s with
  | String "v" r => r
  | _ => s
  end.

(** [strings.Split(s, sep)] for a one-byte separator: the fields between
    consecutive occurrences of [sep]; never empty. *)
Fixpoint Split (s : string) (sep : ascii) : list string :=
  match s with
  | EmptyString => [EmptyString]
  | String c r =>
      if Ascii.eqb c sep then EmptyString :: Split r sep
      else match Split r sep with
           | f :: fs => String c f :: fs
           | [] => [String c EmptyString]
           end
  end.

(** [strings.LastIndex(s, ":")], as the pair (text before the last colon,
    text after it) when there is one. *)
Fixpoint cutLast (s : string) (sep : ascii) : option (string * string) :=
  match s with
  | EmptyString => None
  | String c r =>
      match cutLast r sep with
      | Some (a, b) => Some (String c a, b)
      | None => if Ascii.eqb c sep then Some (EmptyString, r) else None
      end
  end.

(** Go's [int] on the 64-bit targets the service is built for. *)
Definition intSize : Z := 64.
Definition maxInt : Z := 2 ^ (intSize - 1) - 1.
Definition minInt : Z := - 2 ^ (intSize - 1).

(** The value of a string of decimal digits, left to right. *)
Fixpoint decimalValue (acc : Z) (s : string) : Z :=
  match s with
  | EmptyString => acc
  | String c r => decimalValue (10 * acc + (byte_of c - 48)) r
  end.

(** [strconv.Atoi(s)]: an optional sign, then one or more decimal digits.
    The second component is [true] when the error is [nil].  A syntax error
    returns 0; a value outside [int] returns the nearest bound together
    with a range error (strconv.ParseInt clamps to [cutoff - 1] and
    [-cutoff]). *)
Definition Atoi (s : string) : Z * bool :=
  let '(neg, body) :=
    match s with
    | String "-" r => (true, r)
    | String "+" r => (false, r)
    | _ => (false, s)
    end in
  match body with
  | EmptyString => (0, false)
  | _ =>
      if negb (all_chars isDigit body) then (0, false)
      else
        let un := decimalValue 0 body in
        let cutoff := 2 ^ (intSize - 1) in
        if negb neg && (cutoff <=? un) then (cutoff - 1, false)
        else if neg && (cutoff <? un) then (- cutoff, false)
        else (if neg then - un else un, true)
  end.

(** [fmt.Sprintf("%d", n)] *)
Definition formatInt (n : Z) : string := NilZero.string_of_int (Z.to_int n).

End Go.

(** ** pkg/types *)

Module types.

(** [type UpdatePolicy string] *)
Definition UpdatePolicy : Type := string.

Definition AutoPatch : UpdatePolicy := "auto-patch".
Definition AutoMinor : UpdatePolicy := "auto-minor".
Definition AutoAll : UpdatePolicy := "auto-all".
Definition NotifyOnly : UpdatePolicy := "notify-only".

Record CoolifyConfig : Type := mkCoolifyConfig {
  URL : string;
  Token : string
}.

Record DefaultsConfig : Type := mkDefaultsConfig {
  DefPolicy : UpdatePolicy;
  Interval : string;
  Schedule : string;
  Cooldown : string;
  ExcludePatterns : list string
}.

Record AppConfig : Type := mkAppConfig {
  Name : string;
  UUID : string;
  Image : string;
  Policy : UpdatePolicy;
  Pin : string
}.

Record Config : Type := mkConfig {
  Coolify : CoolifyConfig;
  Defaults : DefaultsConfig;
  Apps : list AppConfig
}.

(** [time.Time] values are instants on an integer time line; a
    [time.Duration] is a difference of two of them. *)
Definition Time : Type := Z.

Record AppStatus : Type := mkAppStatus {
  sName : string;
  sUUID : string;
  sImage : string;
  CurrentTag : string;
  LatestTag : string;
  sPolicy : string;
  UpdateNeeded : bool;
  LastCheck : Time;
  LastUpdate : option Time
}.

Record CoolifyApplication : Type := mkCoolifyApplication {
  aUUID : string;
  aName : string;
  DockerImage : string;
  Status : string
}.

End types.

(** ** internal/semver *)

Module semver.

Import Go.

Record Version : Type := mkVersion {
  Major : Z;
  Minor : Z;
  Patch : Z;
  Prerelease : string;
  Build : string;
  Original : string
}.

(** The class [[a-zA-Z0-9\-\.]] of [semverRegex]. *)
Definition isIdentChar (c : ascii) : bool :=
  isLower c || isUpper c || isDigit c || Ascii.eqb c "-" || Ascii.eqb c ".".

(** [var semverRegex = regexp.MustCompile(
      `^v?(\d+)\.(\d+)\.(\d+)(?:-([a-zA-Z0-9\-\.]+))?(?:\+([a-zA-Z0-9\-\.]+))?$`)] *)
Definition semverRegex : regex :=
  Seq (Opt (Chr "v"))
 (Seq (Plus (Class isDigit))
 (Seq (Chr ".")
 (Seq (Plus (Class isDigit))
 (Seq (Chr ".")
 (Seq (Plus (Class isDigit))
 (Seq (Opt (Seq (Chr "-") (Plus (Class isIdentChar))))
      (Opt (Seq (Chr "+") (Plus (Class isIdentChar)))))))))).

(** The matcher below reads the text once from the left.  The pattern
    leaves it no choice: a run of digits ends at the first byte that is
    not a digit, and a prerelease at the first byte outside its class
    ([+] is outside it).  [ParseFacts.FindStringSubmatch_matches] proves
    that it accepts the texts [semverRegex] matches, and no other, and
    [ParseFacts.render_unique] that a text has one reading, so that the
    submatches are the ones any matcher returns. *)

(** [(\d+)]: a non-empty maximal run of digits, and what follows it. *)
Definition digits1 (s : string) : option (string * string) :=
  match span isDigit s with
  | (EmptyString, _) => None
  | (d, r) => Some (d, r)
  end.

(** A literal byte of the pattern. *)
Definition lit (c : ascii) (s : string) : option string :=
  match s with
  | String c' r => if Ascii.eqb c' c then Some r else None
  | EmptyString => None
  end.

(** [(?:\+([a-zA-Z0-9\-\.]+))?$] applied to what follows the prerelease:
    either the end of the text, or ['+'] and a non-empty run of identifier
    bytes up to the end of the text.  Returns submatch 5. *)
Definition buildSuffix (s : string) : option string :=
  match s with
  | EmptyString => Some EmptyString
  | String "+" b =>
      match b with
      | EmptyString => None
      | _ => if all_chars isIdentChar b then Some b else None
      end
  | _ => None
  end.

(** [(?:-([a-zA-Z0-9\-\.]+))?(?:\+([a-zA-Z0-9\-\.]+))?$]: submatches 4
    and 5.  ['+'] is not an identifier byte, so the prerelease is the
    maximal run of identifier bytes after ['-']. *)
Definition suffixes (s : string) : option (string * string) :=
  match s with
  | String "-" r =>
      match span isIdentChar r with
      | (EmptyString, _) => None
      | (pre, r') =>
          match buildSuffix r' with
          | Some b => Some (pre, b)
          | None => None
          end
      end
  | _ =>
      match buildSuffix s with
      | Some b => Some (EmptyString, b)
      | None => None
      end
  end.

(** [semverRegex.FindStringSubmatch(v)] for
    [^v?(\d+)\.(\d+)\.(\d+)(?:-([a-zA-Z0-9\-\.]+))?(?:\+([a-zA-Z0-9\-\.]+))?$]:
    submatches 1 to 5, or [None] when the text does not match. *)
Definition FindStringSubmatch (v : string)
  : option (string * string * string * string * string) :=
  let s0 := match v with String "v" r => r | _ => v end in
  match digits1 s0 with
  | None => None
  | Some (m1, r1) =>
  match lit "." r1 with
  | None => None
  | Some r1' =>
  match digits1 r1' with
  | None => None
  | Some (m2, r2) =>
  match lit "." r2 with
  | None => None
  | Some r2' =>
  match digits1 r2' with
  | None => None
  | Some (m3, r3) =>
  match suffixes r3 with
  | None => None
  | Some (m4, m5) => Some (m1, m2, m3, m4, m5)
  end end end end end end.

(** [ParseVersion]: the errors of [strconv.Atoi] are dropped by the source
    ([major, _ := strconv.Atoi(...)]), its value is kept. *)
Definition ParseVersion (v : string) : option Version :=
  match FindStringSubmatch v with
  | None => None
  | Some (m1, m2, m3, m4, m5) =>
      Some {| Major := fst (Atoi m1);
              Minor := fst (Atoi m2);
              Patch := fst (Atoi m3);
              Prerelease := m4;
              Build := m5;
              Original := v |}
  end.

(** [func (v *Version) String() string] *)
Definition String_ (v : Version) : string := Original v.

Definition nonEmpty (s : string) : bool :=
  match s with EmptyString => false | _ => true end.

(** [func (v *Version) Compare(other *Version) int] *)
Definition Compare (v other : Version) : Z :=
  if negb (Major v =? Major other) then
    if Major v <? Major other then -1 else 1
  else if negb (Minor v =? Minor other) then
    if Minor v <? Minor other then -1 else 1
  else if negb (Patch v =? Patch other) then
    if Patch v <? Patch other then -1 else 1
  else if negb (nonEmpty (Prerelease v)) && nonEmpty (Prerelease other) then 1
  else if nonEmpty (Prerelease v) && negb (nonEmpty (Prerelease other)) then -1
  else if nonEmpty (Prerelease v) && nonEmpty (Prerelease other) then
    Go.Compare (Prerelease v) (Prerelease other)
  else 0.


(** [IsUpdateAllowed]: the decision and its reason text. *)
Definition reasonNotNewer : string := "latest version is not newer than current".
Definition reasonNonSemverAutoAll : string := "non-semver update (auto-all policy)".
Definition reasonNonSemver (policy : types.UpdatePolicy) : string :=
  "non-semver tag, policy " ++ policy ++ " requires explicit semver".
Definition reasonLatestNotSemver (latest : string) : string :=
  "latest tag " ++ latest ++ " is not semver".
Definition reasonInvalidPin (pin : string) : string :=
  "invalid pin value: " ++ pin.
Definition reasonPinBoundary (pinMajor : Z) : string :=
  "update would cross pin boundary (pinned to major " ++ formatInt pinMajor ++ ")".
Definition reasonNotifyOnly : string :=
  "notify-only policy - update available but not applied".
Definition reasonPatchOnly : string := "auto-patch policy only allows patch updates".
Definition reasonPatchAllowed : string := "patch update allowed".
Definition reasonMinorOnly : string :=
  "auto-minor policy only allows minor and patch updates".
Definition reasonMinorAllowed : string := "minor/patch update allowed".
Definition reasonAutoAll : string := "auto-all policy allows all updates".
Definition reasonUnknownPolicy (policy : types.UpdatePolicy) : string :=
  "unknown update policy: " ++ policy.

(** The [switch policy] at the end of [IsUpdateAllowed]. *)
Definition applyPolicy (currentVer latestVer : Version)
    (policy : types.UpdatePolicy) : bool * string :=
  if String.eqb policy types.NotifyOnly then (false, reasonNotifyOnly)
  else if String.eqb policy types.AutoPatch then
    if negb (Major latestVer =? Major currentVer)
       || negb (Minor latestVer =? Minor currentVer)
    then (false, reasonPatchOnly)
    else (true, reasonPatchAllowed)
  else if String.eqb policy types.AutoMinor then
    if negb (Major latestVer =? Major currentVer)
    then (false, reasonMinorOnly)
    else (true, reasonMinorAllowed)
  else if String.eqb policy types.AutoAll then (true, reasonAutoAll)
  else (false, reasonUnknownPolicy policy).

(** The pin block of [IsUpdateAllowed]: [Some] is an early return. *)
Definition checkPin (latestVer : Version) (pin : string) : option (bool * string) :=
  if nonEmpty pin then
    let '(pinMajor, ok) := Atoi pin in
    if negb ok then Some (false, reasonInvalidPin pin)
    else if negb (Major latestVer =? pinMajor)
    then Some (false, reasonPinBoundary pinMajor)
    else None
  else None.

Definition IsUpdateAllowed (current latest : string)
    (policy : types.UpdatePolicy) (pin : string) : bool * string :=
  match ParseVersion current with
  | None =>
      if String.eqb policy types.AutoAll
      then (negb (String.eqb current latest), reasonNonSemverAutoAll)
      else (false, reasonNonSemver policy)
  | Some currentVer =>
      match ParseVersion latest with
      | None => (false, reasonLatestNotSemver latest)
      | Some latestVer =>
          if Compare latestVer currentVer <=? 0 then (false, reasonNotNewer)
          else
            match checkPin latestVer pin with
            | Some r => r
            | None => applyPolicy currentVer latestVer policy
            end
      end
  end.

(** [FilterPrereleaseTags]: keep the tags that contain none of the
    patterns, in their order. *)
Definition excluded (excludePatterns : list string) (tag : string) : bool :=
  List.existsb (fun pattern => Contains tag pattern) excludePatterns.

Definition FilterPrereleaseTags (tags excludePatterns : list string) : list string :=
  List.filter (fun tag => negb (excluded excludePatterns tag)) tags.

(** The first loop of [FindLatestVersion]: the tags that parse and carry no
    prerelease, in their order. *)
Definition stableVersion (tag : string) : option Version :=
  match ParseVersion tag with
  | Some version => if nonEmpty (Prerelease version) then None else Some version
  | None => None
  end.

Fixpoint stableVersions (tags : list string) : list Version :=
  match tags with
  | [] => []
  | tag :: rest =>
      match stableVersion tag with
      | Some version => version :: stableVersions rest
      | None => stableVersions rest
      end
  end.

(** [if tag > latest { latest = tag }] *)
Definition laterTag (latest tag : string) : string :=
  if string_gt tag latest then tag else latest.

(** [if version.Compare(latest) > 0 { latest = version }] *)
Definition laterVersion (latest version : Version) : Version :=
  if 0 <? Compare version latest then version else latest.

Definition FindLatestVersion (tags : list string) : result string :=
  match stableVersions tags with
  | [] =>
      match tags with
      | [] => Err "no tags found"
      | tag0 :: rest => OK (fold_left laterTag rest tag0)
      end
  | version0 :: rest => OK (Original (fold_left laterVersion rest version0))
  end.

End semver.

(** ** internal/registry: the tag selection of [GetLatestTag] *)

Module registry.

Import Go.

(** [int] arithmetic wraps around at 64 bits. *)
Definition wrapInt (z : Z) : Z :=
  (z + 2 ^ (intSize - 1)) mod 2 ^ intSize - 2 ^ (intSize - 1).

(** [filterTags] *)
Definition filterTags (tags excludePatterns : list string) : list string :=
  List.filter
    (fun tag => negb (List.existsb (fun pattern => Contains tag pattern) excludePatterns))
    tags.

Fixpoint dropWhile (p : ascii -> bool) (s : string) : string :=
  match s with
  | EmptyString => EmptyString
  | String c r => if p c then dropWhile p r else s
  end.

(** [strings.FieldsFunc(part, func(r rune) bool { return r < '0' || r > '9' })]
    and then element 0: the first maximal run of digits of [part], if any.
    Every byte of a multi-byte rune is at least 0x80, hence not a digit, so
    the split by runes and the split by bytes agree. *)
Definition firstDigitField (part : string) : option string :=
  match fst (span isDigit (dropWhile (fun c => negb (isDigit c)) part)) with
  | EmptyString => None
  | d => Some d
  end.

(** One round of the loop of [parseSimpleVersion]. *)
Definition simpleComponent (part : string) : option Z :=
  match firstDigitField part with
  | None => None
  | Some d => let '(num, ok) := Atoi d in if ok then Some num else None
  end.

(** [parseSimpleVersion] *)
Definition parseSimpleVersion (v : string) : option (Z * Z * Z) :=
  match Split (TrimPrefix_v v) "." with
  | p0 :: p1 :: p2 :: _ =>
      match simpleComponent p0 with
      | None => None
      | Some n0 =>
      match simpleComponent p1 with
      | None => None
      | Some n1 =>
      match simpleComponent p2 with
      | None => None
      | Some n2 => Some (n0, n1, n2)
      end end end
  | _ => None
  end.

(** [compareVersions] *)
Definition compareVersions (a b : string) : Z :=
  match parseSimpleVersion a, parseSimpleVersion b with
  | Some (a0, a1, a2), Some (b0, b1, b2) =>
      if negb (a0 =? b0) then wrapInt (a0 - b0)
      else if negb (a1 =? b1) then wrapInt (a1 - b1)
      else if negb (a2 =? b2) then wrapInt (a2 - b2)
      else 0
  | _, _ =>
      if string_gt a b then 1
      else if string_lt a b then -1
      else 0
  end.

Section Sort.

Context {A : Type}.
Variable less : A -> A -> bool.

(** The inner loop of the standard library's insertion sort,
    [for j := i; j > a && less(j, j-1); j-- { swap(j, j-1) }], on the
    elements before position [i] given nearest first. *)
Fixpoint sink (x : A) (before : list A) : list A :=
  match before with
  | [] => [x]
  | y :: r => if less x y then y :: sink x r else x :: y :: r
  end.

Definition insertionSort (l : list A) : list A :=
  List.rev (fold_left (fun before x => sink x before) l []).

(** [sort.Slice]: slices of at most 12 elements are sorted by insertion
    sort; for longer ones the library's pattern-defeating quicksort
    [pdqsort] runs, which is left as a parameter. *)
Variable pdqsort : list A -> list A.

Definition sortSlice (l : list A) : list A :=
  if (Z.of_nat (List.length l) <=? 12) then insertionSort l else pdqsort l.

End Sort.

(** [GetLatestTag] once [GetTags] has answered with the names [tagNames]. *)
Definition GetLatestTag (pdqsort : list string -> list string)
    (image : string) (tagNames excludePatterns : list string) : result string :=
  match tagNames with
  | [] => Err ("no tags found for image " ++ image)
  | _ =>
      match filterTags tagNames excludePatterns with
      | [] => Err "no stable tags found after filtering"
      | filtered =>
          match sortSlice (fun x y => 0 <? compareVersions x y) pdqsort filtered with
          | first :: _ => OK first
          | [] => Err "index out of range"
          end
      end
  end.

End registry.

(** ** internal/coolify: image references *)

Module coolify.

Import Go.

(** [ExtractImageAndTag] *)
Definition ExtractImageAndTag (dockerImage : string) : string * string :=
  match cutLast dockerImage ":" with
  | None => (dockerImage, "latest")
  | Some (beforeColon, afterColon) =>
      if Contains afterColon "/" then (dockerImage, "latest")
      else (beforeColon, afterColon)
  end.

(** [BuildImageReference] *)
Definition BuildImageReference (image tag : string) : string :=
  image ++ ":" ++ tag.

End coolify.

(** ** internal/config *)

Module config.

Import Go types.

(** [GetUpdatePolicy] *)
Definition GetUpdatePolicy (app : AppConfig) (defaults : DefaultsConfig) : UpdatePolicy :=
  if semver.nonEmpty (Policy app) then Policy app else DefPolicy defaults.

(** The zero value of [types.Config]. *)
Definition zeroConfig : Config :=
  {| Coolify := {| URL := ""; Token := "" |};
     Defaults := {| DefPolicy := ""; Interval := ""; Schedule := "";
                    Cooldown := ""; ExcludePatterns := [] |};
     Apps := [] |}.

Definition isEmpty (s : string) : bool := negb (semver.nonEmpty s).

Section Load.

(** What the loader takes from outside the repository: [strings.TrimSpace],
    the 5-field parser of robfig/cron (its error, if any),
    [time.ParseDuration] (its error, if any) and the process environment
    read by [os.Getenv] (unset variables read as the empty string). *)
Variable TrimSpace : string -> string.
Variable cronParse : string -> option string.
Variable ParseDuration : string -> option string.
Variable Getenv : string -> string.

(** The policy case of [parseCompactApps],
    [case "auto-patch", "auto-minor", "auto-all", "notify-only"]. *)
Definition isKnownPolicy (policy : string) : bool :=
  String.eqb policy "auto-patch" || String.eqb policy "auto-minor"
  || String.eqb policy "auto-all" || String.eqb policy "notify-only".

(** The body of the loop of [parseCompactApps] on one trimmed, non-empty
    [spec]. *)
Definition parseCompactApp (spec : string) : result AppConfig :=
  match Split spec ":" with
  | p0 :: p1 :: p2 :: more =>
      let name := TrimSpace p0 in
      let uuid := TrimSpace p1 in
      let image := TrimSpace p2 in
      if isEmpty name then Err ("app name cannot be empty in spec '" ++ spec ++ "'")
      else if isEmpty uuid then Err ("app uuid cannot be empty in spec '" ++ spec ++ "'")
      else if isEmpty image then Err ("app image cannot be empty in spec '" ++ spec ++ "'")
      else
        let policyField :=
          match more with
          | p3 :: _ => if semver.nonEmpty p3 then Some (TrimSpace p3) else None
          | [] => None
          end in
        let pinField :=
          match more with
          | _ :: p4 :: _ => if semver.nonEmpty p4 then Some (TrimSpace p4) else None
          | _ => None
          end in
        match policyField with
        | Some policy =>
            if isKnownPolicy policy then
              match pinField with
              | Some pin =>
                  if snd (Atoi pin)
                  then OK {| Name := name; UUID := uuid; Image := image;
                             Policy := policy; Pin := pin |}
                  else Err ("invalid pin '" ++ pin ++ "' in spec '" ++ spec
                            ++ "'. Must be a number (e.g., 17)")
              | None => OK {| Name := name; UUID := uuid; Image := image;
                              Policy := policy; Pin := "" |}
              end
            else Err ("invalid policy '" ++ policy ++ "' in spec '" ++ spec
                      ++ "'. Must be: auto-patch, auto-minor, auto-all, or notify-only")
        | None =>
            match pinField with
            | Some pin =>
                if snd (Atoi pin)
                then OK {| Name := name; UUID := uuid; Image := image;
                           Policy := ""; Pin := pin |}
                else Err ("invalid pin '" ++ pin ++ "' in spec '" ++ spec
                          ++ "'. Must be a number (e.g., 17)")
            | None => OK {| Name := name; UUID := uuid; Image := image;
                            Policy := ""; Pin := "" |}
            end
        end
  | _ => Err ("app spec '" ++ spec ++ "' must have at least name:uuid:image")
  end.

(** The loop of [parseCompactApps] over the specs still to read, [apps]
    being the slice built so far. *)
Fixpoint parseSpecs (appSpecs : list string) (apps : list AppConfig)
  : result (list AppConfig) :=
  match appSpecs with
  | [] => OK apps
  | spec :: rest =>
      let spec := TrimSpace spec in
      if isEmpty spec then parseSpecs rest apps
      else match parseCompactApp spec with
           | Err e => Err e
           | OK app => parseSpecs rest (apps ++ [app])
           end
  end.

(** [parseCompactApps] *)
Definition parseCompactApps (appsStr : string) : result (list AppConfig) :=
  parseSpecs (Split appsStr ";") [].

Definition orElse (fromEnv current : string) : string :=
  if semver.nonEmpty fromEnv then fromEnv else current.

(** [loadFromEnv]: the configuration after the overrides, or the error. *)
Definition loadFromEnv (config : Config) : result Config :=
  let coolify :=
    {| URL := orElse (Getenv "COOLIFY_URL") (URL (Coolify config));
       Token := orElse (Getenv "COOLIFY_TOKEN") (Token (Coolify config)) |} in
  let defaults :=
    {| DefPolicy := orElse (Getenv "PATROL_POLICY") (DefPolicy (Defaults config));
       Interval := orElse (Getenv "PATROL_INTERVAL") (Interval (Defaults config));
       Schedule := orElse (Getenv "PATROL_SCHEDULE") (Schedule (Defaults config));
       Cooldown := orElse (Getenv "PATROL_COOLDOWN") (Cooldown (Defaults config));
       ExcludePatterns :=
         if semver.nonEmpty (Getenv "PATROL_EXCLUDE_PATTERNS")
         then List.map TrimSpace (Split (Getenv "PATROL_EXCLUDE_PATTERNS") ",")
         else ExcludePatterns (Defaults config) |} in
  if semver.nonEmpty (Getenv "PATROL_APPS") then
    match parseCompactApps (Getenv "PATROL_APPS") with
    | Err e => Err ("invalid PATROL_APPS format: " ++ e)
    | OK apps => OK {| Coolify := coolify; Defaults := defaults; Apps := apps |}
    end
  else if String.eqb (Getenv "PATROL_AUTO_DISCOVER") "true" then
    OK {| Coolify := coolify; Defaults := defaults; Apps := [] |}
  else OK {| Coolify := coolify; Defaults := defaults; Apps := Apps config |}.

(** The defaults block of [Load]. *)
Definition setDefaults (config : Config) : Config :=
  {| Coolify := Coolify config;
     Defaults :=
       {| DefPolicy := if isEmpty (DefPolicy (Defaults config))
                       then AutoPatch else DefPolicy (Defaults config);
          Interval := if isEmpty (Interval (Defaults config))
                      then "15m" else Interval (Defaults config);
          Schedule := Schedule (Defaults config);
          Cooldown := if isEmpty (Cooldown (Defaults config))
                      then "1h" else Cooldown (Defaults config);
          ExcludePatterns :=
            match ExcludePatterns (Defaults config) with
            | [] => ["-alpha"; "-beta"; "-rc"; "-dev"; "-nightly"]
            | ps => ps
            end |};
     Apps := Apps config |}.

(** The validation block of [Load]. *)
Definition validate (config : Config) : result Config :=
  if isEmpty (URL (Coolify config)) then Err "COOLIFY_URL is required"
  else if isEmpty (Token (Coolify config)) then Err "COOLIFY_TOKEN is required"
  else
    let scheduleError :=
      if semver.nonEmpty (Schedule (Defaults config)) then
        match cronParse (Schedule (Defaults config)) with
        | Some e => Some ("invalid PATROL_SCHEDULE cron syntax '"
                          ++ Schedule (Defaults config) ++ "': " ++ e)
        | None => None
        end
      else
        match ParseDuration (Interval (Defaults config)) with
        | Some e => Some ("invalid PATROL_INTERVAL: " ++ e)
        | None => None
        end in
    match scheduleError with
    | Some e => Err e
    | None =>
        match ParseDuration (Cooldown (Defaults config)) with
        | Some e => Err ("invalid PATROL_COOLDOWN: " ++ e)
        | None => OK config
        end
    end.

(** [Load].  [decoded] is what reading and decoding the YAML file gave:
    [None] when no path is given or the file cannot be read (the source then
    goes on with the zero configuration), otherwise the result of
    [yaml.Unmarshal] into [types.Config], whose policy fields are plain
    strings. *)
Definition Load (decoded : option (result Config)) : result Config :=
  match decoded with
  | Some (Err e) => Err ("failed to parse config YAML: " ++ e)
  | _ =>
      let config := match decoded with Some (OK c) => c | _ => zeroConfig end in
      match loadFromEnv config with
      | Err e => Err ("failed to load from environment: " ++ e)
      | OK config => validate (setDefaults config)
      end
  end.

End Load.

End config.

(** ** internal/watcher *)

Module watcher.

Import Go types.

(** [error]: [None] is [nil]. *)
Definition error : Type := option string.

(** What a check cycle does to the outside, in the order it does it. *)
Inductive Event : Type :=
| EvListApplications
| EvGetApplication (uuid : string)
| EvGetLatestTag (image : string) (excludePatterns : list string)
| EvUpdateApplication (uuid newImage : string)
| EvRestartApplication (uuid : string)
| EvSleep (d : Z)
| EvLogError (name uuid err : string).

(** The collaborators.  The watcher is the single worker, so a run is a
    sequence of interactions with the outside (calls of the two clients,
    readings of the clock, sleeps); the answer to each is a function of its
    position in that sequence and of its arguments.  [wGetLatestTag]
    stands for the whole of [registryClient.GetLatestTag], network call
    included; its selection step alone is [registry.GetLatestTag]. *)
Record World : Type := mkWorld {
  wListApplications : nat -> result (list CoolifyApplication);
  wGetApplication : nat -> string -> result CoolifyApplication;
  wGetLatestTag : nat -> string -> list string -> result string;
  wUpdateApplication : nat -> string -> string -> error;
  wRestartApplication : nat -> string -> error;
  wNow : nat -> Time;
  wParseDuration : string -> Z * error
}.

(** [type Watcher struct] with the state it tracks, and the run so far:
    the number of interactions made and the events emitted. *)
Record State : Type := mkState {
  config : Config;
  dryRun : bool;
  appStatuses : gmap string AppStatus;
  lastUpdates : gmap string Time;
  lastCheck : Time;
  steps : nat;
  trace : list Event
}.

Definition setAppStatus (uuid : string) (status : AppStatus) (s : State) : State :=
  {| config := config s; dryRun := dryRun s;
     appStatuses := <[uuid := status]> (appStatuses s);
     lastUpdates := lastUpdates s; lastCheck := lastCheck s;
     steps := steps s; trace := trace s |}.

Definition setLastUpdate (uuid : string) (t : Time) (s : State) : State :=
  {| config := config s; dryRun := dryRun s;
     appStatuses := appStatuses s;
     lastUpdates := <[uuid := t]> (lastUpdates s); lastCheck := lastCheck s;
     steps := steps s; trace := trace s |}.

Definition setLastCheck (t : Time) (s : State) : State :=
  {| config := config s; dryRun := dryRun s;
     appStatuses := appStatuses s;
     lastUpdates := lastUpdates s; lastCheck := t;
     steps := steps s; trace := trace s |}.

Definition advance (events : list Event) (s : State) : State :=
  {| config := config s; dryRun := dryRun s;
     appStatuses := appStatuses s;
     lastUpdates := lastUpdates s; lastCheck := lastCheck s;
     steps := S (steps s); trace := trace s ++ events |}.

(** Computations of the watcher: state passing. *)
Definition M (A : Type) : Type := State -> A * State.

#[global] Instance M_ret : MRet M := fun A (a : A) s => (a, s).
#[global] Instance M_bind : MBind M :=
  fun A B (k : A -> M B) (m : M A) s => let (a, s') := m s in k a s'.

Definition get : M State := fun s => (s, s).
Definition modify (f : State -> State) : M unit := fun s => (tt, f s).

Definition updateDelay : Z := 30 * 1000000000.

Section Watcher.

Variable world : World.

(** One interaction: the events it emits and its answer. *)
Definition interact {A : Type} (events : list Event) (answer : nat -> A) : M A :=
  fun s => (answer (steps s), advance events s).

Definition timeNow : M Time := interact [] (wNow world).

Definition timeSleep (d : Z) : M unit := interact [EvSleep d] (fun _ => tt).

Definition ListApplications : M (result (list CoolifyApplication)) :=
  interact [EvListApplications] (wListApplications world).

Definition GetApplication (uuid : string) : M (result CoolifyApplication) :=
  interact [EvGetApplication uuid] (fun n => wGetApplication world n uuid).

Definition GetLatestTag (image : string) (excludePatterns : list string)
  : M (result string) :=
  interact [EvGetLatestTag image excludePatterns]
           (fun n => wGetLatestTag world n image excludePatterns).

Definition UpdateApplication (uuid newImage : string) : M error :=
  interact [EvUpdateApplication uuid newImage]
           (fun n => wUpdateApplication world n uuid newImage).

Definition RestartApplication (uuid : string) : M error :=
  interact [EvRestartApplication uuid] (fun n => wRestartApplication world n uuid).

(** [w.logger.Error("Failed to check application", ...)] *)
Definition logError (app : AppConfig) (err : string) : M unit :=
  modify (fun s =>
    {| config := config s; dryRun := dryRun s; appStatuses := appStatuses s;
       lastUpdates := lastUpdates s; lastCheck := lastCheck s;
       steps := steps s;
       trace := trace s ++ [EvLogError (Name app) (UUID app) err] |}).

(** [performUpdate] *)
Definition performUpdate (app : AppConfig) (newTag : string) : M error :=
  let newImage := coolify.BuildImageReference (Image app) newTag in
  e ← UpdateApplication (UUID app) newImage;
  match e with
  | Some err => mret (Some ("updating application config: " ++ err))
  | None =>
      e ← RestartApplication (UUID app);
      match e with
      | Some err => mret (Some ("restarting application: " ++ err))
      | None => mret None
      end
  end.

(** The cooldown block of [checkAndUpdateApp]: [true] is the early
    [return nil].  [time.Since(lastUpdate)] reads the clock. *)
Definition inCooldown (app : AppConfig) : M bool :=
  s ← get;
  match lastUpdates s !! UUID app with
  | Some lastUpdate =>
      let cooldownDuration := fst (wParseDuration world (Cooldown (Defaults (config s)))) in
      now ← timeNow;
      mret (now - lastUpdate <? cooldownDuration)
  | None => mret false
  end.

(** [checkAndUpdateApp] *)
Definition checkAndUpdateApp (app : AppConfig) : M error :=
  r ← GetApplication (UUID app);
  match r with
  | Err err => mret (Some ("getting current application state: " ++ err))
  | OK currentApp =>
      let currentTag := snd (coolify.ExtractImageAndTag (DockerImage currentApp)) in
      skip ← inCooldown app;
      if skip : bool then mret None
      else
        s ← get;
        r ← GetLatestTag (Image app) (ExcludePatterns (Defaults (config s)));
        match r with
        | Err err => mret (Some ("getting latest tag for " ++ Image app ++ ": " ++ err))
        | OK latestTag =>
            now ← timeNow;
            let policy := config.GetUpdatePolicy app (Defaults (config s)) in
            let '(updateAllowed, reason) :=
              semver.IsUpdateAllowed currentTag latestTag policy (Pin app) in
            let status :=
              {| sName := Name app; sUUID := UUID app; sImage := Image app;
                 CurrentTag := currentTag; LatestTag := latestTag;
                 sPolicy := policy; UpdateNeeded := updateAllowed;
                 LastCheck := now; LastUpdate := None |} in
            if negb updateAllowed then
              modify (setAppStatus (UUID app) status);; mret None
            else if dryRun s then
              modify (setAppStatus (UUID app) status);; mret None
            else
              e ← performUpdate app latestTag;
              match e with
              | Some err => mret (Some ("performing update: " ++ err))
              | None =>
                  t ← timeNow;
                  modify (setLastUpdate (UUID app) t);;
                  updateTime ← timeNow;
                  modify (setAppStatus (UUID app)
                    {| sName := Name app; sUUID := UUID app; sImage := Image app;
                       CurrentTag := currentTag; LatestTag := latestTag;
                       sPolicy := policy; UpdateNeeded := updateAllowed;
                       LastCheck := now; LastUpdate := Some updateTime |});;
                  mret None
              end
        end
  end.

(** The loop of [getApplicationsToCheck] in auto-discovery mode. *)
Definition discovered (coolifyApps : list CoolifyApplication) : list AppConfig :=
  List.map
    (fun coolifyApp =>
       {| Name := aName coolifyApp; UUID := aUUID coolifyApp;
          Image := fst (coolify.ExtractImageAndTag (DockerImage coolifyApp));
          Policy := ""; Pin := "" |})
    (List.filter
       (fun coolifyApp =>
          negb (String.eqb (snd (coolify.ExtractImageAndTag (DockerImage coolifyApp)))
                           "latest"))
       coolifyApps).

(** [getApplicationsToCheck] *)
Definition getApplicationsToCheck : M (result (list AppConfig)) :=
  s ← get;
  match Apps (config s) with
  | _ :: _ => mret (OK (Apps (config s)))
  | [] =>
      r ← ListApplications;
      match r with
      | Err err => mret (Err ("listing Coolify applications: " ++ err))
      | OK coolifyApps => mret (OK (discovered coolifyApps))
      end
  end.

(** [for i, app := range apps { ... }] of [checkApplications], from index
    [i] on; [n] is [len(apps)] and [rest] the elements from [i] on. *)
Fixpoint checkLoop (n : Z) (i : Z) (rest : list AppConfig) : M unit :=
  match rest with
  | [] => mret tt
  | app :: rest' =>
      e ← checkAndUpdateApp app;
      match e with
      | Some err =>
          logError app err;;
          checkLoop n (i + 1) rest'
      | None =>
          (if i <? n - 1 then timeSleep updateDelay else mret tt);;
          checkLoop n (i + 1) rest'
      end
  end.

(** [checkApplications] *)
Definition checkApplications : M error :=
  now ← timeNow;
  modify (setLastCheck now);;
  r ← getApplicationsToCheck;
  match r with
  | Err err => mret (Some ("getting applications: " ++ err))
  | OK apps =>
      checkLoop (Z.of_nat (List.length apps)) 0 apps;;
      _ ← timeNow;
      mret None
  end.

End Watcher.

End watcher.

(** ** The statements of the specification, and the runs used as examples *)

Module spec.

Import Go types semver.

(** *** Version Comparator *)

(** The last three tests of [Compare], on the prerelease texts alone. *)
Definition comparePrerelease (p q : string) : Z :=
  if negb (nonEmpty p) && nonEmpty q then 1
  else if nonEmpty p && negb (nonEmpty q) then -1
  else if nonEmpty p && nonEmpty q then Go.Compare p q
  else 0.

(** What the order looks at: everything but the build metadata and the
    original text. *)
Definition sameKey (a b : Version) : Prop :=
  Major a = Major b /\ Minor a = Minor b /\ Patch a = Patch b
  /\ Prerelease a = Prerelease b.

(** The dotted-triple form of the specification: an optional leading [v],
    three non-empty runs of decimal digits separated by dots, then an
    optional [-<prerelease>] and an optional [+<build>].  The prerelease
    and the build are runs of the bytes the pattern of the source admits
    (letters, digits, [-] and [.]); an empty text stands for an absent
    part. *)
Definition isDigits (d : string) : bool := nonEmpty d && all_chars isDigit d.

Definition isIdent (t : string) : bool := all_chars isIdentChar t.

Definition optionalPart (mark : ascii) (body : string) : string :=
  if nonEmpty body then String mark body else EmptyString.

Definition render (v : bool) (d1 d2 d3 pre build : string) : string :=
  (if v then "v" else "") ++ d1 ++ "." ++ d2 ++ "." ++ d3
  ++ optionalPart "-" pre ++ optionalPart "+" build.

Definition wellFormed (d1 d2 d3 pre build : string) : Prop :=
  isDigits d1 = true /\ isDigits d2 = true /\ isDigits d3 = true
  /\ isIdent pre = true /\ isIdent build = true.

(** What may follow a maximal run: the end, or a byte outside the class. *)
Definition stops (p : ascii -> bool) (b : string) : Prop :=
  match b with
  | EmptyString => True
  | String c _ => p c = false
  end.

(** The number a run of digits writes. *)
Definition written (d : string) : Z := decimalValue 0 d.

(** *** Tag Selector *)

(** The tags that survive the exclusion list. *)
Definition survives (tags excludePatterns : list string) (tag : string) : Prop :=
  In tag tags /\ forall pattern, In pattern excludePatterns -> Contains tag pattern = false.

(** The selection rule as the specification words it, for the selector
    [select]: when some surviving tag parses as a version, the selected tag
    is a surviving versioned tag that no surviving versioned tag exceeds
    under [Compare]. *)
Definition selectsMaxVersioned (select : list string -> list string -> result string)
    (tags excludePatterns : list string) : Prop :=
  (exists t v, survives tags excludePatterns t /\ ParseVersion t = Some v) ->
  exists s v, select tags excludePatterns = OK s
    /\ survives tags excludePatterns s /\ ParseVersion s = Some v
    /\ forall t u, survives tags excludePatterns t -> ParseVersion t = Some u ->
                   Compare u v <= 0.

(** The selector of package semver: [FindLatestVersion] over the tags that
    [FilterPrereleaseTags] keeps. *)
Definition selectSemver (tags excludePatterns : list string) : result string :=
  FindLatestVersion (FilterPrereleaseTags tags excludePatterns).

(** *** Policies *)

Definition knownPolicy (policy : UpdatePolicy) : Prop :=
  policy = AutoPatch \/ policy = AutoMinor \/ policy = AutoAll \/ policy = NotifyOnly.

(** *** Check cycle *)

Import watcher.

Definition isSleep (e : Event) : bool :=
  match e with EvSleep _ => true | _ => false end.

Definition isUpdate (e : Event) : bool :=
  match e with EvUpdateApplication _ _ => true | _ => false end.

Definition isGetApplication (e : Event) : bool :=
  match e with EvGetApplication _ => true | _ => false end.

Definition isLogError (e : Event) : bool :=
  match e with EvLogError _ _ _ => true | _ => false end.

(** An event of one iteration other than its first: neither a fetch of the
    current application, nor a sleep, nor an error log. *)
Definition inner (e : Event) : bool :=
  negb (isGetApplication e || isSleep e || isLogError e).

(** What the body of the loop of [checkApplications] emits after the call
    of [checkAndUpdateApp] at index [i] of [n] returned [e]: the error log
    and [continue], or the sleep when the application is not the last. *)
Definition loopTail (n i : Z) (app : AppConfig) (e : error) : list Event :=
  match e with
  | Some err => [EvLogError (Name app) (UUID app) err]
  | None => if i <? n - 1 then [EvSleep updateDelay] else []
  end.

(** The state once [tail] is emitted; a sleep is an interaction. *)
Definition emit (tail : list Event) (s : State) : State :=
  {| config := config s; dryRun := dryRun s; appStatuses := appStatuses s;
     lastUpdates := lastUpdates s; lastCheck := lastCheck s;
     steps := steps s + length (List.filter isSleep tail);
     trace := trace s ++ tail |}.

(** The state after one round of the loop. *)
Definition afterIteration (world : World) (n i : Z) (app : AppConfig) (s : State)
  : State :=
  let r := checkAndUpdateApp world app s in
  emit (loopTail n i app (fst r)) (snd r).

(** The state at the head of the loop of [checkApplications]: the clock
    has been read once and stored in [lastCheck]. *)
Definition cycleStart (world : World) (s : State) : State :=
  setLastCheck (wNow world (steps s)) (advance [] s).

(** The refreshed entry of the specification: the record of the latest
    check of [app], made of the answers the collaborators gave between the
    interactions [from] and [to]. *)
Definition reflectsCheck (world : World) (cfg : Config) (app : AppConfig)
    (from to : nat) (st : AppStatus) : Prop :=
  sName st = Name app /\ sUUID st = UUID app /\ sImage st = Image app
  /\ sPolicy st = config.GetUpdatePolicy app (Defaults cfg)
  /\ (exists currentApp,
        wGetApplication world from (UUID app) = OK currentApp
        /\ CurrentTag st = snd (coolify.ExtractImageAndTag (DockerImage currentApp)))
  /\ (exists k, (from < k)%nat /\ (S k < to)%nat
        /\ wGetLatestTag world k (Image app) (ExcludePatterns (Defaults cfg))
           = OK (LatestTag st)
        /\ LastCheck st = wNow world (S k))
  /\ UpdateNeeded st
     = fst (IsUpdateAllowed (CurrentTag st) (LatestTag st) (sPolicy st) (Pin app)).

(** The refresh rule as the specification words it: once a cycle is over,
    the state map holds, for every application of the cycle, an entry that
    reflects a check of that cycle. *)
Definition cycleRefreshesAll (world : World) (s : State) : Prop :=
  forall apps sA,
    getApplicationsToCheck world (cycleStart world s) = (OK apps, sA) ->
    forall app, In app apps ->
      exists st from to,
        appStatuses (snd (checkApplications world s)) !! UUID app = Some st
        /\ reflectsCheck world (config s) app from to st.

End spec.

(** *** Example runs *)

Module example.

Import Go types watcher.

Definition app1 : AppConfig :=
  {| Name := "n8n"; UUID := "abc-123"; Image := "n8nio/n8n"; Policy := ""; Pin := "" |}.

Definition app2 : AppConfig :=
  {| Name := "postgres"; UUID := "def-456"; Image := "postgres";
     Policy := "auto-minor"; Pin := "17" |}.

Definition cfg (apps : list AppConfig) : Config :=
  {| Coolify := {| URL := "http://localhost:8000"; Token := "test-token" |};
     Defaults := {| DefPolicy := AutoPatch; Interval := "15m"; Schedule := "";
                    Cooldown := "1h"; ExcludePatterns := ["-alpha"; "-beta"] |};
     Apps := apps |}.

Definition hour : Z := 3600 * 1000000000.

(** A watcher that has run no cycle yet. *)
Definition fresh (apps : list AppConfig) : State :=
  {| config := cfg apps; dryRun := false;
     appStatuses := ∅; lastUpdates := ∅; lastCheck := 0;
     steps := 0; trace := [] |}.

(** Every application is deployed at [1.2.3], the registry's latest tag is
    [latest], every call succeeds, and the clock advances by one second per
    interaction. *)
Definition calm (latest : string) : World :=
  {| wListApplications := fun _ => OK [];
     wGetApplication := fun _ uuid =>
       OK {| aUUID := uuid; aName := "app"; DockerImage := "image:1.2.3";
             Status := "running" |};
     wGetLatestTag := fun _ _ _ => OK latest;
     wUpdateApplication := fun _ _ _ => None;
     wRestartApplication := fun _ _ => None;
     wNow := fun n => Z.of_nat n * 1000000000;
     wParseDuration := fun _ => (hour, None) |}.

(** As [calm], but the deployment controller does not know [abc-123]. *)
Definition notFound (latest : string) : World :=
  {| wListApplications := fun _ => OK [];
     wGetApplication := fun _ uuid =>
       if String.eqb uuid "abc-123"
       then Err ("application not found: " ++ uuid)
       else OK {| aUUID := uuid; aName := "app"; DockerImage := "image:1.2.3";
                  Status := "running" |};
     wGetLatestTag := fun _ _ _ => OK latest;
     wUpdateApplication := fun _ _ _ => None;
     wRestartApplication := fun _ _ => None;
     wNow := fun n => Z.of_nat n * 1000000000;
     wParseDuration := fun _ => (hour, None) |}.

(** A watcher that updated [abc-123] at time 0 and has no entry for it. *)
Definition justUpdated (apps : list AppConfig) : State :=
  {| config := cfg apps; dryRun := false;
     appStatuses := ∅; lastUpdates := {[ "abc-123" := 0 ]}; lastCheck := 0;
     steps := 0; trace := [] |}.

(** The environment of a process started with a URL, a token and an
    unknown default policy. *)
Definition envUnknownPolicy (name : string) : string :=
  if String.eqb name "COOLIFY_URL" then "http://localhost:8000"
  else if String.eqb name "COOLIFY_TOKEN" then "test-token"
  else if String.eqb name "PATROL_POLICY" then "yolo"
  else "".

(** A duration parser that accepts the two defaults of [Load]. *)
Definition parseDefaults (d : string) : option string :=
  if String.eqb d "15m" || String.eqb d "1h" then None
  else Some "time: invalid duration".

(** A decoded YAML file whose first application names an unknown policy. *)
Definition yamlUnknownPolicy : Config :=
  cfg [ {| Name := "n8n"; UUID := "abc-123"; Image := "n8nio/n8n";
           Policy := "auto-everything"; Pin := "" |} ].

(** An environment without any PATROL_ variable. *)
Definition envPlain (name : string) : string :=
  if String.eqb name "COOLIFY_URL" then "http://localhost:8000"
  else if String.eqb name "COOLIFY_TOKEN" then "test-token"
  else "".

End example.

(** ** What a check cycle may do to a deployment *)

Module cycle.

Import Go types semver watcher spec.

Definition isRestart (e : Event) : bool :=
  match e with EvRestartApplication _ => true | _ => false end.

(** A call that changes a deployment. *)
Definition deploys (e : Event) : bool := isUpdate e || isRestart e.

(** Every restart of [evs] comes right after an update of the same
    application; [prev] is the event before [evs]. *)
Fixpoint restartsFollowUpdates (prev : option Event) (evs : list Event) : bool :=
  match evs with
  | [] => true
  | e :: rest =>
      match e with
      | EvRestartApplication uuid =>
          match prev with
          | Some (EvUpdateApplication updated _) => String.eqb uuid updated
          | _ => false
          end
      | _ => true
      end && restartsFollowUpdates (Some e) rest
  end.

(** The test of the cooldown block of [checkAndUpdateApp], for the
    iteration that starts in state [s]: the clock is read right after the
    fetch of the current application. *)
Definition cooling (world : World) (app : AppConfig) (s : State) : bool :=
  match lastUpdates s !! UUID app with
  | Some lastUpdate =>
      wNow world (S (steps s)) - lastUpdate
      <? fst (wParseDuration world (Cooldown (Defaults (config s))))
  | None => false
  end.

(** The states one check of [app] passes through when it starts in state
    [s]: the state in which it asks the registry, after the fetch and the
    cooldown block; and the state in which it decides, after the lookup
    and the reading of the clock, where [performUpdate] starts. *)
Definition lookupState (world : World) (app : AppConfig) (s : State) : State :=
  snd (inCooldown world app (snd (GetApplication world (UUID app) s))).

Definition decisionState (world : World) (app : AppConfig) (s : State) : State :=
  snd (timeNow world
         (snd (GetLatestTag world (Image app) (ExcludePatterns (Defaults (config s)))
                 (lookupState world app s)))).

(** The states after the two calls of [performUpdate] in that check. *)
Definition updatedState (world : World) (app : AppConfig) (newImage : string)
    (s : State) : State :=
  snd (UpdateApplication world (UUID app) newImage (decisionState world app s)).

Definition restartedState (world : World) (app : AppConfig) (newImage : string)
    (s : State) : State :=
  snd (RestartApplication world (UUID app) (updatedState world app newImage s)).

(** [newImage] is a deployment the policy engine lets through in the check
    of [app] that starts in state [s]: the image of [app] at the tag the
    registry answers to the lookup of that check, allowed under the
    effective policy and the pin of [app] against the tag of the
    application the deployment controller answers to the fetch of that
    check. *)
Definition allowedUpdate (world : World) (app : AppConfig) (s : State)
    (newImage : string) : Prop :=
  exists currentApp latestTag,
    fst (GetApplication world (UUID app) s) = OK currentApp
    /\ fst (GetLatestTag world (Image app) (ExcludePatterns (Defaults (config s)))
              (lookupState world app s)) = OK latestTag
    /\ newImage = coolify.BuildImageReference (Image app) latestTag
    /\ fst (IsUpdateAllowed (snd (coolify.ExtractImageAndTag (DockerImage currentApp)))
              latestTag (config.GetUpdatePolicy app (Defaults (config s))) (Pin app)) = true.

(** What the check cycle lets an event be, for the applications [apps] of
    the cycle: an update is for one of them, outside dry-run mode; a
    restart happens outside dry-run mode only. *)
Definition safeEvent (dry : bool) (apps : list AppConfig) (e : Event) : Prop :=
  match e with
  | EvUpdateApplication uuid _ =>
      dry = false /\ exists app, In app apps /\ UUID app = uuid
  | EvRestartApplication _ => dry = false
  | _ => True
  end.

(** What a run of the watcher keeps true from state [s0] on, over the
    applications [apps]: the configuration and the mode, the cooldown map
    in dry-run mode, and the events emitted since [s0] are safe, every
    restart right after its update. *)
Definition keeps (s0 : State) (apps : list AppConfig) (s : State) : Prop :=
  config s = config s0 /\ dryRun s = dryRun s0 /\ (steps s0 <= steps s)%nat
  /\ (dryRun s0 = true -> lastUpdates s = lastUpdates s0)
  /\ exists evs,
       trace s = (trace s0 ++ evs)%list
       /\ Forall (safeEvent (dryRun s0) apps) evs
       /\ restartsFollowUpdates None evs = true.

(** The events one call of [checkApplications] from state [s] emits. *)
Definition cycleEvents (world : World) (s : State) : list Event :=
  drop (List.length (trace s)) (trace (snd (checkApplications world s))).

(** The applications of the cycle that starts in state [s]: the configured
    ones, or the discovered ones; none when discovery fails. *)
Definition cycleApps (world : World) (s : State) : list AppConfig :=
  match fst (getApplicationsToCheck world (cycleStart world s)) with
  | OK apps => apps
  | Err _ => []
  end.

(** The state in which, in the cycle that starts in state [s], the check
    of the application that follows the applications [pre] starts. *)
Definition checkStart (world : World) (s : State) (pre : list AppConfig) : State :=
  snd (checkLoop world (Z.of_nat (List.length (cycleApps world s))) 0 pre
         (snd (getApplicationsToCheck world (cycleStart world s)))).

End cycle.

(** ** internal/watcher: the sample configuration *)

Module sample.

Import Go types semver watcher.

(** The defaults [GenerateSampleConfig] writes. *)
Definition sampleDefaults : DefaultsConfig :=
  {| DefPolicy := AutoPatch; Interval := "15m"; Schedule := ""; Cooldown := "1h";
     ExcludePatterns := ["-alpha"; "-beta"; "-rc"; "-dev"; "-nightly"] |}.

(** The pin suggested for a well-known image: the major of its tag. *)
Definition suggestedPin (image tag : string) : string :=
  if Contains image "postgres" then
    match ParseVersion tag with
    | Some ver => formatInt (Major ver)
    | None => ""
    end
  else "".

(** The loop of [GenerateSampleConfig]. *)
Fixpoint sampleApps (apps : list CoolifyApplication) : list AppConfig :=
  match apps with
  | [] => []
  | app :: rest =>
      let tag := snd (coolify.ExtractImageAndTag (DockerImage app)) in
      if String.eqb tag "latest" then sampleApps rest
      else
        let image := fst (coolify.ExtractImageAndTag (DockerImage app)) in
        {| Name := aName app; UUID := aUUID app; Image := image;
           Policy := ""; Pin := suggestedPin image tag |}
        :: sampleApps rest
  end.

Section Sample.

Variable world : World.

(** [DiscoverApps] *)
Definition DiscoverApps : M (result (list CoolifyApplication)) :=
  ListApplications world.

(** [GenerateSampleConfig] *)
Definition GenerateSampleConfig : M (result Config) :=
  r ← DiscoverApps;
  match r with
  | Err err => mret (Err err)
  | OK apps =>
      s ← get;
      mret (OK {| Coolify := Coolify (config s); Defaults := sampleDefaults;
                  Apps := sampleApps apps |})
  end.

End Sample.

End sample.

(** ** cmd/patrol: the schedule flags, and how the watcher is scheduled *)

Module cmd.

Import Go types.

Section Main.

(** The 5-field parser of robfig/cron (its error, if any), as in
    [config.Load], and [time.ParseDuration]: the duration in nanoseconds,
    or its error. *)
Variable cronParse : string -> option string.
Variable ParseDuration : string -> result Z.

(** The error of [time.ParseDuration], which is all [config.Load] and
    [main] look at. *)
Definition durationError (d : string) : option string :=
  match ParseDuration d with
  | OK _ => None
  | Err e => Some e
  end.

Definition setSchedule (schedule interval : string) (cfg : Config) : Config :=
  {| Coolify := Coolify cfg;
     Defaults := {| DefPolicy := DefPolicy (Defaults cfg);
                    Interval := interval; Schedule := schedule;
                    Cooldown := Cooldown (Defaults cfg);
                    ExcludePatterns := ExcludePatterns (Defaults cfg) |};
     Apps := Apps cfg |}.

(** The block of [main] that applies the flags [--schedule] and
    [--interval] to the loaded configuration; [Err] is the message logged
    before [os.Exit(1)]. *)
Definition overrideSchedule (cfg : Config) (schedule interval : string)
  : result Config :=
  if semver.nonEmpty schedule then
    match cronParse schedule with
    | Some _ => Err "Invalid cron schedule format"
    | None => OK (setSchedule schedule "" cfg)
    end
  else if semver.nonEmpty interval then
    match durationError interval with
    | Some _ => Err "Invalid interval format"
    | None => OK (setSchedule "" interval cfg)
    end
  else OK cfg.

(** What [Watcher.Start] runs after the initial check when it is not asked
    to run once: the cron scheduler on a schedule, or a ticker of a
    period. *)
Inductive Scheduler : Type :=
| Cron (schedule : string)
| Ticker (period : Z).

(** How the set-up of the scheduler ends: the scheduler runs, or [Start]
    returns an error, or the process panics. *)
Inductive Started : Type :=
| Running (scheduler : Scheduler)
| Failed (err : string)
| Panicked (msg : string).

(** [time.NewTicker(d)]: it panics unless [d] is positive. *)
Definition NewTicker (d : Z) : Started :=
  if d <=? 0 then Panicked "non-positive interval for NewTicker"
  else Running (Ticker d).

(** [startWithCron] up to [c.Start()]: [c.AddFunc] parses the schedule
    with the same 5-field parser. *)
Definition startWithCron (cfg : Config) : Started :=
  match cronParse (Schedule (Defaults cfg)) with
  | Some e => Failed ("failed to add cron job: " ++ e)
  | None => Running (Cron (Schedule (Defaults cfg)))
  end.

(** [startWithInterval] up to its loop. *)
Definition startWithInterval (cfg : Config) : Started :=
  match ParseDuration (Interval (Defaults cfg)) with
  | Err e => Failed ("invalid interval: " ++ e)
  | OK interval => NewTicker interval
  end.

(** The choice at the end of [Watcher.Start]. *)
Definition startScheduler (cfg : Config) : Started :=
  if semver.nonEmpty (Schedule (Defaults cfg)) then startWithCron cfg
  else startWithInterval cfg.

End Main.

(** What decides the scheduler of a process started with the flags
    [schedule] and [interval] on the loaded configuration [cfg]: a
    schedule (left) or the text of an interval (right). *)
Definition effectiveSchedule (cfg : Config) (schedule interval : string)
  : string + string :=
  if semver.nonEmpty schedule then inl schedule
  else if semver.nonEmpty interval then inr interval
  else if semver.nonEmpty (Schedule (Defaults cfg)) then inl (Schedule (Defaults cfg))
  else inr (Interval (Defaults cfg)).

End cmd.

(** ** internal/registry: where the tags of an image are asked *)

Module endpoints.

Import Go.

(** [strings.TrimPrefix(image, "ghcr.io/")] *)
Definition TrimPrefix_ghcr (image : string) : string :=
  if HasPrefix image "ghcr.io/" then String.substring 8 (String.length image - 8) image
  else image.

(** The head of [getDockerHubTags]: the namespace and the repository of
    the image, or the error returned before any request is made. *)
Definition dockerHubRepository (image : string) : result (string * string) :=
  match Split image "/" with
  | [repo] => OK ("library", repo)
  | [namespace; repo] => OK (namespace, repo)
  | _ => Err ("invalid Docker Hub image format: " ++ image)
  end.

(** The URLs the two clients build. *)
Definition ghcrURL (image : string) : string :=
  "https://ghcr.io/v2/" ++ TrimPrefix_ghcr image ++ "/tags/list".

Definition dockerHubURL (namespace repo : string) : string :=
  "https://registry.hub.docker.com/v2/repositories/"
  ++ namespace ++ "/" ++ repo ++ "/tags/".

Section Requests.

(** [http.NewRequestWithContext(ctx, "GET", url, nil)]: its error, if any
    (the URL does not parse). *)
Variable NewRequest : string -> option string.

Definition createRequest (url : string) : result string :=
  match NewRequest url with
  | Some e => Err ("creating request: " ++ e)
  | None => OK url
  end.

(** [GetTags], through [getGHCRTags] or [getDockerHubTags], up to the
    first request it sends: the URL of that request, or the error returned
    before anything is sent. *)
Definition tagsURL (image : string) : result string :=
  if HasPrefix image "ghcr.io/" then createRequest (ghcrURL image)
  else
    match dockerHubRepository image with
    | OK (namespace, repo) => createRequest (dockerHubURL namespace repo)
    | Err e => Err e
    end.

End Requests.

End endpoints.

(** ** The order of the registry's selection *)

Module sorting.

Import Go registry.

(** The [less] that [GetLatestTag] hands to [sort.Slice]. *)
Definition newerFirst (x y : string) : bool := 0 <? compareVersions x y.

(** The elements an insertion sort has placed so far, nearest first: no
    element should come before one that lies farther. *)
Fixpoint settled {A : Type} (less : A -> A -> bool) (before : list A) : Prop :=
  match before with
  | [] => True
  | y :: r => (forall z, In z r -> less y z = false) /\ settled less r
  end.

(** The order of [compareVersions] on parsed triples. *)
Definition compareTriples (a b : Z * Z * Z) : Z :=
  let '(a0, a1, a2) := a in
  let '(b0, b1, b2) := b in
  if negb (a0 =? b0) then a0 - b0
  else if negb (a1 =? b1) then a1 - b1
  else if negb (a2 =? b2) then a2 - b2
  else 0.

(** The numbers of a version the registry's parser reads without a range
    error. *)
Definition belowMaxInt (v : semver.Version) : Prop :=
  semver.Major v < maxInt /\ semver.Minor v < maxInt /\ semver.Patch v < maxInt.

End sorting.

(** ** Layers of configuration *)

Module layers.

Import Go types.

(** The first text of [candidates] that is not empty, if any. *)
Fixpoint firstNonEmpty (candidates : list string) : string :=
  match candidates with
  | [] => ""
  | c :: rest => if semver.nonEmpty c then c else firstNonEmpty rest
  end.

(** What [Load] starts from: the decoded file, or the zero value. *)
Definition fromFile (decoded : option (result Config)) : Config :=
  match decoded with
  | Some (OK c) => c
  | _ => config.zeroConfig
  end.

(** What [parseCompactApps] checks on an application before it accepts
    it. *)
Definition checked (app : AppConfig) : Prop :=
  Name app <> "" /\ UUID app <> "" /\ Image app <> ""
  /\ (Policy app = "" \/ spec.knownPolicy (Policy app))
  /\ (Pin app = "" \/ snd (Atoi (Pin app)) = true).

End layers.

(** ** More runs to evaluate *)

Module scenario.

Import Go types watcher example.

(** A watcher in dry-run mode that has run no cycle yet. *)
Definition rehearsal (apps : list AppConfig) : State :=
  {| config := cfg apps; dryRun := true;
     appStatuses := ∅; lastUpdates := ∅; lastCheck := 0;
     steps := 0; trace := [] |}.

(** What the deployment controller lists: a database with a version tag, an
    application behind a registry with a port, one deployed at [latest] and
    one without a tag. *)
Definition listed : list CoolifyApplication :=
  [ {| aUUID := "def-456"; aName := "postgres"; DockerImage := "postgres:17.2.0";
       Status := "running" |};
    {| aUUID := "abc-123"; aName := "n8n";
       DockerImage := "registry.example.com:5000/n8nio/n8n:1.2.3";
       Status := "running" |};
    {| aUUID := "ghi-789"; aName := "redis"; DockerImage := "redis:latest";
       Status := "running" |};
    {| aUUID := "jkl-012"; aName := "nginx"; DockerImage := "nginx";
       Status := "running" |} ].

(** As [calm], with the deployment controller listing [listed]. *)
Definition listing (latest : string) : World :=
  {| wListApplications := fun _ => OK listed;
     wGetApplication := wGetApplication (calm latest);
     wGetLatestTag := wGetLatestTag (calm latest);
     wUpdateApplication := wUpdateApplication (calm latest);
     wRestartApplication := wRestartApplication (calm latest);
     wNow := wNow (calm latest);
     wParseDuration := wParseDuration (calm latest) |}.

(** What [Load] gives a process configured by URL and token alone. *)
Definition loadedPlain : Config :=
  {| Coolify := {| URL := "http://localhost:8000"; Token := "test-token" |};
     Defaults := {| DefPolicy := AutoPatch; Interval := "15m"; Schedule := "";
                    Cooldown := "1h";
                    ExcludePatterns := ["-alpha"; "-beta"; "-rc"; "-dev"; "-nightly"] |};
     Apps := [] |}.

(** What [Load] gives a process whose file is [cfg []] and whose
    environment names the policy [yolo]. *)
Definition loadedYolo : Config :=
  {| Coolify := {| URL := "http://localhost:8000"; Token := "test-token" |};
     Defaults := {| DefPolicy := "yolo"; Interval := "15m"; Schedule := "";
                    Cooldown := "1h"; ExcludePatterns := ["-alpha"; "-beta"] |};
     Apps := [] |}.

(** A duration parser that knows the two defaults of [Load] and two
    durations that are not positive. *)
Definition parseDurations (d : string) : result Z :=
  if String.eqb d "15m" then OK (900 * 1000000000)
  else if String.eqb d "1h" then OK hour
  else if String.eqb d "0" then OK 0
  else if String.eqb d "-5m" then OK (- 300 * 1000000000)
  else Err "time: invalid duration".

End scenario.

(** ** Proof steps used more than once *)

Module tactics.

Import Go types semver watcher.

(** The cases of the three numeric comparisons of [Compare]. *)
Ltac numeric_cases a b :=
  destruct (Z.ltb_spec (Major a) (Major b)), (Z.ltb_spec (Major b) (Major a));
  try lia;
  destruct (Z.ltb_spec (Minor a) (Minor b)), (Z.ltb_spec (Minor b) (Minor a));
  try lia;
  destruct (Z.ltb_spec (Patch a) (Patch b)), (Z.ltb_spec (Patch b) (Patch a));
  try lia.

(** Unfold one iteration of the check loop down to the state passing. *)
Ltac run_iteration :=
  unfold checkAndUpdateApp, GetApplication, GetLatestTag,
    timeNow, interact, get, modify, mbind, M_bind, mret, M_ret.

(** Close the case of an iteration that leaves both maps as they were. *)
Ltac quiet_leaf :=
  repeat (split; [first [reflexivity | cbn; assumption | cbn; lia]|]);
  eexists; split; [cbn; rewrite <- ?app_assoc; reflexivity|];
  split; [reflexivity|];
  left; repeat split; first [left; discriminate | right; reflexivity].

(** Close the case of an iteration that stores a refreshed entry. *)
Ltac decided_leaf Hc Hreflect :=
  destruct Hc as [-> | ->];
  (repeat (split; [first [reflexivity | cbn; assumption | cbn; lia]|]);
   eexists; split; [cbn; rewrite <- ?app_assoc; reflexivity|];
   split; [reflexivity|];
   right; split; [reflexivity|]; split; [discriminate|];
   eexists; split; [reflexivity|];
   split; [apply Hreflect; cbn; lia | cbn; eauto]).

End tactics.

(** * Properties *)

Module CompareFacts.
Import Go semver spec tactics.

Lemma string_compare_refl (s : string) : String.compare s s = Eq.
Proof.
  induction s as [|c s IH]; simpl; [reflexivity|].
  unfold Ascii.compare. rewrite N.compare_refl. exact IH.
Qed.

Lemma string_compare_trans_lt (a b c : string) :
  String.compare a b = Lt -> String.compare b c = Lt -> String.compare a c = Lt.
Proof.
  intros Hab Hbc.
  assert (Hle : String.le a c).
  { transitivity b; unfold String.le, String.leb.
    - rewrite Hab. exact I.
    - rewrite Hbc. exact I. }
  unfold String.le, String.leb in Hle.
  destruct (String.compare a c) eqn:Hac; [| reflexivity | destruct Hle].
  apply String.compare_eq_iff in Hac. subst c.
  rewrite String.compare_antisym, Hab in Hbc. discriminate.
Qed.

Lemma GoCompare_refl (s : string) : Go.Compare s s = 0.
Proof. unfold Go.Compare. rewrite string_compare_refl. reflexivity. Qed.

Lemma GoCompare_antisym (a b : string) : Go.Compare a b = - Go.Compare b a.
Proof.
  unfold Go.Compare. rewrite String.compare_antisym.
  destruct (String.compare b a); reflexivity.
Qed.

Lemma GoCompare_range (a b : string) :
  Go.Compare a b = -1 \/ Go.Compare a b = 0 \/ Go.Compare a b = 1.
Proof. unfold Go.Compare. destruct (String.compare a b); auto. Qed.

Lemma GoCompare_eq (a b : string) : Go.Compare a b = 0 <-> a = b.
Proof.
  unfold Go.Compare. split.
  - destruct (String.compare a b) eqn:H; try discriminate.
    intros _. apply String.compare_eq_iff. exact H.
  - intros ->. rewrite string_compare_refl. reflexivity.
Qed.

Lemma GoCompare_trans (a b c : string) :
  Go.Compare a b <= 0 -> Go.Compare b c <= 0 -> Go.Compare a c <= 0.
Proof.
  unfold Go.Compare.
  destruct (String.compare a b) eqn:Hab; try lia;
  destruct (String.compare b c) eqn:Hbc; try lia; intros _ _.
  - apply String.compare_eq_iff in Hab. subst b. rewrite Hbc. lia.
  - apply String.compare_eq_iff in Hab. subst b. rewrite Hbc. lia.
  - apply String.compare_eq_iff in Hbc. subst c. rewrite Hab. lia.
  - rewrite (string_compare_trans_lt a b c Hab Hbc). lia.
Qed.

(** Byte-wise: the first differing byte decides, a proper prefix is
    smaller. *)
Lemma GoCompare_bytewise (c d : ascii) (s t : string) :
  Go.Compare "" "" = 0
  /\ Go.Compare "" (String d t) = -1
  /\ Go.Compare (String c s) "" = 1
  /\ Go.Compare (String c s) (String d t)
     = if byte_of c <? byte_of d then -1
       else if byte_of d <? byte_of c then 1
       else Go.Compare s t.
Proof.
  repeat split. unfold Go.Compare, byte_of. simpl. unfold Ascii.compare.
  rewrite <- N2Z.inj_compare.
  destruct (Z.compare (Z.of_N (N_of_ascii c)) (Z.of_N (N_of_ascii d))) eqn:H.
  - apply Z.compare_eq_iff in H. rewrite H, Z.ltb_irrefl. reflexivity.
  - rewrite Z.compare_lt_iff in H. apply Z.ltb_lt in H. rewrite H. reflexivity.
  - rewrite Z.compare_gt_iff in H.
    assert (E : (Z.of_N (N_of_ascii c) <? Z.of_N (N_of_ascii d)) = false) by lia.
    rewrite E.
    apply Z.ltb_lt in H. rewrite H. reflexivity.
Qed.

Lemma nonEmpty_false (s : string) : nonEmpty s = false <-> s = "".
Proof. destruct s; simpl; split; congruence. Qed.

Lemma nonEmpty_true (s : string) : nonEmpty s = true <-> s <> "".
Proof. destruct s; simpl; split; congruence. Qed.

Lemma comparePrerelease_refl p : comparePrerelease p p = 0.
Proof.
  unfold comparePrerelease. destruct (nonEmpty p); simpl; [apply GoCompare_refl | reflexivity].
Qed.

Lemma comparePrerelease_antisym p q : comparePrerelease p q = - comparePrerelease q p.
Proof.
  unfold comparePrerelease.
  destruct (nonEmpty p), (nonEmpty q); simpl; try reflexivity.
  apply GoCompare_antisym.
Qed.

Lemma comparePrerelease_range p q :
  comparePrerelease p q = -1 \/ comparePrerelease p q = 0 \/ comparePrerelease p q = 1.
Proof.
  unfold comparePrerelease.
  destruct (nonEmpty p), (nonEmpty q); simpl; auto. apply GoCompare_range.
Qed.

Lemma comparePrerelease_eq p q : comparePrerelease p q = 0 <-> p = q.
Proof.
  unfold comparePrerelease.
  destruct (nonEmpty p) eqn:Hp, (nonEmpty q) eqn:Hq; simpl.
  - apply GoCompare_eq.
  - apply nonEmpty_false in Hq. apply nonEmpty_true in Hp. subst q.
    split; [lia | congruence].
  - apply nonEmpty_false in Hp. apply nonEmpty_true in Hq. subst p.
    split; [lia | congruence].
  - apply nonEmpty_false in Hp, Hq. subst. tauto.
Qed.

Lemma comparePrerelease_trans p q r :
  comparePrerelease p q <= 0 -> comparePrerelease q r <= 0 -> comparePrerelease p r <= 0.
Proof.
  unfold comparePrerelease.
  destruct (nonEmpty p), (nonEmpty q), (nonEmpty r); simpl; try lia.
  apply GoCompare_trans.
Qed.

(** [Compare] is the lexicographic combination of the three numbers and of
    the prerelease comparison. *)
Lemma Compare_unfold (a b : Version) :
  Compare a b =
    if Major a <? Major b then -1 else if Major b <? Major a then 1
    else if Minor a <? Minor b then -1 else if Minor b <? Minor a then 1
    else if Patch a <? Patch b then -1 else if Patch b <? Patch a then 1
    else comparePrerelease (Prerelease a) (Prerelease b).
Proof.
  unfold Compare, comparePrerelease.
  destruct (Z.ltb_spec (Major a) (Major b)), (Z.ltb_spec (Major b) (Major a)),
           (Z.eqb_spec (Major a) (Major b)); simpl; try lia; try reflexivity.
  destruct (Z.ltb_spec (Minor a) (Minor b)), (Z.ltb_spec (Minor b) (Minor a)),
           (Z.eqb_spec (Minor a) (Minor b)); simpl; try lia; try reflexivity.
  destruct (Z.ltb_spec (Patch a) (Patch b)), (Z.ltb_spec (Patch b) (Patch a)),
           (Z.eqb_spec (Patch a) (Patch b)); simpl; try lia; try reflexivity.
Qed.

Lemma Compare_refl a : Compare a a = 0.
Proof.
  rewrite Compare_unfold. rewrite !Z.ltb_irrefl. apply comparePrerelease_refl.
Qed.

Lemma Compare_antisym a b : Compare a b = - Compare b a.
Proof.
  rewrite !Compare_unfold. numeric_cases a b. apply comparePrerelease_antisym.
Qed.

Lemma Compare_range a b : Compare a b = -1 \/ Compare a b = 0 \/ Compare a b = 1.
Proof.
  rewrite Compare_unfold. numeric_cases a b; auto. apply comparePrerelease_range.
Qed.

Lemma Compare_eq a b : Compare a b = 0 <-> sameKey a b.
Proof.
  rewrite Compare_unfold. unfold sameKey.
  numeric_cases a b; try (split; [lia | intros (? & ? & ? & ?); lia]).
  rewrite comparePrerelease_eq. split; [intros; repeat split; (lia || assumption) | tauto].
Qed.

Lemma Compare_trans a b c : Compare a b <= 0 -> Compare b c <= 0 -> Compare a c <= 0.
Proof.
  rewrite !Compare_unfold.
  numeric_cases a b; numeric_cases b c; numeric_cases a c.
  apply comparePrerelease_trans.
Qed.

Lemma Compare_sameKey a a' b b' :
  sameKey a a' -> sameKey b b' -> Compare a b = Compare a' b'.
Proof.
  intros (Ha1 & Ha2 & Ha3 & Ha4) (Hb1 & Hb2 & Hb3 & Hb4).
  rewrite !Compare_unfold, Ha1, Ha2, Ha3, Ha4, Hb1, Hb2, Hb3, Hb4. reflexivity.
Qed.

(** Claim C5.  [Compare] is a total order on versions, parsed ones among
    them: it is reflexive, antisymmetric (the sign flips when the arguments
    are swapped, and two versions each below the other compare equal and
    agree on major, minor, patch and prerelease), transitive and total.
    The comparison is decided by major, then minor, then patch; when the
    three numbers agree a version without prerelease is greater than one
    with a prerelease, two prereleases compare as [strings.Compare] does
    (byte-wise, see [GoCompare_bytewise]), and neither the build metadata
    nor the original text takes part: versions with the same key compare
    alike. *)
Theorem Compare_total_order :
  (forall a, Compare a a = 0)
  /\ (forall a b, Compare a b = - Compare b a)
  /\ (forall a b, Compare a b <= 0 -> Compare b a <= 0 ->
        Compare a b = 0 /\ sameKey a b)
  /\ (forall a b c, Compare a b <= 0 -> Compare b c <= 0 -> Compare a c <= 0)
  /\ (forall a b, Compare a b = -1 \/ Compare a b = 0 \/ Compare a b = 1)
  /\ (forall a b,
        Compare a b =
          if Major a <? Major b then -1 else if Major b <? Major a then 1
          else if Minor a <? Minor b then -1 else if Minor b <? Minor a then 1
          else if Patch a <? Patch b then -1 else if Patch b <? Patch a then 1
          else comparePrerelease (Prerelease a) (Prerelease b))
  /\ (forall p q,
        (p = "" -> q <> "" -> comparePrerelease p q = 1)
        /\ (p <> "" -> q = "" -> comparePrerelease p q = -1)
        /\ (p <> "" -> q <> "" -> comparePrerelease p q = Go.Compare p q)
        /\ (p = "" -> q = "" -> comparePrerelease p q = 0))
  /\ (forall a a' b b', sameKey a a' -> sameKey b b' -> Compare a b = Compare a' b').
Proof.
  split; [exact Compare_refl|]. split; [exact Compare_antisym|].
  split.
  { intros a b Hab Hba. rewrite (Compare_antisym b a) in Hba.
    assert (E : Compare a b = 0) by lia. split; [exact E | apply Compare_eq; exact E]. }
  split; [exact Compare_trans|]. split; [exact Compare_range|].
  split; [exact Compare_unfold|]. split; [|exact Compare_sameKey].
  intros p q. unfold comparePrerelease. repeat split.
  - intros -> Hq%nonEmpty_true. rewrite Hq. reflexivity.
  - intros Hp%nonEmpty_true ->. rewrite Hp. reflexivity.
  - intros Hp%nonEmpty_true Hq%nonEmpty_true. rewrite Hp, Hq. reflexivity.
  - intros -> ->. reflexivity.
Qed.

(** Claim C5 at three parsed versions: [1.0.0-alpha], [v1.0.0] and
    [1.0.1+b7]. *)
Lemma Compare_total_order_witness :
  Compare (mkVersion 1 0 0 "alpha" "" "1.0.0-alpha") (mkVersion 1 0 1 "" "b7" "1.0.1+b7") <= 0.
Proof.
  destruct Compare_total_order as (_ & _ & _ & Htrans & _).
  apply (Htrans _ (mkVersion 1 0 0 "" "" "v1.0.0") _); vm_compute; discriminate.
Defined.

End CompareFacts.

Module ParseFacts.
Import Go semver spec CompareFacts.

Lemma span_sound p s a b :
  span p s = (a, b) -> s = a ++ b /\ all_chars p a = true /\ stops p b.
Proof.
  revert a b. induction s as [|c s IH]; simpl; intros a b H.
  - inversion H; subst. simpl. auto.
  - destruct (p c) eqn:Hc.
    + destruct (span p s) as [a' b'] eqn:Hs. inversion H; subst.
      destruct (IH a' b eq_refl) as (-> & Ha & Hb).
      simpl. rewrite Hc, Ha. auto.
    + inversion H; subst. simpl. auto.
Qed.

Lemma span_complete p a b :
  all_chars p a = true -> stops p b -> span p (a ++ b) = (a, b).
Proof.
  intros Ha Hb. induction a as [|c a IH]; simpl in *.
  - destruct b as [|d b]; simpl in *; [reflexivity | rewrite Hb; reflexivity].
  - apply andb_true_iff in Ha as [Hc Ha]. rewrite Hc, (IH Ha). reflexivity.
Qed.

Lemma all_chars_app p a b :
  all_chars p (a ++ b) = all_chars p a && all_chars p b.
Proof.
  induction a as [|c a IH]; simpl; [reflexivity|].
  rewrite IH. apply andb_assoc.
Qed.

Lemma digits1_sound s d r :
  digits1 s = Some (d, r) -> s = d ++ r /\ isDigits d = true /\ stops isDigit r.
Proof.
  unfold digits1, isDigits. destruct (span isDigit s) as [a b] eqn:Hs.
  destruct a as [|c a]; [discriminate|]. intros H; inversion H; subst.
  apply span_sound in Hs as (-> & Ha & Hb). rewrite Ha. auto.
Qed.

Lemma digits1_complete d r :
  isDigits d = true -> stops isDigit r -> digits1 (d ++ r) = Some (d, r).
Proof.
  unfold digits1, isDigits. intros [Hn Hd]%andb_true_iff Hr.
  rewrite (span_complete _ _ _ Hd Hr). destruct d; [discriminate | reflexivity].
Qed.

Lemma lit_sound c s r : lit c s = Some r -> s = String c r.
Proof.
  destruct s as [|c' s]; simpl; [discriminate|].
  destruct (Ascii.eqb_spec c' c); [|discriminate]. intros H; inversion H; subst; reflexivity.
Qed.

Lemma lit_complete c r : lit c (String c r) = Some r.
Proof. simpl. rewrite Ascii.eqb_refl. reflexivity. Qed.

Lemma TrimPrefix_v_sound s :
  exists v : bool, s = (if v then "v" else "") ++ TrimPrefix_v s
                   /\ (v = false -> TrimPrefix_v s = s).
Proof.
  destruct s as [|c s]; [exists false; auto|].
  destruct (Ascii.eqb_spec c "v") as [->|Hne].
  - exists true. simpl. split; [reflexivity | discriminate].
  - exists false.
    assert (E : TrimPrefix_v (String c s) = String c s).
    { destruct c as [[] [] [] [] [] [] [] []]; try reflexivity. congruence. }
    rewrite E. auto.
Qed.

Lemma buildSuffix_sound s b :
  buildSuffix s = Some b -> s = optionalPart "+" b /\ isIdent b = true.
Proof.
  unfold buildSuffix, optionalPart, isIdent.
  destruct s as [|c s]; [intros H; inversion H; subst; auto|].
  destruct (Ascii.eqb_spec c "+") as [->|Hne].
  - destruct s as [|d s]; [discriminate|].
    destruct (all_chars isIdentChar (String d s)) eqn:Hall; [|discriminate].
    intros H; inversion H; subst. simpl. auto.
  - destruct c as [[] [] [] [] [] [] [] []]; try discriminate. congruence.
Qed.

Lemma buildSuffix_complete b :
  isIdent b = true -> buildSuffix (optionalPart "+" b) = Some b.
Proof.
  unfold buildSuffix, optionalPart, isIdent. destruct b as [|d b]; [reflexivity|].
  intros H. cbn [nonEmpty]. rewrite H. reflexivity.
Qed.

Lemma stops_ident_build b : stops isIdentChar (optionalPart "+" b).
Proof. destruct b; simpl; reflexivity. Qed.

Lemma suffixes_sound s pre b :
  suffixes s = Some (pre, b) ->
  s = optionalPart "-" pre ++ optionalPart "+" b
  /\ isIdent pre = true /\ isIdent b = true.
Proof.
  unfold suffixes.
  assert (Hother : match buildSuffix s with
                   | Some b0 => Some ("", b0) | None => None end = Some (pre, b) ->
                   s = optionalPart "-" pre ++ optionalPart "+" b
                   /\ isIdent pre = true /\ isIdent b = true).
  { destruct (buildSuffix s) as [b0|] eqn:Hb; [|discriminate].
    intros H; inversion H; subst. apply buildSuffix_sound in Hb as [-> Hb].
    simpl. auto. }
  destruct s as [|c s]; [exact Hother|].
  destruct (Ascii.eqb_spec c "-") as [->|Hne].
  - clear Hother. destruct (span isIdentChar s) as [a r] eqn:Hs.
    destruct a as [|a0 a]; [discriminate|].
    destruct (buildSuffix r) as [b0|] eqn:Hb; [|discriminate].
    intros H; inversion H; subst.
    apply span_sound in Hs as (-> & Ha & _).
    apply buildSuffix_sound in Hb as [-> Hb].
    unfold isIdent. simpl. simpl in Ha. rewrite Ha. auto.
  - destruct c as [[] [] [] [] [] [] [] []]; try exact Hother. congruence.
Qed.

Lemma suffixes_complete pre b :
  isIdent pre = true -> isIdent b = true ->
  suffixes (optionalPart "-" pre ++ optionalPart "+" b) = Some (pre, b).
Proof.
  intros Hp Hb. destruct pre as [|c pre].
  - destruct b as [|d b]; [reflexivity|].
    pose proof (buildSuffix_complete (String d b) Hb) as E.
    change (suffixes (String "+" (String d b)) = Some ("", String d b)).
    change (optionalPart "+" (String d b)) with (String "+" (String d b)) in E.
    unfold suffixes. cbv beta iota. rewrite E. reflexivity.
  - change (suffixes (String "-" (String c pre ++ optionalPart "+" b))
            = Some (String c pre, b)).
    unfold suffixes. cbv beta iota.
    rewrite (span_complete isIdentChar (String c pre) (optionalPart "+" b) Hp
               (stops_ident_build b)).
    rewrite (buildSuffix_complete b Hb). reflexivity.
Qed.

Lemma stops_digit_dot r : stops isDigit (String "." r).
Proof. reflexivity. Qed.

Lemma stops_digit_suffix pre b :
  stops isDigit (optionalPart "-" pre ++ optionalPart "+" b).
Proof. destruct pre, b; reflexivity. Qed.

Lemma render_unfold v d1 d2 d3 pre build :
  render v d1 d2 d3 pre build =
  (if v then "v" else "")
  ++ (d1 ++ String "." (d2 ++ String "." (d3 ++ (optionalPart "-" pre
                                               ++ optionalPart "+" build)))).
Proof. reflexivity. Qed.

Lemma FindStringSubmatch_sound s m1 m2 m3 m4 m5 :
  FindStringSubmatch s = Some (m1, m2, m3, m4, m5) ->
  wellFormed m1 m2 m3 m4 m5 /\ exists v, s = render v m1 m2 m3 m4 m5.
Proof.
  unfold FindStringSubmatch.
  change (match s with String "v" r => r | _ => s end) with (TrimPrefix_v s).
  destruct (TrimPrefix_v_sound s) as (v & Hs & _).
  destruct (digits1 (TrimPrefix_v s)) as [[d1 r1]|] eqn:H1; [|discriminate].
  destruct (lit "." r1) as [r1'|] eqn:L1; [|discriminate].
  destruct (digits1 r1') as [[d2 r2]|] eqn:H2; [|discriminate].
  destruct (lit "." r2) as [r2'|] eqn:L2; [|discriminate].
  destruct (digits1 r2') as [[d3 r3]|] eqn:H3; [|discriminate].
  destruct (suffixes r3) as [[p b]|] eqn:H4; [|discriminate].
  intros H; inversion H; subst m1 m2 m3 m4 m5.
  apply digits1_sound in H1 as (E1 & D1 & _).
  apply digits1_sound in H2 as (E2 & D2 & _).
  apply digits1_sound in H3 as (E3 & D3 & _).
  apply lit_sound in L1, L2. apply suffixes_sound in H4 as (E4 & P & B).
  split; [repeat split; assumption|].
  exists v. rewrite render_unfold, <- E4, <- E3, <- L2, <- E2, <- L1, <- E1. exact Hs.
Qed.

Lemma isDigits_head d : isDigits d = true -> exists c r, d = String c r /\ isDigit c = true.
Proof.
  unfold isDigits. destruct d as [|c r]; [discriminate|]. simpl.
  intros [Hc _]%andb_true_iff. eauto.
Qed.

Lemma TrimPrefix_v_render (v : bool) (d1 rest : string) :
  isDigits d1 = true ->
  TrimPrefix_v ((if v then "v" else "") ++ d1 ++ rest) = d1 ++ rest.
Proof.
  intros (c & r & -> & Hc)%isDigits_head. destruct v; [reflexivity|].
  simpl. destruct c as [[] [] [] [] [] [] [] []]; try reflexivity; discriminate.
Qed.

Lemma FindStringSubmatch_complete v d1 d2 d3 pre build :
  wellFormed d1 d2 d3 pre build ->
  FindStringSubmatch (render v d1 d2 d3 pre build) = Some (d1, d2, d3, pre, build).
Proof.
  intros (D1 & D2 & D3 & P & B). rewrite render_unfold. unfold FindStringSubmatch.
  change (match ?s with String "v" r => r | _ => ?s end) with (TrimPrefix_v s).
  rewrite (TrimPrefix_v_render v d1 _ D1).
  rewrite (digits1_complete d1 _ D1 (stops_digit_dot _)).
  rewrite lit_complete.
  rewrite (digits1_complete d2 _ D2 (stops_digit_dot _)).
  rewrite lit_complete.
  rewrite (digits1_complete d3 _ D3 (stops_digit_suffix pre build)).
  rewrite (suffixes_complete pre build P B). reflexivity.
Qed.

Lemma decimalValue_acc acc d :
  0 <= acc -> all_chars isDigit d = true -> acc <= decimalValue acc d.
Proof.
  revert acc. induction d as [|c d IH]; simpl; intros acc Hacc Hd; [lia|].
  apply andb_true_iff in Hd as [Hc Hd]. unfold isDigit in Hc.
  apply andb_true_iff in Hc as [Hlo Hhi].
  specialize (IH (10 * acc + (byte_of c - 48)) ltac:(lia) Hd). lia.
Qed.

Lemma written_nonneg d : all_chars isDigit d = true -> 0 <= written d.
Proof. intros H. apply (decimalValue_acc 0 d); [lia | exact H]. Qed.

(** [Atoi] on a run of digits: the number written, clamped to [maxInt]. *)
Lemma Atoi_digits d :
  isDigits d = true -> Atoi d = (Z.min (written d) maxInt, written d <=? maxInt).
Proof.
  intros Hd. destruct (isDigits_head d Hd) as (c & r & -> & Hc).
  unfold isDigits in Hd. apply andb_true_iff in Hd as [_ Hall].
  assert (Hat : Atoi (String c r) =
    if 2 ^ (intSize - 1) <=? written (String c r)
    then (2 ^ (intSize - 1) - 1, false) else (written (String c r), true)).
  { unfold Atoi.
    assert (Hsign : match String c r with
                    | String "-" r0 => (true, r0)
                    | String "+" r0 => (false, r0)
                    | _ => (false, String c r)
                    end = (false, String c r)).
    { destruct c as [[] [] [] [] [] [] [] []]; try reflexivity; discriminate. }
    rewrite Hsign. rewrite Hall. reflexivity. }
  rewrite Hat. unfold maxInt.
  destruct (Z.leb_spec (2 ^ (intSize - 1)) (written (String c r))).
  - rewrite Z.min_r by lia. f_equal. symmetry. apply Z.leb_gt. lia.
  - rewrite Z.min_l by lia. f_equal. symmetry. apply Z.leb_le. lia.
Qed.

(** Claim C9, amended.  [ParseVersion] succeeds exactly on the texts of the
    dotted-triple form ([render] of well-formed parts) and fails on every
    other text; the original text stored is the input; the prerelease and
    the build are the parts written; and each of major, minor and patch is
    the number written, as long as that number is at most [maxInt]: a
    larger one is stored as [maxInt]. *)
Theorem ParseVersion_dotted_triple :
  (forall s ver, ParseVersion s = Some ver ->
     Original ver = s
     /\ exists (v : bool) (d1 d2 d3 : string),
          wellFormed d1 d2 d3 (Prerelease ver) (Build ver)
          /\ s = render v d1 d2 d3 (Prerelease ver) (Build ver)
          /\ Major ver = Z.min (written d1) maxInt
          /\ Minor ver = Z.min (written d2) maxInt
          /\ Patch ver = Z.min (written d3) maxInt)
  /\ (forall (v : bool) (d1 d2 d3 pre build : string),
        wellFormed d1 d2 d3 pre build ->
        ParseVersion (render v d1 d2 d3 pre build)
        = Some {| Major := Z.min (written d1) maxInt;
                  Minor := Z.min (written d2) maxInt;
                  Patch := Z.min (written d3) maxInt;
                  Prerelease := pre; Build := build;
                  Original := render v d1 d2 d3 pre build |})
  /\ (forall s,
        (forall (v : bool) (d1 d2 d3 pre build : string),
           wellFormed d1 d2 d3 pre build -> s <> render v d1 d2 d3 pre build) ->
        ParseVersion s = None).
Proof.
  assert (Hsound : forall s ver, ParseVersion s = Some ver ->
     Original ver = s
     /\ exists (v : bool) (d1 d2 d3 : string),
          wellFormed d1 d2 d3 (Prerelease ver) (Build ver)
          /\ s = render v d1 d2 d3 (Prerelease ver) (Build ver)
          /\ Major ver = Z.min (written d1) maxInt
          /\ Minor ver = Z.min (written d2) maxInt
          /\ Patch ver = Z.min (written d3) maxInt).
  { intros s ver. unfold ParseVersion.
    destruct (FindStringSubmatch s) as [[[[[m1 m2] m3] m4] m5]|] eqn:Hm; [|discriminate].
    intros H; inversion H; subst ver; clear H. cbn.
    apply FindStringSubmatch_sound in Hm as (Hwf & v & Hs).
    split; [reflexivity|]. exists v, m1, m2, m3.
    destruct Hwf as (D1 & D2 & D3 & P & B).
    rewrite (Atoi_digits m1 D1), (Atoi_digits m2 D2), (Atoi_digits m3 D3).
    repeat split; assumption. }
  split; [exact Hsound|]. split.
  - intros v d1 d2 d3 pre build Hwf. unfold ParseVersion.
    rewrite (FindStringSubmatch_complete v d1 d2 d3 pre build Hwf).
    destruct Hwf as (D1 & D2 & D3 & _).
    rewrite (Atoi_digits d1 D1), (Atoi_digits d2 D2), (Atoi_digits d3 D3).
    reflexivity.
  - intros s Hnot. destruct (ParseVersion s) as [ver|] eqn:Hp; [|reflexivity].
    destruct (Hsound s ver Hp) as (_ & v & d1 & d2 & d3 & Hwf & Hs & _).
    destruct (Hnot v d1 d2 d3 _ _ Hwf Hs).
Qed.

(** Claim C9 at [v1.2.3-rc.1+b5]. *)
Lemma ParseVersion_dotted_triple_witness :
  ParseVersion "v1.2.3-rc.1+b5"
  = Some {| Major := 1; Minor := 2; Patch := 3; Prerelease := "rc.1"; Build := "b5";
            Original := "v1.2.3-rc.1+b5" |}.
Proof.
  refine (eq_trans (proj1 (proj2 ParseVersion_dotted_triple)
                      true "1" "2" "3" "rc.1" "b5" _) _).
  - repeat split; reflexivity.
  - vm_compute. reflexivity.
Defined.

(** Claim C9 as stated fails: a numeric component beyond the range of
    [int] is accepted and stored as [maxInt], not as the number written. *)
Lemma ParseVersion_int_range_counterexample :
  wellFormed "9223372036854775808" "0" "0" "" ""
  /\ exists ver,
       ParseVersion (render false "9223372036854775808" "0" "0" "" "") = Some ver
       /\ Original ver = "9223372036854775808.0.0"
       /\ Major ver <> written "9223372036854775808".
Proof.
  split; [repeat split; reflexivity|].
  eexists. split; [vm_compute; reflexivity|]. split; [reflexivity|].
  vm_compute. discriminate.
Qed.

(** *** The pattern of the source and the matcher *)

Lemma matches_Class_inv (p : ascii -> bool) (s : string) :
  matches (Class p) s -> exists c, s = String c "" /\ p c = true.
Proof. intros H. inversion H; subst. eauto. Qed.

Lemma matches_Chr_inv (c : ascii) (s : string) :
  matches (Chr c) s -> s = String c "".
Proof. intros H. inversion H; subst. reflexivity. Qed.

(** [[class]+] matches the non-empty runs of bytes of the class. *)
Lemma matches_Plus_Class (p : ascii -> bool) (s : string) :
  matches (Plus (Class p)) s <-> nonEmpty s = true /\ all_chars p s = true.
Proof.
  split.
  - intros H. remember (Plus (Class p)) as r eqn:Hr.
    induction H as [| | | | |r0 s0 H0 _|r0 s1 s2 H1 _ H2 IH2]; try discriminate.
    + inversion Hr; subst r0.
      apply matches_Class_inv in H0 as (c & -> & Hc). cbn. rewrite Hc. auto.
    + inversion Hr; subst r0.
      apply matches_Class_inv in H1 as (c & -> & Hc).
      destruct (IH2 eq_refl) as [_ Hall].
      change (String c "" ++ s2) with (String c s2). cbn. rewrite Hc, Hall. auto.
  - intros [Hn Hall]. induction s as [|c s IH]; [discriminate|].
    cbn in Hall. apply andb_true_iff in Hall as [Hc Hall].
    destruct s as [|d s].
    + apply matches_Plus_one, matches_Class, Hc.
    + change (String c (String d s)) with (String c "" ++ String d s).
      apply matches_Plus_more; [apply matches_Class, Hc | apply IH; auto].
Qed.

Lemma matches_optional_part (mark : ascii) (s : string) :
  matches (Opt (Seq (Chr mark) (Plus (Class isIdentChar)))) s
  <-> exists body, isIdent body = true /\ s = optionalPart mark body.
Proof.
  split.
  - intros H. inversion H as [| | |r|r s0 H0| |]; subst.
    + exists "". auto.
    + inversion H0 as [| |r1 r2 s1 s2 H1 H2| | | |]; subst.
      apply matches_Chr_inv in H1 as ->.
      apply matches_Plus_Class in H2 as [Hn Hall].
      exists s2. split; [exact Hall|]. unfold optionalPart. rewrite Hn. reflexivity.
  - intros (body & Hb & ->). unfold optionalPart.
    destruct (nonEmpty body) eqn:Hn; [|apply matches_Opt_none].
    apply matches_Opt_some.
    change (String mark body) with (String mark "" ++ body).
    apply matches_Seq; [apply matches_Chr | apply matches_Plus_Class; auto].
Qed.

Lemma matches_digits (s : string) :
  matches (Plus (Class isDigit)) s <-> isDigits s = true.
Proof. unfold isDigits. rewrite matches_Plus_Class, andb_true_iff. reflexivity. Qed.

(** The texts [semverRegex] matches are the texts of the dotted-triple
    form. *)
Lemma semverRegex_render (s : string) :
  matches semverRegex s <->
  exists (v : bool) (d1 d2 d3 pre build : string),
    wellFormed d1 d2 d3 pre build /\ s = render v d1 d2 d3 pre build.
Proof.
  unfold semverRegex. split.
  - intros H.
    inversion H as [| |? ? sv t1 Hv H1| | | |]; subst; clear H.
    inversion H1 as [| |? ? d1 t2 Hd1 H2| | | |]; subst; clear H1.
    inversion H2 as [| |? ? dot1 t3 Hdot1 H3| | | |]; subst; clear H2.
    inversion H3 as [| |? ? d2 t4 Hd2 H4| | | |]; subst; clear H3.
    inversion H4 as [| |? ? dot2 t5 Hdot2 H5| | | |]; subst; clear H4.
    inversion H5 as [| |? ? d3 t6 Hd3 H6| | | |]; subst; clear H5.
    inversion H6 as [| |? ? sp sb Hp Hb| | | |]; subst; clear H6.
    apply matches_Chr_inv in Hdot1 as ->. apply matches_Chr_inv in Hdot2 as ->.
    apply matches_digits in Hd1, Hd2, Hd3.
    apply matches_optional_part in Hp as (pre & Hpre & ->).
    apply matches_optional_part in Hb as (build & Hbuild & ->).
    assert (Hsv : exists v : bool, sv = if v then "v" else "").
    { inversion Hv as [| | |r|r s0 H0| |]; subst.
      - exists false. reflexivity.
      - apply matches_Chr_inv in H0 as ->. exists true. reflexivity. }
    destruct Hsv as (v & ->).
    exists v, d1, d2, d3, pre, build. split; [repeat split; assumption|].
    rewrite render_unfold. reflexivity.
  - intros (v & d1 & d2 & d3 & pre & build & (D1 & D2 & D3 & P & B) & ->).
    rewrite render_unfold.
    apply matches_Seq.
    { destruct v; [apply matches_Opt_some, matches_Chr | apply matches_Opt_none]. }
    apply matches_Seq; [apply matches_digits, D1|].
    change (String "." ?x) with (String "." "" ++ x).
    apply matches_Seq; [apply matches_Chr|].
    apply matches_Seq; [apply matches_digits, D2|].
    change (String "." ?x) with (String "." "" ++ x).
    apply matches_Seq; [apply matches_Chr|].
    apply matches_Seq; [apply matches_digits, D3|].
    apply matches_Seq; apply matches_optional_part; eauto.
Qed.

(** The matcher accepts exactly the texts the pattern matches. *)
Lemma FindStringSubmatch_matches (s : string) :
  FindStringSubmatch s <> None <-> matches semverRegex s.
Proof.
  rewrite semverRegex_render. split.
  - destruct (FindStringSubmatch s) as [[[[[m1 m2] m3] m4] m5]|] eqn:Hm; [|congruence].
    intros _. apply FindStringSubmatch_sound in Hm as (Hwf & v & ->).
    exists v, m1, m2, m3, m4, m5. auto.
  - intros (v & d1 & d2 & d3 & pre & build & Hwf & ->).
    rewrite (FindStringSubmatch_complete v d1 d2 d3 pre build Hwf). discriminate.
Qed.

(** The submatches are determined by the text: a text has one reading in
    the dotted-triple form. *)
Lemma render_unique (v v' : bool) (d1 d2 d3 pre build d1' d2' d3' pre' build' : string) :
  wellFormed d1 d2 d3 pre build -> wellFormed d1' d2' d3' pre' build' ->
  render v d1 d2 d3 pre build = render v' d1' d2' d3' pre' build' ->
  d1 = d1' /\ d2 = d2' /\ d3 = d3' /\ pre = pre' /\ build = build'.
Proof.
  intros H H' E.
  pose proof (FindStringSubmatch_complete v d1 d2 d3 pre build H) as F.
  pose proof (FindStringSubmatch_complete v' d1' d2' d3' pre' build' H') as F'.
  rewrite E, F' in F. inversion F; subst. auto.
Qed.

End ParseFacts.

Module DecideFacts.
Import Go types semver spec CompareFacts.

(** The pin block lets the candidate through exactly when no pin is set or
    the pin is a number equal to the candidate's major. *)
Lemma checkPin_passes latestVer pin :
  checkPin latestVer pin = None <->
  pin = "" \/ exists pinMajor, Atoi pin = (pinMajor, true) /\ Major latestVer = pinMajor.
Proof.
  unfold checkPin. destruct (nonEmpty pin) eqn:Hp.
  - apply nonEmpty_true in Hp. destruct (Atoi pin) as [n ok] eqn:Ha.
    destruct ok; simpl.
    + destruct (Z.eqb_spec (Major latestVer) n) as [E|E]; simpl.
      * split; [intros _; right; exists n; auto | reflexivity].
      * split; [discriminate|]. intros [?|(m & Hm & Em)]; [contradiction|].
        inversion Hm; subst. contradiction.
    + split; [discriminate|]. intros [?|(m & Hm & _)]; [contradiction|discriminate].
  - apply nonEmpty_false in Hp. split; auto.
Qed.

Lemma checkPin_crossed latestVer pin pinMajor :
  pin <> "" -> Atoi pin = (pinMajor, true) -> Major latestVer <> pinMajor ->
  checkPin latestVer pin = Some (false, reasonPinBoundary pinMajor).
Proof.
  intros Hp Ha Hne. unfold checkPin. apply nonEmpty_true in Hp. rewrite Hp, Ha. simpl.
  destruct (Z.eqb_spec (Major latestVer) pinMajor); [contradiction | reflexivity].
Qed.

Lemma IsUpdateAllowed_parsed current latest currentVer latestVer policy pin :
  ParseVersion current = Some currentVer -> ParseVersion latest = Some latestVer ->
  IsUpdateAllowed current latest policy pin =
    if Compare latestVer currentVer <=? 0 then (false, reasonNotNewer)
    else match checkPin latestVer pin with
         | Some r => r
         | None => applyPolicy currentVer latestVer policy
         end.
Proof. intros Hc Hl. unfold IsUpdateAllowed. rewrite Hc, Hl. reflexivity. Qed.

(** Claim C6.  When both tags parse: if the candidate does not compare
    greater than the current version, the update is denied with the reason
    "not newer", whatever the policy and the pin (so it is for [1.2.3]
    against [1.2.3]); otherwise, if a pin is set, reads as the number
    [pinMajor] and differs from the candidate's major, the update is denied
    with the reason "pin boundary", whatever the policy. *)
Theorem IsUpdateAllowed_not_newer_or_pin
    current latest currentVer latestVer (policy : UpdatePolicy) (pin : string) :
  ParseVersion current = Some currentVer ->
  ParseVersion latest = Some latestVer ->
  (Compare latestVer currentVer <= 0 ->
     IsUpdateAllowed current latest policy pin = (false, reasonNotNewer))
  /\ (0 < Compare latestVer currentVer ->
      forall pinMajor, pin <> "" -> Atoi pin = (pinMajor, true) ->
        Major latestVer <> pinMajor ->
        IsUpdateAllowed current latest policy pin = (false, reasonPinBoundary pinMajor))
  /\ IsUpdateAllowed "1.2.3" "1.2.3" policy pin = (false, reasonNotNewer).
Proof.
  intros Hc Hl. rewrite (IsUpdateAllowed_parsed _ _ _ _ policy pin Hc Hl).
  split; [|split].
  - intros Hle. apply Z.leb_le in Hle. rewrite Hle. reflexivity.
  - intros Hgt n Hp Ha Hne. apply Z.leb_gt in Hgt. rewrite Hgt.
    rewrite (checkPin_crossed _ _ _ Hp Ha Hne). reflexivity.
  - assert (H : ParseVersion "1.2.3" = Some (mkVersion 1 2 3 "" "" "1.2.3"))
      by (vm_compute; reflexivity).
    rewrite (IsUpdateAllowed_parsed _ _ _ _ policy pin H H). reflexivity.
Qed.

(** Claim C6 at [17.1.0] against [17.0.9] and against [18.0.0], pinned
    to 17. *)
Lemma IsUpdateAllowed_not_newer_or_pin_witness :
  IsUpdateAllowed "17.1.0" "17.0.9" AutoAll "17" = (false, reasonNotNewer)
  /\ IsUpdateAllowed "17.1.0" "18.0.0" AutoAll "17" = (false, reasonPinBoundary 17).
Proof.
  split.
  - refine (proj1 (IsUpdateAllowed_not_newer_or_pin "17.1.0" "17.0.9"
                     (mkVersion 17 1 0 "" "" "17.1.0") (mkVersion 17 0 9 "" "" "17.0.9")
                     AutoAll "17" _ _) _); vm_compute; congruence.
  - refine (proj1 (proj2 (IsUpdateAllowed_not_newer_or_pin "17.1.0" "18.0.0"
                     (mkVersion 17 1 0 "" "" "17.1.0") (mkVersion 18 0 0 "" "" "18.0.0")
                     AutoAll "17" _ _)) _ 17 _ _ _); vm_compute; congruence.
Defined.

Lemma applyPolicy_AutoPatch currentVer latestVer :
  applyPolicy currentVer latestVer AutoPatch =
    if negb (Major latestVer =? Major currentVer)
       || negb (Minor latestVer =? Minor currentVer)
    then (false, reasonPatchOnly) else (true, reasonPatchAllowed).
Proof. reflexivity. Qed.

Lemma applyPolicy_AutoMinor currentVer latestVer :
  applyPolicy currentVer latestVer AutoMinor =
    if negb (Major latestVer =? Major currentVer)
    then (false, reasonMinorOnly) else (true, reasonMinorAllowed).
Proof. reflexivity. Qed.

(** Claim C7.  When both tags parse, the candidate is newer and the pin
    block lets it through: notify-only denies; auto-patch allows exactly
    when major and minor are unchanged and otherwise denies with the reason
    "patch only"; auto-minor allows exactly when major is unchanged and
    otherwise denies with the reason "minor only"; auto-all allows. *)
Theorem IsUpdateAllowed_policy
    current latest currentVer latestVer (policy : UpdatePolicy) (pin : string) :
  ParseVersion current = Some currentVer ->
  ParseVersion latest = Some latestVer ->
  0 < Compare latestVer currentVer ->
  (pin = "" \/ exists pinMajor, Atoi pin = (pinMajor, true) /\ Major latestVer = pinMajor) ->
  (policy = NotifyOnly ->
     IsUpdateAllowed current latest policy pin = (false, reasonNotifyOnly))
  /\ (policy = AutoPatch ->
      (Major latestVer = Major currentVer /\ Minor latestVer = Minor currentVer ->
         IsUpdateAllowed current latest policy pin = (true, reasonPatchAllowed))
      /\ (~ (Major latestVer = Major currentVer /\ Minor latestVer = Minor currentVer) ->
         IsUpdateAllowed current latest policy pin = (false, reasonPatchOnly)))
  /\ (policy = AutoMinor ->
      (Major latestVer = Major currentVer ->
         IsUpdateAllowed current latest policy pin = (true, reasonMinorAllowed))
      /\ (Major latestVer <> Major currentVer ->
         IsUpdateAllowed current latest policy pin = (false, reasonMinorOnly)))
  /\ (policy = AutoAll ->
      IsUpdateAllowed current latest policy pin = (true, reasonAutoAll)).
Proof.
  intros Hc Hl Hgt Hpin. rewrite (IsUpdateAllowed_parsed _ _ _ _ policy pin Hc Hl).
  apply Z.leb_gt in Hgt. rewrite Hgt.
  apply checkPin_passes in Hpin. rewrite Hpin.
  split; [|split; [|split]]; intros ->.
  - reflexivity.
  - rewrite applyPolicy_AutoPatch.
    destruct (Z.eqb_spec (Major latestVer) (Major currentVer)),
             (Z.eqb_spec (Minor latestVer) (Minor currentVer)); simpl;
      split; intros; try reflexivity; tauto.
  - rewrite applyPolicy_AutoMinor.
    destruct (Z.eqb_spec (Major latestVer) (Major currentVer)); simpl;
      split; intros; try reflexivity; tauto.
  - reflexivity.
Qed.

(** Claim C7 at [1.2.3] against [1.3.0]. *)
Lemma IsUpdateAllowed_policy_witness :
  IsUpdateAllowed "1.2.3" "1.3.0" AutoPatch "" = (false, reasonPatchOnly)
  /\ IsUpdateAllowed "1.2.3" "1.3.0" AutoMinor "" = (true, reasonMinorAllowed).
Proof.
  split.
  - refine (proj2 (proj1 (proj2 (IsUpdateAllowed_policy "1.2.3" "1.3.0"
              (mkVersion 1 2 3 "" "" "1.2.3") (mkVersion 1 3 0 "" "" "1.3.0")
              AutoPatch "" _ _ _ _)) _) _);
      try (vm_compute; (reflexivity || congruence)).
    + left; reflexivity.
    + vm_compute. intros [_ H]; discriminate.
  - refine (proj1 (proj1 (proj2 (proj2 (IsUpdateAllowed_policy "1.2.3" "1.3.0"
              (mkVersion 1 2 3 "" "" "1.2.3") (mkVersion 1 3 0 "" "" "1.3.0")
              AutoMinor "" _ _ _ _))) _) _);
      try (vm_compute; (reflexivity || congruence)).
    left; reflexivity.
Defined.

(** Claim C8.  When the current tag does not parse, the update is allowed
    exactly under auto-all with a candidate that differs from the current
    text, and every other policy denies with the reason "non-semver tag";
    when the current tag parses and the candidate does not, the update is
    denied with the reason "latest tag is not semver"; [latest] to [stable]
    under auto-all without pin is allowed. *)
Theorem IsUpdateAllowed_non_semver (current latest : string)
    (policy : UpdatePolicy) (pin : string) :
  (ParseVersion current = None ->
     (fst (IsUpdateAllowed current latest policy pin) = true
      <-> policy = AutoAll /\ current <> latest)
     /\ (policy <> AutoAll ->
         IsUpdateAllowed current latest policy pin = (false, reasonNonSemver policy)))
  /\ (forall currentVer, ParseVersion current = Some currentVer ->
        ParseVersion latest = None ->
        IsUpdateAllowed current latest policy pin = (false, reasonLatestNotSemver latest))
  /\ fst (IsUpdateAllowed "latest" "stable" AutoAll "") = true.
Proof.
  split; [|split].
  - intros Hc. unfold IsUpdateAllowed. rewrite Hc.
    destruct (String.eqb_spec policy AutoAll) as [->|Hne]; simpl.
    + split; [|congruence].
      destruct (String.eqb_spec current latest) as [->|Hd]; simpl.
      * split; [discriminate | intros [_ H]; congruence].
      * split; auto.
    + split; [|reflexivity]. split; [discriminate | intros [H _]; contradiction].
  - intros cv Hc Hl. unfold IsUpdateAllowed. rewrite Hc, Hl. reflexivity.
  - vm_compute. reflexivity.
Qed.

(** Claim C8 at [latest] to [stable] under notify-only, and at [1.2.3] to
    [stable]. *)
Lemma IsUpdateAllowed_non_semver_witness :
  IsUpdateAllowed "latest" "stable" NotifyOnly "" = (false, reasonNonSemver NotifyOnly)
  /\ IsUpdateAllowed "1.2.3" "stable" AutoAll "" = (false, reasonLatestNotSemver "stable").
Proof.
  split.
  - refine (proj2 (proj1 (IsUpdateAllowed_non_semver "latest" "stable" NotifyOnly "") _) _);
      vm_compute; congruence.
  - refine (proj1 (proj2 (IsUpdateAllowed_non_semver "1.2.3" "stable" AutoAll ""))
              (mkVersion 1 2 3 "" "" "1.2.3") _ _); vm_compute; reflexivity.
Defined.

End DecideFacts.

Module SelectFacts.
Import Go types semver spec CompareFacts.

Lemma excluded_false excludePatterns tag :
  excluded excludePatterns tag = false <->
  forall pattern, In pattern excludePatterns -> Contains tag pattern = false.
Proof.
  unfold excluded. induction excludePatterns as [|p ps IH]; simpl.
  - split; [intros _ ? [] | reflexivity].
  - rewrite orb_false_iff, IH. split.
    + intros [Hp Hps] q [<-|Hq]; auto.
    + intros H. split; [apply H; auto | intros q Hq; apply H; auto].
Qed.

Lemma FilterPrereleaseTags_In tags excludePatterns t :
  In t (FilterPrereleaseTags tags excludePatterns) <-> survives tags excludePatterns t.
Proof.
  unfold FilterPrereleaseTags, survives.
  rewrite List.filter_In, negb_true_iff, excluded_false. reflexivity.
Qed.

Lemma ParseVersion_Original s ver : ParseVersion s = Some ver -> Original ver = s.
Proof.
  unfold ParseVersion. destruct (FindStringSubmatch s) as [[[[[m1 m2] m3] m4] m5]|];
    [|discriminate]. intros H; inversion H; reflexivity.
Qed.

Lemma stableVersion_Some tag ver :
  stableVersion tag = Some ver <-> ParseVersion tag = Some ver /\ Prerelease ver = "".
Proof.
  unfold stableVersion. destruct (ParseVersion tag) as [v|]; [|split; [discriminate | intros [? _]; discriminate]].
  destruct (nonEmpty (Prerelease v)) eqn:Hp.
  - split; [discriminate|]. intros [H E]. inversion H; subst.
    apply nonEmpty_true in Hp. contradiction.
  - apply nonEmpty_false in Hp. split.
    + intros H; inversion H; subst; auto.
    + intros [H _]; exact H.
Qed.

Lemma stableVersions_In tags ver :
  In ver (stableVersions tags) <-> exists tag, In tag tags /\ stableVersion tag = Some ver.
Proof.
  induction tags as [|t ts IH]; simpl.
  - split; [intros [] | intros (? & [] & _)].
  - destruct (stableVersion t) as [v|] eqn:Ht; simpl; rewrite IH.
    + split.
      * intros [<-|(t' & Hin & Hs)]; [exists t; auto | exists t'; auto].
      * intros (t' & [<-|Hin] & Hs); [left; congruence | right; exists t'; auto].
    + split.
      * intros (t' & Hin & Hs); exists t'; auto.
      * intros (t' & [<-|Hin] & Hs); [congruence | exists t'; auto].
Qed.

(** The maximum loop over versions. *)
Lemma fold_laterVersion rest version0 :
  let latest := fold_left laterVersion rest version0 in
  In latest (version0 :: rest)
  /\ forall u, In u (version0 :: rest) -> Compare u latest <= 0.
Proof.
  revert version0. induction rest as [|x rest IH]; intros v0; simpl.
  - split; [auto|]. intros u [<-|[]]. rewrite Compare_refl. lia.
  - destruct (IH (laterVersion v0 x)) as [Hin Hmax]. simpl in Hin, Hmax.
    assert (Hv0 : Compare v0 (laterVersion v0 x) <= 0).
    { unfold laterVersion. destruct (Z.ltb_spec 0 (Compare x v0)).
      - rewrite Compare_antisym. lia.
      - rewrite Compare_refl. lia. }
    assert (Hx : Compare x (laterVersion v0 x) <= 0).
    { unfold laterVersion. destruct (Z.ltb_spec 0 (Compare x v0)).
      - rewrite Compare_refl. lia.
      - assumption. }
    split.
    + destruct Hin as [Hin|Hin]; [|auto].
      revert Hin. unfold laterVersion. destruct (0 <? Compare x v0); auto.
    + intros u [<-|[<-|Hu]].
      * eapply Compare_trans; [exact Hv0 | apply Hmax; auto].
      * eapply Compare_trans; [exact Hx | apply Hmax; auto].
      * apply Hmax; auto.
Qed.

Lemma leb_refl (s : string) : String.leb s s = true.
Proof. unfold String.leb. rewrite string_compare_refl. reflexivity. Qed.

Lemma leb_trans (a b c : string) :
  String.leb a b = true -> String.leb b c = true -> String.leb a c = true.
Proof.
  intros Hab Hbc. apply Is_true_true. apply Is_true_true in Hab, Hbc.
  change (String.le a c). transitivity b; assumption.
Qed.

(** The maximum loop over raw tags. *)
Lemma fold_laterTag rest tag0 :
  let latest := fold_left laterTag rest tag0 in
  In latest (tag0 :: rest)
  /\ forall t, In t (tag0 :: rest) -> String.leb t latest = true.
Proof.
  revert tag0. induction rest as [|x rest IH]; intros t0; simpl.
  - split; [auto|]. intros u [<-|[]]. apply leb_refl.
  - destruct (IH (laterTag t0 x)) as [Hin Hmax]. simpl in Hin, Hmax.
    assert (Ht0 : String.leb t0 (laterTag t0 x) = true).
    { unfold laterTag, string_gt, String.leb.
      destruct (String.compare x t0) eqn:E; try apply leb_refl.
      rewrite String.compare_antisym, E. reflexivity. }
    assert (Hx : String.leb x (laterTag t0 x) = true).
    { unfold laterTag, string_gt.
      destruct (String.compare x t0) eqn:E; try apply leb_refl;
        unfold String.leb; rewrite E; reflexivity. }
    split.
    + destruct Hin as [Hin|Hin]; [|auto].
      revert Hin. unfold laterTag. destruct (string_gt x t0); auto.
    + intros u [<-|[<-|Hu]].
      * eapply leb_trans; [exact Ht0 | apply Hmax; auto].
      * eapply leb_trans; [exact Hx | apply Hmax; auto].
      * apply Hmax; auto.
Qed.

(** The sibling selector of package semver, [FindLatestVersion] over
    [FilterPrereleaseTags]; the watcher does not call it, its tests do.
    The survivors are the tags that contain no exclusion pattern.  If some
    survivor parses as a version without prerelease, the selected tag is such a survivor and no survivor that
    parses without prerelease exceeds it under [Compare]: neither an
    unversioned tag nor a prerelease is selected.  Only when no survivor
    parses as a version without prerelease is the selected tag the
    lexicographically greatest survivor; without survivors the selection
    fails. *)
Theorem FindLatestVersion_selects_max_stable (tags excludePatterns : list string) :
  let survivors := FilterPrereleaseTags tags excludePatterns in
  (forall t, In t survivors <-> survives tags excludePatterns t)
  /\ ((exists t v, In t survivors /\ ParseVersion t = Some v /\ Prerelease v = "") ->
      exists s v, selectSemver tags excludePatterns = OK s
        /\ In s survivors /\ ParseVersion s = Some v /\ Prerelease v = ""
        /\ forall t u, In t survivors -> ParseVersion t = Some u -> Prerelease u = "" ->
                       Compare u v <= 0)
  /\ ((forall t v, In t survivors -> ParseVersion t = Some v -> Prerelease v <> "") ->
      survivors <> [] ->
      exists s, selectSemver tags excludePatterns = OK s
        /\ In s survivors /\ forall t, In t survivors -> String.leb t s = true)
  /\ (survivors = [] -> selectSemver tags excludePatterns = Err "no tags found").
Proof.
  intros survivors. unfold selectSemver. fold survivors.
  split; [apply FilterPrereleaseTags_In|]. clearbody survivors.
  unfold FindLatestVersion. split; [|split].
  - intros (t & v & Hin & Hp & Hpre).
    assert (Hv : In v (stableVersions survivors)).
    { apply stableVersions_In. exists t. split; [exact Hin|].
      apply stableVersion_Some. auto. }
    destruct (stableVersions survivors) as [|v0 rest] eqn:Hs; [destruct Hv|].
    destruct (fold_laterVersion rest v0) as [Hmem Hmax].
    set (latest := fold_left laterVersion rest v0) in *.
    rewrite <- Hs in Hmem. apply stableVersions_In in Hmem as (s & Hsin & Hst).
    apply stableVersion_Some in Hst as [Hparse Hstable].
    exists (Original latest), latest.
    rewrite (ParseVersion_Original _ _ Hparse).
    repeat split; auto.
    intros t' u Hin' Hp' Hpre'. apply Hmax. rewrite <- Hs.
    apply stableVersions_In. exists t'. split; [exact Hin'|].
    apply stableVersion_Some. auto.
  - intros Hnone Hne.
    assert (Hs : stableVersions survivors = []).
    { destruct (stableVersions survivors) as [|v0 rest] eqn:Hs; [reflexivity|].
      assert (Hv : In v0 (stableVersions survivors)) by (rewrite Hs; left; reflexivity).
      apply stableVersions_In in Hv as (t & Hin & Hst).
      apply stableVersion_Some in Hst as [Hp Hpre].
      destruct (Hnone t v0 Hin Hp Hpre). }
    rewrite Hs. destruct survivors as [|t0 rest]; [contradiction|].
    destruct (fold_laterTag rest t0) as [Hmem Hmax].
    exists (fold_left laterTag rest t0). auto.
  - intros ->. reflexivity.
Qed.

(** The sibling selector at a registry that mixes versions, prereleases
    and an alias: the alias does not shadow the versions. *)
Lemma FindLatestVersion_selects_max_stable_witness :
  exists s v, selectSemver ["1.0.0"; "latest"; "1.1.0"; "1.2.0-rc1"; "1.3.0-beta"] ["-beta"] = OK s
    /\ ParseVersion s = Some v /\ Major v = 1 /\ Minor v = 1.
Proof.
  destruct (proj1 (proj2 (FindLatestVersion_selects_max_stable
              ["1.0.0"; "latest"; "1.1.0"; "1.2.0-rc1"; "1.3.0-beta"] ["-beta"])))
    as (s & v & Hsel & _ & Hparse & _ & _).
  - exists "1.0.0", (mkVersion 1 0 0 "" "" "1.0.0").
    vm_compute. repeat split; auto.
  - exists s, v. vm_compute in Hsel. inversion Hsel; subst s.
    vm_compute in Hparse. inversion Hparse; subst v. repeat split; reflexivity.
Defined.

(** The sibling selector leaves prereleases out: a prerelease tag that
    survives the exclusion list is never selected, however high its
    version. *)
Lemma selectSemver_prerelease_counterexample :
  ~ selectsMaxVersioned selectSemver ["1.0.0"; "1.0.2-beta"] [].
Proof.
  intros H. destruct H as (s & v & Hsel & _ & Hparse & Hmax).
  - exists "1.0.0", (mkVersion 1 0 0 "" "" "1.0.0").
    split; [split; [simpl; auto | intros ? []] | vm_compute; reflexivity].
  - vm_compute in Hsel. inversion Hsel; subst s.
    vm_compute in Hparse. inversion Hparse; subst v.
    specialize (Hmax "1.0.2-beta" (mkVersion 1 0 2 "beta" "" "1.0.2-beta")).
    assert (Hc : Compare (mkVersion 1 0 2 "beta" "" "1.0.2-beta")
                         (mkVersion 1 0 0 "" "" "1.0.0") = 1) by (vm_compute; reflexivity).
    rewrite Hc in Hmax.
    assert (1 <= 0); [|lia]. apply Hmax.
    + split; [simpl; auto | intros ? []].
    + vm_compute. reflexivity.
Qed.

(** The selection the watcher runs, on a version tag and an alias that
    does not parse: when the alias is the greater text it is ranked
    first. *)
Lemma GetLatestTag_alias_first (pdqsort : list string -> list string)
    (image version alias : string) :
  registry.parseSimpleVersion alias = None ->
  string_gt alias version = true ->
  registry.GetLatestTag pdqsort image [version; alias] [] = OK alias.
Proof.
  intros Hparse Hgt. unfold registry.GetLatestTag. cbn [registry.filterTags List.filter
    List.existsb negb]. unfold registry.sortSlice. cbn [List.length Z.of_nat].
  change (Z.of_nat 2 <=? 12) with true. cbv beta iota.
  unfold registry.insertionSort. cbn [fold_left registry.sink].
  assert (E : registry.compareVersions alias version = 1).
  { unfold registry.compareVersions. rewrite Hparse, Hgt. reflexivity. }
  rewrite E. reflexivity.
Qed.

(** Claim C1 fails on the code.  The watcher selects the latest tag with
    [registry.GetLatestTag].  On the tags [1.0.0] and [stable], with
    nothing excluded or with the exclusion list [Load] sets by default, it
    returns the alias [stable], although [1.0.0] parses as a version: the
    unversioned tag shadows the versioned one, and the rule of the claim
    does not hold of this selector.  The sibling [FindLatestVersion] of
    package semver returns [1.0.0] on the same tags. *)
Theorem GetLatestTag_alias_shadows_version (pdqsort : list string -> list string) :
  registry.GetLatestTag pdqsort "image" ["1.0.0"; "stable"] [] = OK "stable"
  /\ registry.GetLatestTag pdqsort "image" ["1.0.0"; "stable"]
       ["-alpha"; "-beta"; "-rc"; "-dev"; "-nightly"] = OK "stable"
  /\ (exists v, ParseVersion "1.0.0" = Some v) /\ ParseVersion "stable" = None
  /\ ~ selectsMaxVersioned (registry.GetLatestTag pdqsort "image") ["1.0.0"; "stable"] []
  /\ selectSemver ["1.0.0"; "stable"] [] = OK "1.0.0".
Proof.
  assert (E : registry.GetLatestTag pdqsort "image" ["1.0.0"; "stable"] [] = OK "stable")
    by (vm_compute; reflexivity).
  split; [exact E|]. split; [vm_compute; reflexivity|].
  split; [eexists; vm_compute; reflexivity|].
  split; [vm_compute; reflexivity|]. split; [|vm_compute; reflexivity].
  intros H. destruct H as (s & v & Hsel & _ & Hparse & _).
  - exists "1.0.0", (mkVersion 1 0 0 "" "" "1.0.0").
    split; [split; [simpl; auto | intros ? []] | vm_compute; reflexivity].
  - rewrite E in Hsel. inversion Hsel; subst s. vm_compute in Hparse. discriminate.
Qed.

End SelectFacts.

Module ConfigFacts.
Import Go types spec example.

Lemma isKnownPolicy_known (policy : string) :
  config.isKnownPolicy policy = true <-> knownPolicy policy.
Proof.
  unfold config.isKnownPolicy, knownPolicy, AutoPatch, AutoMinor, AutoAll, NotifyOnly.
  rewrite !orb_true_iff, !String.eqb_eq. tauto.
Qed.

Section Compact.
Variable TrimSpace : string -> string.

Lemma parseCompactApp_policy (spec : string) (app : AppConfig) :
  config.parseCompactApp TrimSpace spec = OK app ->
  Policy app = "" \/ knownPolicy (Policy app).
Proof.
  unfold config.parseCompactApp.
  destruct (Split spec ":") as [|p0 [|p1 [|p2 more]]]; try discriminate.
  destruct (config.isEmpty (TrimSpace p0)); [discriminate|].
  destruct (config.isEmpty (TrimSpace p1)); [discriminate|].
  destruct (config.isEmpty (TrimSpace p2)); [discriminate|].
  set (policyField := match more with
                      | p3 :: _ => if semver.nonEmpty p3 then Some (TrimSpace p3) else None
                      | [] => None
                      end).
  set (pinField := match more with
                   | _ :: p4 :: _ => if semver.nonEmpty p4 then Some (TrimSpace p4) else None
                   | _ => None
                   end).
  clearbody policyField pinField.
  destruct policyField as [policy|].
  - destruct (config.isKnownPolicy policy) eqn:Hk; [|discriminate].
    apply isKnownPolicy_known in Hk.
    destruct pinField as [pin|]; [destruct (snd (Atoi pin)); [|discriminate]|];
      intros H; inversion H; subst; cbn; auto.
  - destruct pinField as [pin|]; [destruct (snd (Atoi pin)); [|discriminate]|];
      intros H; inversion H; subst; cbn; auto.
Qed.

Lemma parseSpecs_policy (appSpecs : list string) (acc apps : list AppConfig) :
  (forall app, In app acc -> Policy app = "" \/ knownPolicy (Policy app)) ->
  config.parseSpecs TrimSpace appSpecs acc = OK apps ->
  forall app, In app apps -> Policy app = "" \/ knownPolicy (Policy app).
Proof.
  revert acc. induction appSpecs as [|spec rest IH]; intros acc Hacc; cbn.
  - intros H; inversion H; subst. exact Hacc.
  - destruct (config.isEmpty (TrimSpace spec)); [apply IH; exact Hacc|].
    destruct (config.parseCompactApp TrimSpace (TrimSpace spec)) as [a|e] eqn:Ha;
      [|discriminate].
    apply IH. intros app [Hin|Hin]%in_app_iff; [auto|].
    destruct Hin as [<-|[]]. exact (parseCompactApp_policy _ _ Ha).
Qed.

(** The compact format validates the policy field: whatever it accepts
    names a policy of the enumeration, or none. *)
Lemma parseCompactApps_policy_known (appsStr : string) (apps : list AppConfig) :
  config.parseCompactApps TrimSpace appsStr = OK apps ->
  forall app, In app apps -> Policy app = "" \/ knownPolicy (Policy app).
Proof.
  unfold config.parseCompactApps. apply parseSpecs_policy. intros ? [].
Qed.

End Compact.

Lemma unknown_policies :
  ~ knownPolicy "yolo" /\ ~ knownPolicy "auto-everything".
Proof.
  unfold knownPolicy, AutoPatch, AutoMinor, AutoAll, NotifyOnly.
  split; intros [H|[H|[H|H]]]; discriminate H.
Qed.

(** Claim C4 fails on the code.  A process started with
    [PATROL_POLICY=yolo] loads its configuration without error and keeps
    [yolo] as the default policy; so does a YAML file whose application
    names the policy [auto-everything].  Neither is a policy of the
    enumeration.  Only the compact format checks the policy, see
    [parseCompactApps_policy_known]. *)
Theorem Load_accepts_unknown_policy
    (TrimSpace : string -> string) (cronParse : string -> option string) :
  (exists cfg,
     config.Load TrimSpace cronParse parseDefaults envUnknownPolicy None = OK cfg
     /\ DefPolicy (Defaults cfg) = "yolo")
  /\ (exists cfg,
        config.Load TrimSpace cronParse parseDefaults envPlain
                    (Some (OK yamlUnknownPolicy)) = OK cfg
        /\ List.map Policy (Apps cfg) = ["auto-everything"])
  /\ ~ knownPolicy "yolo" /\ ~ knownPolicy "auto-everything".
Proof.
  split; [|split; [|exact unknown_policies]].
  - eexists. split; [vm_compute; reflexivity | reflexivity].
  - eexists. split; [vm_compute; reflexivity | reflexivity].
Qed.

End ConfigFacts.

Module WatcherFacts.
Import Go types watcher spec tactics.

Section Facts.
Variable world : World.

Lemma inCooldown_state (app : AppConfig) (s : State) :
  snd (inCooldown world app s) = s \/ snd (inCooldown world app s) = advance [] s.
Proof.
  unfold inCooldown, get, timeNow, interact, mbind, M_bind, mret, M_ret.
  destruct (lastUpdates s !! UUID app); cbn; auto.
Qed.

Lemma performUpdate_state (app : AppConfig) (newTag : string) (s : State) :
  let newImage := coolify.BuildImageReference (Image app) newTag in
  let r := performUpdate world app newTag s in
  (fst r <> None /\ snd r = advance [EvUpdateApplication (UUID app) newImage] s)
  \/ snd r = advance [EvRestartApplication (UUID app)]
               (advance [EvUpdateApplication (UUID app) newImage] s).
Proof.
  unfold performUpdate, UpdateApplication, RestartApplication, interact,
    mbind, M_bind, mret, M_ret. cbn.
  destruct (wUpdateApplication world (steps s) (UUID app) _); cbn.
  - left. split; [discriminate | reflexivity].
  - right. destruct (wRestartApplication world _ (UUID app)); reflexivity.
Qed.

Lemma checkAndUpdateApp_outcome (app : AppConfig) (s : State) :
  let r := checkAndUpdateApp world app s in
  config (snd r) = config s /\ dryRun (snd r) = dryRun s
  /\ lastCheck (snd r) = lastCheck s /\ (steps s < steps (snd r))%nat
  /\ exists evs,
       trace (snd r) = (trace s ++ EvGetApplication (UUID app) :: evs)%list
       /\ forallb inner evs = true
       /\ ((appStatuses (snd r) = appStatuses s /\ lastUpdates (snd r) = lastUpdates s
            /\ (fst r <> None \/ evs = []))
           \/ (fst r = None /\ evs <> []
               /\ exists st,
                    appStatuses (snd r) = <[UUID app := st]> (appStatuses s)
                    /\ reflectsCheck world (config s) app (steps s) (steps (snd r)) st
                    /\ (lastUpdates (snd r) = lastUpdates s
                        \/ exists t, lastUpdates (snd r) = <[UUID app := t]> (lastUpdates s)))).
Proof.
  intros r. subst r.
  destruct (checkAndUpdateApp world app s) as [e s'] eqn:Hrun. cbn [fst snd].
  revert Hrun. run_iteration. cbn beta iota.
  destruct (wGetApplication world (steps s) (UUID app)) as [currentApp|err] eqn:Hget.
  2:{ intros Hrun; inversion Hrun; subst; clear Hrun. quiet_leaf. }
  pose proof (inCooldown_state app (advance [EvGetApplication (UUID app)] s)) as Hc.
  destruct (inCooldown world app (advance [EvGetApplication (UUID app)] s))
    as [skip sC] eqn:Hcool. cbn [snd] in Hc.
  destruct skip.
  { intros Hrun; inversion Hrun; subst; clear Hrun.
    destruct Hc as [-> | ->]; quiet_leaf. }
  assert (HsC : config sC = config s /\ dryRun sC = dryRun s
                /\ (steps sC = S (steps s) \/ steps sC = S (S (steps s))))
    by (destruct Hc as [-> | ->]; cbn; auto).
  destruct HsC as (HcfgC & HdryC & HstepsC). rewrite HcfgC, HdryC.
  destruct (wGetLatestTag world (steps sC) (Image app)
              (ExcludePatterns (Defaults (config s)))) as [latestTag|err] eqn:Hlatest.
  2:{ intros Hrun; inversion Hrun; subst; clear Hrun.
      destruct Hc as [-> | ->]; quiet_leaf. }
  destruct (semver.IsUpdateAllowed
              (snd (coolify.ExtractImageAndTag (DockerImage currentApp))) latestTag
              (config.GetUpdatePolicy app (Defaults (config s))) (Pin app))
    as [updateAllowed reason] eqn:Hallow.
  assert (Hreflect : forall to lu,
            (S (S (steps sC)) <= to)%nat ->
            reflectsCheck world (config s) app (steps s) to
              {| sName := Name app; sUUID := UUID app; sImage := Image app;
                 CurrentTag := snd (coolify.ExtractImageAndTag (DockerImage currentApp));
                 LatestTag := latestTag;
                 sPolicy := config.GetUpdatePolicy app (Defaults (config s));
                 UpdateNeeded := updateAllowed;
                 LastCheck := wNow world (S (steps sC));
                 LastUpdate := lu |}).
  { intros to lu Hto. unfold reflectsCheck. cbn.
    repeat split; try reflexivity.
    - exists currentApp. auto.
    - exists (steps sC). repeat split; auto; lia.
    - rewrite Hallow. reflexivity. }
  destruct updateAllowed; cbn [negb].
  2:{ intros Hrun; inversion Hrun; subst; clear Hrun.
      decided_leaf Hc Hreflect. }
  destruct (dryRun s) eqn:Hdry.
  { intros Hrun; inversion Hrun; subst; clear Hrun.
    decided_leaf Hc Hreflect. }
  pose proof (performUpdate_state app latestTag
                (advance [] (advance [EvGetLatestTag (Image app)
                                        (ExcludePatterns (Defaults (config s)))] sC)))
    as Hp. cbn zeta in Hp.
  destruct (performUpdate world app latestTag _) as [a s3] eqn:Hperf. cbn [fst snd] in Hp.
  destruct a as [err|].
  { intros Hrun; inversion Hrun; subst; clear Hrun.
    destruct Hp as [[_ ->] | ->]; destruct Hc as [-> | ->]; quiet_leaf. }
  destruct Hp as [[Hne _] | ->]; [congruence|].
  intros Hrun; inversion Hrun; subst; clear Hrun.
  decided_leaf Hc Hreflect.
Qed.


Lemma checkAndUpdateApp_get_failed (app : AppConfig) (s : State) (err : string) :
  wGetApplication world (steps s) (UUID app) = Err err ->
  checkAndUpdateApp world app s
  = (Some ("getting current application state: " ++ err),
     advance [EvGetApplication (UUID app)] s).
Proof.
  intros H. run_iteration. cbn beta iota. rewrite H. reflexivity.
Qed.

(** One round of the loop. *)
Lemma checkLoop_cons (n i : Z) (app : AppConfig) (rest : list AppConfig) (s : State) :
  snd (checkLoop world n i (app :: rest) s)
  = snd (checkLoop world n (i + 1) rest (afterIteration world n i app s)).
Proof.
  unfold afterIteration, loopTail, emit. cbn [checkLoop].
  unfold mbind at 1. unfold M_bind at 1.
  destruct (checkAndUpdateApp world app s) as [e s1]. cbn [fst snd].
  destruct e as [err|].
  - unfold logError, modify, mbind, M_bind. cbn. rewrite Nat.add_0_r. reflexivity.
  - destruct (i <? n - 1).
    + unfold timeSleep, interact, mbind, M_bind. cbn. rewrite Nat.add_1_r. reflexivity.
    + unfold mbind, M_bind, mret, M_ret. cbn. rewrite Nat.add_0_r, app_nil_r.
      destruct s1; reflexivity.
Qed.

Lemma loopTail_no_GetApplication (n i : Z) (app : AppConfig) (e : error) :
  List.filter isGetApplication (loopTail n i app e) = [].
Proof. unfold loopTail. destruct e; [|destruct (i <? n - 1)]; reflexivity. Qed.

Lemma checkAndUpdateApp_other (app : AppConfig) (s : State) (u : string) :
  u <> UUID app ->
  appStatuses (snd (checkAndUpdateApp world app s)) !! u = appStatuses s !! u.
Proof.
  intros Hu.
  destruct (checkAndUpdateApp_outcome app s) as (_ & _ & _ & _ & evs & _ & _ & H).
  destruct H as [(-> & _) | (_ & _ & st & -> & _)]; [reflexivity|].
  apply lookup_insert_ne. congruence.
Qed.

Lemma checkAndUpdateApp_keeps (app : AppConfig) (s : State) (u : string) :
  is_Some (appStatuses s !! u) ->
  is_Some (appStatuses (snd (checkAndUpdateApp world app s)) !! u).
Proof.
  intros Hu.
  destruct (checkAndUpdateApp_outcome app s) as (_ & _ & _ & _ & evs & _ & _ & H).
  destruct H as [(-> & _) | (_ & _ & st & -> & _)]; [exact Hu|].
  rewrite lookup_insert. destruct (decide (UUID app = u)); [eauto | exact Hu].
Qed.

Lemma checkLoop_frame (n i : Z) (apps : list AppConfig) (s : State) :
  config (snd (checkLoop world n i apps s)) = config s
  /\ dryRun (snd (checkLoop world n i apps s)) = dryRun s
  /\ lastCheck (snd (checkLoop world n i apps s)) = lastCheck s.
Proof.
  revert i s. induction apps as [|app rest IH]; intros i s; [cbn; auto|].
  rewrite checkLoop_cons.
  destruct (checkAndUpdateApp_outcome app s) as (Hc & Hd & Hl & _).
  destruct (IH (i + 1) (afterIteration world n i app s)) as (-> & -> & ->).
  cbn. auto.
Qed.

Lemma checkLoop_other (n i : Z) (apps : list AppConfig) (s : State) (u : string) :
  ~ In u (List.map UUID apps) ->
  appStatuses (snd (checkLoop world n i apps s)) !! u = appStatuses s !! u.
Proof.
  revert i s. induction apps as [|app rest IH]; intros i s Hu; [reflexivity|].
  rewrite checkLoop_cons.
  cbn in Hu. rewrite IH by tauto. cbn.
  apply checkAndUpdateApp_other. intros ->. tauto.
Qed.

Lemma checkLoop_keeps (n i : Z) (apps : list AppConfig) (s : State) (u : string) :
  is_Some (appStatuses s !! u) ->
  is_Some (appStatuses (snd (checkLoop world n i apps s)) !! u).
Proof.
  revert i s. induction apps as [|app rest IH]; intros i s Hu; [exact Hu|].
  rewrite checkLoop_cons.
  apply IH. cbn. apply checkAndUpdateApp_keeps. exact Hu.
Qed.

Lemma filter_inner_GetApplication (evs : list Event) :
  forallb inner evs = true -> List.filter isGetApplication evs = [].
Proof.
  induction evs as [|e evs IH]; [reflexivity|]. cbn.
  intros [He Hevs]%andb_true_iff. unfold inner in He.
  destruct (isGetApplication e); [discriminate | auto].
Qed.

(** Every application of the list is visited, in the order of the list,
    whatever the outcome of the earlier ones. *)
Lemma checkLoop_visits (n i : Z) (apps : list AppConfig) (s : State) :
  exists evs,
    trace (snd (checkLoop world n i apps s)) = (trace s ++ evs)%list
    /\ List.filter isGetApplication evs
       = List.map (fun app => EvGetApplication (UUID app)) apps.
Proof.
  revert i s. induction apps as [|app rest IH]; intros i s.
  - exists []. cbn. rewrite app_nil_r. auto.
  - rewrite checkLoop_cons.
    destruct (checkAndUpdateApp_outcome app s)
      as (_ & _ & _ & _ & evs & Htr & Hinner & _).
    destruct (IH (i + 1) (afterIteration world n i app s)) as (evs' & -> & Hf).
    cbn [afterIteration emit trace]. rewrite Htr.
    exists (EvGetApplication (UUID app)
              :: evs ++ loopTail n i app (fst (checkAndUpdateApp world app s))
                     ++ evs')%list.
    split; [rewrite <- !app_assoc; reflexivity|].
    cbn. rewrite !List.filter_app, (filter_inner_GetApplication evs Hinner), Hf,
      loopTail_no_GetApplication. reflexivity.
Qed.

Lemma checkLoop_app (n i : Z) (pre rest : list AppConfig) (s : State) :
  snd (checkLoop world n i (pre ++ rest) s)
  = snd (checkLoop world n (i + Z.of_nat (length pre)) rest
           (snd (checkLoop world n i pre s))).
Proof.
  revert i s. induction pre as [|a pre IH]; intros i s.
  - cbn. rewrite Z.add_0_r. reflexivity.
  - rewrite <- app_comm_cons, !checkLoop_cons, IH. cbn [length]. rewrite Nat2Z.inj_succ.
    replace (i + 1 + Z.of_nat (length pre)) with (i + Z.succ (Z.of_nat (length pre))) by lia.
    reflexivity.
Qed.

Lemma getApplicationsToCheck_frame (s : State) :
  let r := getApplicationsToCheck world s in
  config (snd r) = config s /\ dryRun (snd r) = dryRun s
  /\ lastCheck (snd r) = lastCheck s
  /\ appStatuses (snd r) = appStatuses s /\ lastUpdates (snd r) = lastUpdates s
  /\ (steps s <= steps (snd r))%nat.
Proof.
  unfold getApplicationsToCheck, ListApplications, interact, get, mbind, M_bind,
    mret, M_ret. cbn.
  destruct (Apps (config s)); cbn.
  - destruct (wListApplications world (steps s)); cbn; repeat split; lia.
  - repeat split; lia.
Qed.

Lemma checkApplications_unfold (s sA : State) (apps : list AppConfig) :
  getApplicationsToCheck world (cycleStart world s) = (OK apps, sA) ->
  checkApplications world s
  = (None, advance [] (snd (checkLoop world (Z.of_nat (length apps)) 0 apps sA))).
Proof.
  intros H. unfold checkApplications, timeNow, interact, modify.
  unfold mbind at 1. unfold M_bind at 1. cbn beta iota.
  unfold mbind at 1. unfold M_bind at 1. cbn beta iota.
  unfold mbind at 1. unfold M_bind at 1.
  change (setLastCheck (wNow world (steps s)) (advance [] s)) with (cycleStart world s).
  rewrite H.
  unfold mbind, M_bind, mret, M_ret.
  destruct (checkLoop world (Z.of_nat (length apps)) 0 apps sA) as [[] sE].
  reflexivity.
Qed.


Lemma cycleStart_frame (s : State) :
  config (cycleStart world s) = config s
  /\ appStatuses (cycleStart world s) = appStatuses s
  /\ lastUpdates (cycleStart world s) = lastUpdates s
  /\ lastCheck (cycleStart world s) = wNow world (steps s).
Proof. cbn. auto. Qed.

(** Claim C3, amended.  Take a cycle over the applications
    [pre ++ app :: post], [app] not occurring again in [post].  The cycle
    returns no error; [lastCheck] holds the reading of the clock taken when
    the cycle started; and the entry of [app] at the end of the cycle is
    the one its iteration left.  That iteration leaves the map as it found
    it when the check failed or was skipped by the cooldown (nothing but
    the fetch of the current application happened); when it ran through to
    the decision, it stored an entry that reflects this check: current
    tag, latest tag, policy and time of the check. *)
Theorem checkApplications_refreshes_decided
    (s sA : State) (pre post : list AppConfig) (app : AppConfig) :
  getApplicationsToCheck world (cycleStart world s)
  = (OK (pre ++ app :: post)%list, sA) ->
  ~ In (UUID app) (List.map UUID post) ->
  let n := Z.of_nat (length (pre ++ app :: post)%list) in
  let s1 := snd (checkLoop world n 0 pre sA) in
  let r := checkAndUpdateApp world app s1 in
  let sEnd := snd (checkApplications world s) in
  fst (checkApplications world s) = None
  /\ lastCheck sEnd = wNow world (steps s)
  /\ appStatuses sEnd !! UUID app = appStatuses (snd r) !! UUID app
  /\ ((fst r <> None \/ trace (snd r) = (trace s1 ++ [EvGetApplication (UUID app)])%list) ->
      appStatuses (snd r) = appStatuses s1)
  /\ (fst r = None ->
      trace (snd r) <> (trace s1 ++ [EvGetApplication (UUID app)])%list ->
      exists st, appStatuses (snd r) !! UUID app = Some st
                 /\ reflectsCheck world (config s) app (steps s1) (steps (snd r)) st).
Proof.
  intros Hget Hpost n s1 r sEnd.
  pose proof (getApplicationsToCheck_frame (cycleStart world s)) as HA.
  rewrite Hget in HA. cbn [snd] in HA. destruct HA as (HcA & _ & HlA & _).
  assert (Hcfg1 : config s1 = config s).
  { subst s1. destruct (checkLoop_frame n 0 pre sA) as (-> & _). exact HcA. }
  subst sEnd. rewrite (checkApplications_unfold s sA _ Hget). cbn [fst snd].
  fold n. rewrite checkLoop_app. fold s1. rewrite checkLoop_cons.
  split; [reflexivity|]. split; [|split].
  - cbn [advance lastCheck].
    destruct (checkLoop_frame n (0 + Z.of_nat (length pre) + 1) post
                (afterIteration world n (0 + Z.of_nat (length pre)) app s1))
      as (_ & _ & ->).
    cbn [afterIteration emit lastCheck].
    destruct (checkAndUpdateApp_outcome app s1) as (_ & _ & -> & _).
    subst s1. destruct (checkLoop_frame n 0 pre sA) as (_ & _ & ->).
    rewrite HlA. reflexivity.
  - cbn [advance appStatuses]. rewrite checkLoop_other by exact Hpost. reflexivity.
  - destruct (checkAndUpdateApp_outcome app s1)
      as (_ & _ & _ & _ & evs & Htr & _ & Hcase).
    fold r in Htr, Hcase. rewrite Hcfg1 in Hcase. split.
    + intros Hq. destruct Hcase as [(E & _) | (Hnone & Hevs & _)]; [exact E|].
      destruct Hq as [Hq | Hq]; [contradiction|].
      rewrite Htr in Hq. apply app_inv_head in Hq. inversion Hq. contradiction.
    + intros Hnone Hne.
      destruct Hcase as [(_ & _ & [Hq | ->]) | (_ & _ & st & E & Hr & _)].
      * contradiction.
      * contradiction.
      * exists st. rewrite E, lookup_insert_eq. auto.
Qed.

(** Claim C10.  Once the applications of a cycle are known, the cycle
    returns no error; every application is visited, in the order of the
    list; an iteration that returns an error, whichever call failed, leaves
    the status map and the update map as they were, and the loop logs the
    error and goes on with the next application; when the deployment
    controller fails on the fetch of an application (not found), the entry
    of that application at the end of the cycle is the one it had before
    the cycle; and no entry of the map is ever removed. *)
Theorem per_application_failure_is_isolated (s sA : State) (apps : list AppConfig) :
  getApplicationsToCheck world (cycleStart world s) = (OK apps, sA) ->
  let n := Z.of_nat (length apps) in
  let sEnd := snd (checkApplications world s) in
  fst (checkApplications world s) = None
  /\ (exists evs,
        trace sEnd = (trace sA ++ evs)%list
        /\ List.filter isGetApplication evs
           = List.map (fun app => EvGetApplication (UUID app)) apps)
  /\ (forall pre app post err,
        apps = (pre ++ app :: post)%list ->
        let s1 := snd (checkLoop world n 0 pre sA) in
        let r := checkAndUpdateApp world app s1 in
        fst r = Some err ->
        appStatuses (snd r) = appStatuses s1
        /\ lastUpdates (snd r) = lastUpdates s1
        /\ sEnd = advance []
                    (snd (checkLoop world n (Z.of_nat (length pre) + 1) post
                            (emit [EvLogError (Name app) (UUID app) err] (snd r)))))
  /\ (forall pre app post err,
        apps = (pre ++ app :: post)%list ->
        let s1 := snd (checkLoop world n 0 pre sA) in
        wGetApplication world (steps s1) (UUID app) = Err err ->
        ~ In (UUID app) (List.map UUID (pre ++ post)%list) ->
        appStatuses sEnd !! UUID app = appStatuses s !! UUID app)
  /\ (forall u, is_Some (appStatuses s !! u) -> is_Some (appStatuses sEnd !! u)).
Proof.
  intros Hget n sEnd.
  pose proof (getApplicationsToCheck_frame (cycleStart world s)) as HA.
  rewrite Hget in HA. cbn [snd] in HA. destruct HA as (_ & _ & _ & HsA & _).
  subst sEnd. rewrite (checkApplications_unfold s sA _ Hget). cbn [fst snd]. fold n.
  split; [reflexivity|]. split; [|split; [|split]].
  - destruct (checkLoop_visits n 0 apps sA) as (evs & Htr & Hf).
    exists evs. cbn [advance trace]. rewrite app_nil_r. auto.
  - intros pre app post err Happs.
    set (s1 := snd (checkLoop world n 0 pre sA)).
    set (r := checkAndUpdateApp world app s1). intros Herr.
    destruct (checkAndUpdateApp_outcome app s1) as (_ & _ & _ & _ & evs & _ & _ & Hcase).
    fold r in Hcase.
    destruct Hcase as [(E1 & E2 & _) | (Hnone & _)]; [|congruence].
    split; [exact E1|]. split; [exact E2|].
    rewrite Happs, checkLoop_app. fold s1. rewrite checkLoop_cons.
    unfold afterIteration. fold r. rewrite Herr. cbn [loopTail].
    rewrite Z.add_0_l. reflexivity.
  - intros pre app post err Happs.
    set (s1 := snd (checkLoop world n 0 pre sA)). intros Hnf Hu.
    cbn [advance appStatuses]. rewrite Happs, checkLoop_app. fold s1.
    rewrite checkLoop_cons.
    rewrite List.map_app, in_app_iff in Hu.
    rewrite checkLoop_other by tauto.
    unfold afterIteration. rewrite (checkAndUpdateApp_get_failed app s1 err Hnf).
    cbn. subst s1. rewrite checkLoop_other by tauto. rewrite HsA. reflexivity.
  - intros u Hu. cbn [advance appStatuses]. apply checkLoop_keeps.
    rewrite HsA. exact Hu.
Qed.

(** The sleep follows every iteration that returns without error and is
    not the last, whether or not it performed an update. *)
Lemma checkLoop_sleeps_after_every_success
    (n i : Z) (app : AppConfig) (rest : list AppConfig) (s : State) :
  fst (checkAndUpdateApp world app s) = None -> i < n - 1 ->
  snd (checkLoop world n i (app :: rest) s)
  = snd (checkLoop world n (i + 1) rest
          (emit [EvSleep updateDelay] (snd (checkAndUpdateApp world app s)))).
Proof.
  intros He Hi. rewrite checkLoop_cons. unfold afterIteration, loopTail.
  rewrite He. apply Z.ltb_lt in Hi. rewrite Hi. reflexivity.
Qed.

End Facts.

Import example.

(** Claim C3, amended, at a cycle that updates [abc-123] from [1.2.3] to
    [1.2.4]. *)
Lemma checkApplications_refreshes_decided_witness :
  appStatuses (snd (checkApplications (calm "1.2.4") (fresh [app1; app2]))) !! "abc-123"
  = Some {| sName := "n8n"; sUUID := "abc-123"; sImage := "n8nio/n8n";
            CurrentTag := "1.2.3"; LatestTag := "1.2.4"; sPolicy := "auto-patch";
            UpdateNeeded := true; LastCheck := 3000000000;
            LastUpdate := Some 7000000000 |}.
Proof.
  refine (eq_trans (proj1 (proj2 (proj2 (checkApplications_refreshes_decided
            (calm "1.2.4") (fresh [app1; app2])
            (cycleStart (calm "1.2.4") (fresh [app1; app2]))
            [] [app2] app1 eq_refl _))))
          _).
  - cbn. intros [H|[]]. discriminate H.
  - vm_compute. reflexivity.
Defined.

(** Claim C10 at a cycle whose first application is not found. *)
Lemma per_application_failure_is_isolated_witness :
  fst (checkApplications (notFound "1.2.4") (fresh [app1; app2])) = None
  /\ appStatuses (snd (checkApplications (notFound "1.2.4") (fresh [app1; app2])))
       !! "abc-123" = None.
Proof.
  pose proof (per_application_failure_is_isolated (notFound "1.2.4")
                (fresh [app1; app2]) (cycleStart (notFound "1.2.4") (fresh [app1; app2]))
                [app1; app2] eq_refl) as (H1 & _ & _ & H4 & _).
  split; [exact H1|].
  refine (eq_trans (H4 [] app1 [app2] "application not found: abc-123"
                      eq_refl eq_refl _) _).
  - cbn. intros [H|[]]. discriminate H.
  - vm_compute. reflexivity.
Defined.

(** Claim C2 fails on the code.  Two applications, both up to date: no
    update is performed, yet the cycle sleeps for the update delay between
    the two checks. *)
Lemma checkApplications_sleeps_after_denied :
  trace (snd (checkApplications (calm "1.2.3") (fresh [app1; app2])))
  = [ EvGetApplication "abc-123";
      EvGetLatestTag "n8nio/n8n" ["-alpha"; "-beta"];
      EvSleep updateDelay;
      EvGetApplication "def-456";
      EvGetLatestTag "postgres" ["-alpha"; "-beta"] ]
  /\ List.filter isUpdate
       (trace (snd (checkApplications (calm "1.2.3") (fresh [app1; app2])))) = [].
Proof. split; vm_compute; reflexivity. Qed.

(** Claim C3 as stated fails: after a cycle in which the deployment
    controller does not find [abc-123], the map holds no entry for it. *)
Lemma checkApplications_failed_check_counterexample :
  ~ cycleRefreshesAll (notFound "1.2.4") (fresh [app1; app2]).
Proof.
  intros H.
  destruct (H [app1; app2] (cycleStart (notFound "1.2.4") (fresh [app1; app2]))
              eq_refl app1 (or_introl eq_refl)) as (st & from & to & Hst & _).
  vm_compute in Hst. discriminate Hst.
Qed.

(** The same for an application skipped by the cooldown: the cycle only
    fetches the current application and stores nothing. *)
Lemma checkApplications_cooldown_skip_no_entry :
  trace (snd (checkApplications (calm "1.2.4") (justUpdated [app1])))
  = [EvGetApplication "abc-123"]
  /\ ~ cycleRefreshesAll (calm "1.2.4") (justUpdated [app1]).
Proof.
  split; [vm_compute; reflexivity|]. intros H.
  destruct (H [app1] (cycleStart (calm "1.2.4") (justUpdated [app1]))
              eq_refl app1 (or_introl eq_refl)) as (st & from & to & Hst & _).
  vm_compute in Hst. discriminate Hst.
Qed.

End WatcherFacts.

(** ** The policy engine, as a whole *)

Module PolicyFacts.
Import Go types semver spec CompareFacts ParseFacts DecideFacts.

Lemma applyPolicy_allows currentVer latestVer (policy : UpdatePolicy) :
  fst (applyPolicy currentVer latestVer policy) = true <->
  (policy = AutoPatch /\ Major latestVer = Major currentVer
   /\ Minor latestVer = Minor currentVer)
  \/ (policy = AutoMinor /\ Major latestVer = Major currentVer)
  \/ policy = AutoAll.
Proof.
  unfold applyPolicy.
  destruct (String.eqb_spec policy NotifyOnly) as [->|H1].
  { cbn. split; [discriminate|]. intros [(H & _)|[(H & _)|H]]; discriminate H. }
  destruct (String.eqb_spec policy AutoPatch) as [->|H2].
  { destruct (Z.eqb_spec (Major latestVer) (Major currentVer)),
             (Z.eqb_spec (Minor latestVer) (Minor currentVer)); cbn;
      (split; [try discriminate; auto | intros [(_ & ? & ?)|[(H & _)|H]];
                                        try discriminate H; try reflexivity; lia]). }
  destruct (String.eqb_spec policy AutoMinor) as [->|H3].
  { destruct (Z.eqb_spec (Major latestVer) (Major currentVer)); cbn;
      (split; [try discriminate; auto | intros [(H & _)|[(_ & ?)|H]];
                                        try discriminate H; try reflexivity; lia]). }
  destruct (String.eqb_spec policy AutoAll) as [->|H4].
  { cbn. split; auto. }
  cbn. split; [discriminate|]. intros [(H & _)|[(H & _)|H]]; contradiction.
Qed.

(** The cases in which [IsUpdateAllowed] answers yes. *)
Lemma IsUpdateAllowed_cases (current latest : string)
    (policy : UpdatePolicy) (pin : string) :
  fst (IsUpdateAllowed current latest policy pin) = true <->
  (ParseVersion current = None /\ policy = AutoAll /\ current <> latest)
  \/ (exists currentVer latestVer,
        ParseVersion current = Some currentVer
        /\ ParseVersion latest = Some latestVer
        /\ 0 < Compare latestVer currentVer
        /\ (pin = "" \/ exists pinMajor,
              Atoi pin = (pinMajor, true) /\ Major latestVer = pinMajor)
        /\ ((policy = AutoPatch /\ Major latestVer = Major currentVer
             /\ Minor latestVer = Minor currentVer)
            \/ (policy = AutoMinor /\ Major latestVer = Major currentVer)
            \/ policy = AutoAll)).
Proof.
  destruct (ParseVersion current) as [cv|] eqn:Hc.
  - destruct (ParseVersion latest) as [lv|] eqn:Hl.
    + rewrite (IsUpdateAllowed_parsed _ _ _ _ policy pin Hc Hl).
      destruct (Z.leb_spec (Compare lv cv) 0) as [Hle|Hgt].
      { cbn. split; [discriminate|].
        intros [(H & _)|(cv' & lv' & E1 & E2 & Hcmp & _)]; [discriminate|].
        inversion E1; inversion E2; subst. lia. }
      destruct (checkPin lv pin) as [r|] eqn:Hpin.
      { assert (Hr : fst r = false).
        { unfold checkPin in Hpin. destruct (nonEmpty pin); [|discriminate].
          destruct (Atoi pin) as [n ok]. destruct ok; cbn in Hpin.
          - destruct (Major lv =? n); cbn in Hpin; inversion Hpin; reflexivity.
          - inversion Hpin; reflexivity. }
        rewrite Hr. split; [discriminate|].
        intros [(H & _)|(cv' & lv' & E1 & E2 & _ & Hp & _)]; [discriminate|].
        inversion E1; inversion E2; subst.
        apply checkPin_passes in Hp. congruence. }
      rewrite applyPolicy_allows. split.
      * intros H. right. exists cv, lv. repeat split; auto.
        apply checkPin_passes. exact Hpin.
      * intros [(H & _)|(cv' & lv' & E1 & E2 & _ & _ & H)]; [discriminate|].
        inversion E1; inversion E2; subst. exact H.
    + unfold IsUpdateAllowed. rewrite Hc, Hl. cbn. split; [discriminate|].
      intros [(H & _)|(cv' & lv' & _ & E2 & _)]; discriminate.
  - unfold IsUpdateAllowed. rewrite Hc.
    destruct (String.eqb_spec policy AutoAll) as [->|Hne]; cbn.
    + destruct (String.eqb_spec current latest) as [->|Hd]; cbn.
      * split; [discriminate|].
        intros [(_ & _ & H)|(cv' & lv' & E1 & _)]; [congruence | discriminate].
      * split; auto.
    + split; [discriminate|].
      intros [(_ & H & _)|(cv' & lv' & E1 & _)]; [contradiction | discriminate].
Qed.

(** Property X1.  When the engine allows.  The update is allowed exactly in two cases:
    the current tag is no version, the policy is auto-all and the candidate
    is another text (the pin is not looked at); or both tags are versions,
    the candidate compares greater, the pin is absent or a number equal to
    the candidate's major, and the policy covers the step (auto-patch: same
    major and minor; auto-minor: same major; auto-all: any). *)
Theorem IsUpdateAllowed_allowed_iff (current latest : string)
    (policy : UpdatePolicy) (pin : string) :
  fst (IsUpdateAllowed current latest policy pin) = true <->
  (ParseVersion current = None /\ policy = AutoAll /\ current <> latest)
  \/ (exists currentVer latestVer,
        ParseVersion current = Some currentVer
        /\ ParseVersion latest = Some latestVer
        /\ 0 < Compare latestVer currentVer
        /\ (pin = "" \/ exists pinMajor,
              Atoi pin = (pinMajor, true) /\ Major latestVer = pinMajor)
        /\ ((policy = AutoPatch /\ Major latestVer = Major currentVer
             /\ Minor latestVer = Minor currentVer)
            \/ (policy = AutoMinor /\ Major latestVer = Major currentVer)
            \/ policy = AutoAll)).
Proof.
  split; apply IsUpdateAllowed_cases.
Qed.

(** Property X2.  The deployed tag is never its own update. *)
Theorem IsUpdateAllowed_never_same_tag (tag : string) (policy : UpdatePolicy)
    (pin : string) :
  fst (IsUpdateAllowed tag tag policy pin) = false.
Proof.
  destruct (fst (IsUpdateAllowed tag tag policy pin)) eqn:H; [|reflexivity].
  apply IsUpdateAllowed_cases in H
    as [(_ & _ & Hne)|(cv & lv & E1 & E2 & Hcmp & _)]; [contradiction|].
  rewrite E1 in E2. inversion E2; subst. rewrite Compare_refl in Hcmp. lia.
Qed.

(** Property X3.  A policy that is not one of auto-patch, auto-minor and auto-all never
    allows an update: notify-only, the empty policy, a misspelt one. *)
Theorem IsUpdateAllowed_other_policy_denies (current latest : string)
    (policy : UpdatePolicy) (pin : string) :
  policy <> AutoPatch -> policy <> AutoMinor -> policy <> AutoAll ->
  fst (IsUpdateAllowed current latest policy pin) = false.
Proof.
  intros H1 H2 H3.
  destruct (fst (IsUpdateAllowed current latest policy pin)) eqn:H; [|reflexivity].
  apply IsUpdateAllowed_cases in H
    as [(_ & E & _)|(cv & lv & _ & _ & _ & _ & [(E & _)|[(E & _)|E]])];
    contradiction.
Qed.

Lemma IsUpdateAllowed_other_policy_denies_witness :
  fst (IsUpdateAllowed "1.2.3" "1.2.4" "yolo" "") = false.
Proof.
  apply IsUpdateAllowed_other_policy_denies; discriminate.
Defined.

(** Property X4.  The policies are ordered: what auto-patch allows auto-minor allows, and
    what auto-minor allows auto-all allows, for the same tags and pin. *)
Theorem IsUpdateAllowed_policies_nested (current latest pin : string) :
  (fst (IsUpdateAllowed current latest AutoPatch pin) = true ->
   fst (IsUpdateAllowed current latest AutoMinor pin) = true)
  /\ (fst (IsUpdateAllowed current latest AutoMinor pin) = true ->
      fst (IsUpdateAllowed current latest AutoAll pin) = true).
Proof.
  split; intros H; apply IsUpdateAllowed_cases in H;
    apply IsUpdateAllowed_cases;
    destruct H as [(_ & E & _)|(cv & lv & E1 & E2 & Hc & Hp & Hpol)];
    try discriminate E; right; exists cv, lv; repeat split; auto.
  - destruct Hpol as [(_ & Hm & _)|[(E & _)|E]]; try discriminate E. auto.
Qed.

Lemma IsUpdateAllowed_policies_nested_witness :
  fst (IsUpdateAllowed "1.2.3" "1.2.4" AutoMinor "") = true.
Proof.
  apply (proj1 (IsUpdateAllowed_policies_nested "1.2.3" "1.2.4" "")).
  vm_compute. reflexivity.
Defined.

(** Property X5.  An application deployed above its pin is never updated: a candidate
    inside the pin is older, a candidate outside crosses the pin. *)
Theorem IsUpdateAllowed_current_above_pin (current latest : string)
    (policy : UpdatePolicy) (pin : string) (currentVer : Version) (pinMajor : Z) :
  ParseVersion current = Some currentVer ->
  pin <> "" -> Atoi pin = (pinMajor, true) ->
  pinMajor < Major currentVer ->
  fst (IsUpdateAllowed current latest policy pin) = false.
Proof.
  intros Hc Hp Ha Hlt.
  destruct (fst (IsUpdateAllowed current latest policy pin)) eqn:H; [|reflexivity].
  apply IsUpdateAllowed_cases in H
    as [(E & _)|(cv & lv & E1 & E2 & Hcmp & Hpin & _)]; [congruence|].
  rewrite Hc in E1. inversion E1; subst cv.
  destruct Hpin as [E|(n & Hn & Hm)]; [contradiction|].
  rewrite Ha in Hn. inversion Hn; subst n.
  rewrite Compare_unfold in Hcmp.
  destruct (Z.ltb_spec (Major lv) (Major currentVer)); lia.
Qed.

Lemma IsUpdateAllowed_current_above_pin_witness :
  fst (IsUpdateAllowed "18.1.0" "18.2.0" AutoAll "17") = false.
Proof.
  apply (IsUpdateAllowed_current_above_pin "18.1.0" "18.2.0" AutoAll "17"
           (mkVersion 18 1 0 "" "" "18.1.0") 17);
    vm_compute; (reflexivity || discriminate).
Defined.

(** Property X6.  A pin that is not a number blocks every update of an application whose
    current tag is a version. *)
Theorem IsUpdateAllowed_invalid_pin (current latest : string)
    (policy : UpdatePolicy) (pin : string) (currentVer : Version) :
  ParseVersion current = Some currentVer ->
  pin <> "" -> snd (Atoi pin) = false ->
  fst (IsUpdateAllowed current latest policy pin) = false.
Proof.
  intros Hc Hp Ha.
  destruct (fst (IsUpdateAllowed current latest policy pin)) eqn:H; [|reflexivity].
  apply IsUpdateAllowed_cases in H
    as [(E & _)|(cv & lv & _ & _ & _ & Hpin & _)]; [congruence|].
  destruct Hpin as [E|(n & Hn & _)]; [contradiction|].
  rewrite Hn in Ha. discriminate.
Qed.

Lemma IsUpdateAllowed_invalid_pin_witness :
  fst (IsUpdateAllowed "17.1.0" "17.2.0" AutoAll "17.x") = false.
Proof.
  apply (IsUpdateAllowed_invalid_pin "17.1.0" "17.2.0" AutoAll "17.x"
           (mkVersion 17 1 0 "" "" "17.1.0"));
    vm_compute; (reflexivity || discriminate).
Defined.

End PolicyFacts.

(** ** Image references *)

Module ImageFacts.
Import Go coolify.

Lemma HasPrefix_byte (c d : ascii) (r : string) :
  HasPrefix (String d r) (String c "") = Ascii.eqb c d.
Proof.
  unfold HasPrefix. cbn. destruct (Ascii.ascii_dec c d) as [->|Hne].
  - rewrite Ascii.eqb_refl. destruct r; reflexivity.
  - apply Ascii.eqb_neq in Hne. rewrite Hne. reflexivity.
Qed.

Lemma Contains_byte_cons (c d : ascii) (r : string) :
  Contains (String d r) (String c "") = Ascii.eqb c d || Contains r (String c "").
Proof.
  change (Contains (String d r) (String c ""))
    with (HasPrefix (String d r) (String c "") || Contains r (String c "")).
  rewrite HasPrefix_byte. reflexivity.
Qed.

Lemma cutLast_None (s : string) (c : ascii) :
  cutLast s c = None <-> Contains s (String c "") = false.
Proof.
  induction s as [|d r IH].
  - cbn. split; reflexivity.
  - rewrite Contains_byte_cons. cbn [cutLast].
    destruct (cutLast r c) as [[a b]|].
    + split; [discriminate|]. intros H. apply orb_false_elim in H as [_ H].
      apply IH in H. discriminate.
    + rewrite (Ascii.eqb_sym c d).
      destruct (Ascii.eqb d c); cbn.
      * split; discriminate.
      * split; intros _; [apply IH|]; reflexivity.
Qed.

Lemma cutLast_Some (s : string) (c : ascii) (a b : string) :
  cutLast s c = Some (a, b) ->
  s = a ++ String c b /\ Contains b (String c "") = false.
Proof.
  revert a. induction s as [|d r IH]; intros a H.
  - discriminate.
  - cbn [cutLast] in H. destruct (cutLast r c) as [[a' b']|] eqn:Hr.
    + inversion H; subst. destruct (IH a' eq_refl) as [-> Hb].
      split; [reflexivity | exact Hb].
    + destruct (Ascii.eqb_spec d c) as [->|]; [|discriminate].
      inversion H; subst. split; [reflexivity|]. apply cutLast_None. exact Hr.
Qed.

Lemma cutLast_app (a b : string) (c : ascii) :
  Contains b (String c "") = false ->
  cutLast (a ++ String c b) c = Some (a, b).
Proof.
  intros Hb. apply cutLast_None in Hb. induction a as [|d r IH].
  - change ("" ++ String c b) with (String c b). cbn [cutLast].
    rewrite Hb, Ascii.eqb_refl. reflexivity.
  - change (String d r ++ String c b) with (String d (r ++ String c b)).
    cbn [cutLast]. rewrite IH. reflexivity.
Qed.

(** Property X7.  Round trip, building then splitting.  A tag without colon and slash
    comes back, with the image it was attached to, whatever the image is
    (registry host, port, path). *)
Theorem ExtractImageAndTag_BuildImageReference (image tag : string) :
  Contains tag ":" = false -> Contains tag "/" = false ->
  ExtractImageAndTag (BuildImageReference image tag) = (image, tag).
Proof.
  intros Hc Hs. unfold ExtractImageAndTag, BuildImageReference.
  change (image ++ ":" ++ tag) with (image ++ String ":" tag).
  rewrite (cutLast_app image tag ":" Hc), Hs. reflexivity.
Qed.

Lemma ExtractImageAndTag_BuildImageReference_witness :
  ExtractImageAndTag (BuildImageReference "registry.example.com:5000/myapp" "v2.0.0")
  = ("registry.example.com:5000/myapp", "v2.0.0").
Proof.
  apply ExtractImageAndTag_BuildImageReference; vm_compute; reflexivity.
Defined.

(** Property X8.  What the split returns.  [ExtractImageAndTag] returns
    the pair (image, tag) exactly in two cases.  Either the reference has
    no tag: it holds no colon, or the text after its last colon holds a
    slash (the colon belongs to a port); then the image is the whole
    reference and the tag is [latest].  Or the tag is the text after the
    last colon of the reference, holding no slash, and the image is the
    text before that colon. *)
Theorem ExtractImageAndTag_rebuilds (dockerImage image tag : string) :
  ExtractImageAndTag dockerImage = (image, tag) <->
  (image = dockerImage /\ tag = "latest"
   /\ (Contains dockerImage ":" = false
       \/ exists host path,
            dockerImage = host ++ ":" ++ path
            /\ Contains path ":" = false /\ Contains path "/" = true))
  \/ (dockerImage = BuildImageReference image tag
      /\ Contains tag ":" = false /\ Contains tag "/" = false).
Proof.
  unfold ExtractImageAndTag, BuildImageReference. split.
  - destruct (cutLast dockerImage ":") as [[a b]|] eqn:Hcut.
    + destruct (cutLast_Some _ _ _ _ Hcut) as [Hs Hb].
      destruct (Contains b "/") eqn:Hslash; intros H; inversion H; subst image tag.
      * left. repeat split. right. exists a, b. repeat split; assumption.
      * right. repeat split; assumption.
    + intros H; inversion H; subst image tag. left. repeat split. left.
      apply cutLast_None. exact Hcut.
  - intros [(-> & -> & [Hnone | (host & path & -> & Hcolon & Hslash)])
           | (-> & Hcolon & Hslash)].
    + apply cutLast_None in Hnone. rewrite Hnone. reflexivity.
    + change (host ++ ":" ++ path) with (host ++ String ":" path).
      rewrite (cutLast_app host path ":" Hcolon), Hslash. reflexivity.
    + change (image ++ ":" ++ tag) with (image ++ String ":" tag).
      rewrite (cutLast_app image tag ":" Hcolon), Hslash. reflexivity.
Qed.

End ImageFacts.

(** ** What a check cycle deploys *)

Module CycleFacts.
Import Go types watcher spec cycle tactics WatcherFacts.

Section Facts.
Variable world : World.

Lemma inCooldown_run (app : AppConfig) (evs : list Event) (s : State) :
  inCooldown world app (advance evs s)
  = (cooling world app s,
     match lastUpdates s !! UUID app with
     | Some _ => advance [] (advance evs s)
     | None => advance evs s
     end).
Proof.
  unfold inCooldown, cooling, get, timeNow, interact, mbind, M_bind, mret, M_ret.
  cbn. destruct (lastUpdates s !! UUID app); reflexivity.
Qed.

Lemma performUpdate_run (app : AppConfig) (newTag : string) (s : State) :
  let newImage := coolify.BuildImageReference (Image app) newTag in
  let updated := advance [EvUpdateApplication (UUID app) newImage] s in
  performUpdate world app newTag s
  = match wUpdateApplication world (steps s) (UUID app) newImage with
    | Some err => (Some ("updating application config: " ++ err), updated)
    | None =>
        (match wRestartApplication world (S (steps s)) (UUID app) with
         | Some err => Some ("restarting application: " ++ err)
         | None => None
         end,
         advance [EvRestartApplication (UUID app)] updated)
    end.
Proof.
  unfold performUpdate, UpdateApplication, RestartApplication, interact,
    mbind, M_bind, mret, M_ret. cbn.
  destruct (wUpdateApplication world (steps s) (UUID app) _); [reflexivity|].
  cbn. destruct (wRestartApplication world _ (UUID app)); reflexivity.
Qed.

(** The runs of one iteration, by the calls it made. *)
Lemma checkAndUpdateApp_shape (app : AppConfig) (s : State) :
  let r := checkAndUpdateApp world app s in
  let fetch := EvGetApplication (UUID app) in
  let latest := EvGetLatestTag (Image app) (ExcludePatterns (Defaults (config s))) in
  (trace (snd r) = (trace s ++ [fetch])%list
   /\ appStatuses (snd r) = appStatuses s /\ lastUpdates (snd r) = lastUpdates s
   /\ (fst r = None -> cooling world app s = true)
   /\ (fst r <> None ->
       exists err, wGetApplication world (steps s) (UUID app) = Err err))
  \/ (cooling world app s = false
      /\ ((trace (snd r) = (trace s ++ [fetch; latest])%list
           /\ lastUpdates (snd r) = lastUpdates s
           /\ (fst r <> None -> appStatuses (snd r) = appStatuses s))
          \/ (dryRun s = false
              /\ exists newImage,
                   allowedUpdate world app s newImage
                   /\ let update := EvUpdateApplication (UUID app) newImage in
                      ((trace (snd r) = (trace s ++ [fetch; latest; update])%list
                        /\ fst r <> None
                        /\ appStatuses (snd r) = appStatuses s
                        /\ lastUpdates (snd r) = lastUpdates s)
                       \/ (trace (snd r)
                           = (trace s ++ [fetch; latest; update;
                                          EvRestartApplication (UUID app)])%list
                           /\ ((fst r <> None
                                /\ appStatuses (snd r) = appStatuses s
                                /\ lastUpdates (snd r) = lastUpdates s)
                               \/ (fst r = None
                                   /\ fst (UpdateApplication world (UUID app) newImage
                                             (decisionState world app s)) = None
                                   /\ fst (RestartApplication world (UUID app)
                                             (updatedState world app newImage s)) = None
                                   /\ lastUpdates (snd r)
                                      = <[UUID app :=
                                            fst (timeNow world
                                                   (restartedState world app newImage s))]>
                                          (lastUpdates s)))))))).
Proof.
  intros r fetch latest. subst r fetch latest.
  destruct (checkAndUpdateApp world app s) as [e s'] eqn:Hrun. cbn [fst snd].
  revert Hrun. unfold checkAndUpdateApp.
  unfold mbind at 1. unfold M_bind at 1.
  unfold GetApplication at 1. unfold interact at 1.
  destruct (wGetApplication world (steps s) (UUID app)) as [currentApp|err] eqn:Hget.
  2:{ intros Hrun; inversion Hrun; subst; clear Hrun. left. cbn.
      repeat split; eauto; discriminate. }
  unfold mbind at 1. unfold M_bind at 1. rewrite inCooldown_run.
  destruct (cooling world app s) eqn:Hcool.
  { intros Hrun; inversion Hrun; subst; clear Hrun. left.
    destruct (lastUpdates s !! UUID app); cbn; rewrite <- ?app_assoc, ?app_nil_r;
      repeat split; auto; intros H; contradiction H; reflexivity. }
  set (sC := match lastUpdates s !! UUID app with
             | Some _ => advance [] (advance [EvGetApplication (UUID app)] s)
             | None => advance [EvGetApplication (UUID app)] s
             end).
  assert (HsC : config sC = config s /\ dryRun sC = dryRun s
                /\ appStatuses sC = appStatuses s /\ lastUpdates sC = lastUpdates s
                /\ trace sC = (trace s ++ [EvGetApplication (UUID app)])%list
                /\ (steps s < steps sC)%nat).
  { subst sC. destruct (lastUpdates s !! UUID app); cbn; rewrite ?app_nil_r;
      repeat split; auto; lia. }
  destruct HsC as (HcfgC & HdryC & HstC & HluC & HtrC & HstepC).
  assert (Hlook : lookupState world app s = sC).
  { unfold lookupState, GetApplication, interact. cbn [snd].
    rewrite inCooldown_run. reflexivity. }
  clearbody sC.
  unfold get, GetLatestTag, timeNow, interact, modify, mbind, M_bind, mret, M_ret.
  cbn beta iota. rewrite HcfgC, HdryC.
  destruct (wGetLatestTag world (steps sC) (Image app)
              (ExcludePatterns (Defaults (config s)))) as [latestTag|err] eqn:Hlatest.
  2:{ intros Hrun; inversion Hrun; subst; clear Hrun. right. split; [reflexivity|].
      left. cbn. rewrite HtrC, <- !app_assoc. cbn [List.app]. repeat split; auto. }
  destruct (semver.IsUpdateAllowed
              (snd (coolify.ExtractImageAndTag (DockerImage currentApp))) latestTag
              (config.GetUpdatePolicy app (Defaults (config s))) (Pin app))
    as [updateAllowed reason] eqn:Hallow.
  destruct updateAllowed; cbn [negb].
  2:{ intros Hrun; inversion Hrun; subst; clear Hrun. right. split; [reflexivity|].
      left. cbn. rewrite HtrC, <- !app_assoc. cbn [List.app]. repeat split; auto.
      intros H; contradiction H; reflexivity. }
  destruct (dryRun s) eqn:Hdry.
  { intros Hrun; inversion Hrun; subst; clear Hrun. right. split; [reflexivity|].
    left. cbn. rewrite HtrC, <- !app_assoc. cbn [List.app]. repeat split; auto.
    intros H; contradiction H; reflexivity. }
  rewrite performUpdate_run. cbn zeta.
  assert (Hallowed : allowedUpdate world app s
                       (coolify.BuildImageReference (Image app) latestTag)).
  { exists currentApp, latestTag. rewrite Hlook, Hallow.
    unfold GetApplication, GetLatestTag, interact. cbn [fst].
    repeat split; auto. }
  assert (Hdec : decisionState world app s
                 = advance [] (advance [EvGetLatestTag (Image app)
                                          (ExcludePatterns (Defaults (config s)))] sC)).
  { unfold decisionState. rewrite Hlook. reflexivity. }
  cbn [steps advance].
  destruct (wUpdateApplication world (S (S (steps sC))) (UUID app)
              (coolify.BuildImageReference (Image app) latestTag)) as [err|] eqn:Hupd.
  { intros Hrun; inversion Hrun; subst; clear Hrun. right. split; [reflexivity|].
    right. split; [reflexivity|]. eexists. split; [exact Hallowed|]. left.
    cbn. rewrite HtrC, <- !app_assoc. cbn [List.app]. repeat split; auto; discriminate. }
  destruct (wRestartApplication world (S (S (S (steps sC)))) (UUID app))
    as [err|] eqn:Hrst.
  { intros Hrun; inversion Hrun; subst; clear Hrun. right. split; [reflexivity|].
    right. split; [reflexivity|]. eexists. split; [exact Hallowed|]. right.
    cbn. rewrite HtrC, <- !app_assoc. cbn [List.app]. split; [reflexivity|].
    left. repeat split; auto; discriminate. }
  intros Hrun; inversion Hrun; subst; clear Hrun. right. split; [reflexivity|].
  right. split; [reflexivity|]. eexists. split; [exact Hallowed|]. right.
  unfold restartedState, updatedState. rewrite Hdec.
  unfold UpdateApplication, RestartApplication, timeNow, interact.
  cbn. rewrite HtrC, <- !app_assoc. cbn [List.app]. split; [reflexivity|].
  right. split; [reflexivity|]. rewrite HluC. repeat split; auto.
Qed.


Lemma restartsFollowUpdates_any (prev : option Event) (evs : list Event) :
  restartsFollowUpdates None evs = true -> restartsFollowUpdates prev evs = true.
Proof.
  destruct evs as [|e evs]; [reflexivity|]. cbn [restartsFollowUpdates].
  destruct e; auto. discriminate.
Qed.

Lemma restartsFollowUpdates_app (prev : option Event) (evs evs' : list Event) :
  restartsFollowUpdates prev evs = true ->
  restartsFollowUpdates None evs' = true ->
  restartsFollowUpdates prev (evs ++ evs')%list = true.
Proof.
  revert prev. induction evs as [|e evs IH]; intros prev H H'.
  - apply restartsFollowUpdates_any. exact H'.
  - rewrite <- app_comm_cons. cbn [restartsFollowUpdates] in *.
    apply andb_true_iff in H as [He Hevs]. rewrite He. cbn. auto.
Qed.

Lemma keeps_emit (s0 : State) (apps : list AppConfig) (s s' : State)
    (evs : list Event) :
  keeps s0 apps s ->
  config s' = config s -> dryRun s' = dryRun s -> (steps s <= steps s')%nat ->
  (dryRun s0 = true -> lastUpdates s' = lastUpdates s) ->
  trace s' = (trace s ++ evs)%list ->
  Forall (safeEvent (dryRun s0) apps) evs ->
  restartsFollowUpdates None evs = true ->
  keeps s0 apps s'.
Proof.
  intros (Hc & Hd & Hs & Hl & evs0 & Ht & Hsafe & Hr) Hc' Hd' Hs' Hl' Ht' Hsafe' Hr'.
  unfold keeps. repeat split; try congruence; try lia.
  - intros H. rewrite Hl', Hl; auto.
  - exists (evs0 ++ evs)%list. rewrite Ht', Ht, <- app_assoc.
    repeat split; [apply Forall_app; auto | apply restartsFollowUpdates_app; auto].
Qed.

Lemma keeps_iteration (s0 : State) (apps : list AppConfig) (n i : Z)
    (app : AppConfig) (s : State) :
  In app apps -> keeps s0 apps s -> keeps s0 apps (afterIteration world n i app s).
Proof.
  intros Hin Hk.
  assert (Hstep : keeps s0 apps (snd (checkAndUpdateApp world app s))).
  { destruct (checkAndUpdateApp_outcome world app s) as (Hc & Hd & _ & Hs & _).
    pose proof Hk as (Hc0 & Hd0 & Hs0 & _).
    destruct (checkAndUpdateApp_shape app s)
      as [(Ht & _ & Hl & _)
         |(_ & [(Ht & Hl & _)
               |(Hdry & newImage & Hallowed
                 & [(Ht & _ & _ & Hl)|(Ht & Hcase)])])].
    - eapply keeps_emit; [exact Hk | exact Hc | exact Hd | lia | intros _; exact Hl
                         | exact Ht | repeat constructor | reflexivity].
    - eapply keeps_emit; [exact Hk | exact Hc | exact Hd | lia | intros _; exact Hl
                         | exact Ht | repeat constructor | reflexivity].
    - eapply keeps_emit; [exact Hk | exact Hc | exact Hd | lia | intros _; exact Hl
                         | exact Ht | | reflexivity].
      do 2 (constructor; [exact I|]). constructor; [|constructor].
      cbn. split; [congruence|]. exists app. auto.
    - eapply keeps_emit; [exact Hk | exact Hc | exact Hd | lia | | exact Ht | | ].
      + intros H. rewrite <- Hd0 in H. congruence.
      + do 2 (constructor; [exact I|]).
        constructor; [|constructor; [cbn; congruence | constructor]].
        cbn. split; [congruence|]. exists app. auto.
      + cbn. rewrite String.eqb_refl. reflexivity. }
  unfold afterIteration.
  eapply keeps_emit; [exact Hstep | reflexivity | reflexivity | cbn; lia
                     | reflexivity | reflexivity | | ].
  - unfold loopTail. destruct (fst _); [|destruct (i <? n - 1)]; repeat constructor.
  - unfold loopTail. destruct (fst _); [|destruct (i <? n - 1)]; reflexivity.
Qed.

Lemma keeps_checkLoop (s0 : State) (apps : list AppConfig) (n : Z)
    (rest : list AppConfig) (i : Z) (s : State) :
  (forall app, In app rest -> In app apps) ->
  keeps s0 apps s -> keeps s0 apps (snd (checkLoop world n i rest s)).
Proof.
  revert i s. induction rest as [|a rest IH]; intros i s Hin Hk; [exact Hk|].
  rewrite checkLoop_cons. apply IH.
  - intros b Hb. apply Hin. right. exact Hb.
  - apply keeps_iteration; [apply Hin; left; reflexivity | exact Hk].
Qed.

(** The result of discovery at the head of a cycle. *)
Lemma getApplicationsToCheck_run (s : State) :
  getApplicationsToCheck world (cycleStart world s)
  = match Apps (config s) with
    | _ :: _ => (OK (Apps (config s)), cycleStart world s)
    | [] =>
        (match wListApplications world (S (steps s)) with
         | OK coolifyApps => OK (discovered coolifyApps)
         | Err err => Err ("listing Coolify applications: " ++ err)
         end,
         advance [EvListApplications] (cycleStart world s))
    end.
Proof.
  unfold getApplicationsToCheck, ListApplications, interact, get, mbind, M_bind,
    mret, M_ret. cbn.
  destruct (Apps (config s)); [|reflexivity].
  change (steps (cycleStart world s)) with (S (steps s)).
  destruct (wListApplications world (S (steps s))); reflexivity.
Qed.

Lemma checkApplications_failed (s sA : State) (err : string) :
  getApplicationsToCheck world (cycleStart world s) = (Err err, sA) ->
  checkApplications world s = (Some ("getting applications: " ++ err), sA).
Proof.
  intros H. unfold checkApplications, timeNow, interact, modify.
  unfold mbind at 1. unfold M_bind at 1. cbn beta iota.
  unfold mbind at 1. unfold M_bind at 1. cbn beta iota.
  unfold mbind at 1. unfold M_bind at 1.
  change (setLastCheck (wNow world (steps s)) (advance [] s)) with (cycleStart world s).
  rewrite H. reflexivity.
Qed.

Lemma keeps_checkApplications (s : State) :
  keeps s (cycleApps world s) (snd (checkApplications world s)).
Proof.
  assert (Hstart : forall apps, keeps s apps (cycleStart world s)).
  { intros apps. unfold keeps. cbn. repeat split; auto.
    exists []. rewrite app_nil_r. repeat split; auto. }
  assert (Hlist : forall apps,
             keeps s apps (advance [EvListApplications] (cycleStart world s))).
  { intros apps. eapply keeps_emit; [apply Hstart | reflexivity | reflexivity
      | cbn; lia | reflexivity | reflexivity | repeat constructor | reflexivity]. }
  unfold cycleApps.
  destruct (getApplicationsToCheck world (cycleStart world s)) as [[apps|err] sA] eqn:Hget.
  - rewrite (checkApplications_unfold world s sA apps Hget). cbn [fst snd].
    assert (HA : keeps s apps sA).
    { rewrite getApplicationsToCheck_run in Hget.
      destruct (Apps (config s)); inversion Hget; subst; auto. }
    pose proof (keeps_checkLoop s apps (Z.of_nat (length apps)) apps 0 sA
                  (fun _ H => H) HA) as HL.
    eapply keeps_emit; [exact HL | reflexivity | reflexivity | cbn; lia
      | reflexivity | reflexivity | constructor | reflexivity].
  - rewrite (checkApplications_failed s sA err Hget). cbn [fst snd].
    rewrite getApplicationsToCheck_run in Hget.
    destruct (Apps (config s)); inversion Hget; subst; auto.
Qed.

Lemma cycleEvents_trace (s : State) :
  trace (snd (checkApplications world s)) = (trace s ++ cycleEvents world s)%list.
Proof.
  destruct (keeps_checkApplications s) as (_ & _ & _ & _ & evs & Ht & _).
  unfold cycleEvents. rewrite Ht, drop_app_length. reflexivity.
Qed.

Lemma cycleEvents_safe (s : State) :
  Forall (safeEvent (dryRun s) (cycleApps world s)) (cycleEvents world s)
  /\ restartsFollowUpdates None (cycleEvents world s) = true.
Proof.
  destruct (keeps_checkApplications s) as (_ & _ & _ & _ & evs & Ht & Hsafe & Hr).
  rewrite cycleEvents_trace in Ht. apply app_inv_head in Ht. subst evs. auto.
Qed.

(** Where an update of one check comes from. *)
Lemma checkAndUpdateApp_update_origin (app : AppConfig) (s : State) :
  exists evs,
    trace (snd (checkAndUpdateApp world app s)) = (trace s ++ evs)%list
    /\ forall uuid newImage,
         In (EvUpdateApplication uuid newImage) evs ->
         uuid = UUID app
         /\ allowedUpdate world app s newImage
         /\ exists rest,
              evs = EvGetApplication (UUID app)
                    :: EvGetLatestTag (Image app) (ExcludePatterns (Defaults (config s)))
                    :: EvUpdateApplication (UUID app) newImage :: rest.
Proof.
  destruct (checkAndUpdateApp_shape app s)
    as [(Ht & _)
       |(_ & [(Ht & _)
             |(_ & image & Hallowed & [(Ht & _)|(Ht & _)])])];
    (eexists; split; [exact Ht|]); intros uuid newImage Hin; cbn in Hin.
  - destruct Hin as [H|[]]. discriminate H.
  - destruct Hin as [H|[H|[]]]; discriminate H.
  - destruct Hin as [H|[H|[H|[]]]]; try discriminate H.
    inversion H; subst. repeat split; auto. eexists. reflexivity.
  - destruct Hin as [H|[H|[H|[H|[]]]]]; try discriminate H.
    inversion H; subst. repeat split; auto. eexists. reflexivity.
Qed.

(** Where an update of the loop comes from: the check of one application
    of the list, started in the state the loop had reached. *)
Lemma checkLoop_update_origin (n : Z) (rest : list AppConfig) (i : Z) (s : State)
    (evs : list Event) (uuid newImage : string) :
  trace (snd (checkLoop world n i rest s)) = (trace s ++ evs)%list ->
  In (EvUpdateApplication uuid newImage) evs ->
  exists pre app post,
    rest = (pre ++ app :: post)%list /\ UUID app = uuid
    /\ let s1 := snd (checkLoop world n i pre s) in
       allowedUpdate world app s1 newImage
       /\ exists more,
            trace (snd (checkAndUpdateApp world app s1))
            = (trace s1
               ++ EvGetApplication uuid
               :: EvGetLatestTag (Image app) (ExcludePatterns (Defaults (config s1)))
               :: EvUpdateApplication uuid newImage :: more)%list.
Proof.
  revert i s evs. induction rest as [|a rest IH]; intros i s evs Htr Hin.
  - cbn in Htr. rewrite <- (app_nil_r (trace s)) in Htr at 1.
    apply app_inv_head in Htr. subst evs. destruct Hin.
  - rewrite checkLoop_cons in Htr.
    destruct (checkAndUpdateApp_update_origin a s) as (evsA & HtrA & Horigin).
    destruct (checkLoop_visits world n (i + 1) rest (afterIteration world n i a s))
      as (evs2 & Htr2 & _).
    assert (Hafter : trace (afterIteration world n i a s)
                     = (trace s ++ evsA
                          ++ loopTail n i a (fst (checkAndUpdateApp world a s)))%list).
    { unfold afterIteration, emit. cbn [trace]. rewrite HtrA, <- app_assoc. reflexivity. }
    rewrite Htr2, Hafter, <- !app_assoc in Htr. apply app_inv_head in Htr. subst evs.
    apply in_app_or in Hin as [Hin | Hin].
    + destruct (Horigin uuid newImage Hin) as (-> & Hallowed & more & ->).
      exists [], a, rest. cbn [List.app checkLoop]. split; [reflexivity|].
      split; [reflexivity|]. cbn [mret M_ret snd]. split; [exact Hallowed|].
      exists more. exact HtrA.
    + apply in_app_or in Hin as [Hin | Hin].
      * exfalso. unfold loopTail in Hin.
        destruct (fst (checkAndUpdateApp world a s)); [|destruct (i <? n - 1)];
          cbn in Hin; intuition discriminate.
      * destruct (IH (i + 1) (afterIteration world n i a s) evs2 Htr2 Hin)
          as (pre & app & post & -> & Huuid & Hallowed & more & Hmore).
        exists (a :: pre), app, post. rewrite <- app_comm_cons.
        split; [reflexivity|]. split; [exact Huuid|].
        rewrite checkLoop_cons. split; [exact Hallowed|]. exists more. exact Hmore.
Qed.

(** Property X9.  What a cycle deploys.  Every call a check cycle makes to
    change the image of an application is made outside dry-run mode, in
    the check of one application of the cycle (configured, or discovered),
    right after the fetch and the registry lookup of that check; and the
    image is the image of that application at the tag the registry
    answered to that lookup, a tag [IsUpdateAllowed] allows under the
    application's effective policy and pin against the tag of the
    application the deployment controller answered to that fetch. *)
Theorem checkApplications_deploys_only_allowed (s : State) (uuid newImage : string) :
  In (EvUpdateApplication uuid newImage) (cycleEvents world s) ->
  dryRun s = false
  /\ exists pre app post,
       cycleApps world s = (pre ++ app :: post)%list /\ UUID app = uuid
       /\ let s1 := checkStart world s pre in
          config s1 = config s
          /\ allowedUpdate world app s1 newImage
          /\ exists more,
               trace (snd (checkAndUpdateApp world app s1))
               = (trace s1
                  ++ EvGetApplication uuid
                  :: EvGetLatestTag (Image app) (ExcludePatterns (Defaults (config s)))
                  :: EvUpdateApplication uuid newImage :: more)%list.
Proof.
  intros Hin. split.
  { destruct (cycleEvents_safe s) as [Hsafe _].
    rewrite List.Forall_forall in Hsafe. exact (proj1 (Hsafe _ Hin)). }
  pose proof (cycleEvents_trace s) as Hcycle.
  pose proof (getApplicationsToCheck_run s) as Hrun.
  unfold checkStart, cycleApps.
  destruct (getApplicationsToCheck world (cycleStart world s)) as [[apps|err] sA] eqn:Hget.
  - cbn [fst snd].
    assert (HsA : config sA = config s
                  /\ exists before, trace sA = (trace s ++ before)%list
                                    /\ ~ In (EvUpdateApplication uuid newImage) before).
    { destruct (Apps (config s)); inversion Hrun; subst sA; cbn; split; auto.
      - exists [EvListApplications]. rewrite app_nil_r. split; [reflexivity|].
        intros [H|[]]. discriminate H.
      - exists []. rewrite !app_nil_r. split; [reflexivity | intros []]. }
    destruct HsA as (Hcfg & before & Hbefore & Hnot).
    destruct (checkLoop_visits world (Z.of_nat (length apps)) 0 apps sA)
      as (evs & Htr & _).
    rewrite (checkApplications_unfold world s sA apps Hget) in Hcycle.
    cbn [snd advance trace] in Hcycle.
    rewrite app_nil_r, Htr, Hbefore, <- app_assoc in Hcycle.
    apply app_inv_head in Hcycle. rewrite <- Hcycle in Hin.
    apply in_app_or in Hin as [Hin | Hin]; [contradiction|].
    destruct (checkLoop_update_origin _ _ _ _ _ _ _ Htr Hin)
      as (pre & app & post & -> & Huuid & Hallowed & more & Hmore).
    exists pre, app, post. split; [reflexivity|]. split; [exact Huuid|].
    assert (Hc1 : config (snd (checkLoop world
                     (Z.of_nat (length (pre ++ app :: post)%list)) 0 pre sA)) = config s).
    { rewrite (proj1 (checkLoop_frame world _ 0 pre sA)). exact Hcfg. }
    cbn zeta. split; [exact Hc1|]. split; [exact Hallowed|].
    exists more. rewrite <- Hc1. exact Hmore.
  - exfalso. rewrite (checkApplications_failed s sA err Hget) in Hcycle.
    cbn [snd] in Hcycle.
    destruct (Apps (config s)); inversion Hrun; subst sA.
    cbn in Hcycle. rewrite app_nil_r in Hcycle.
    apply app_inv_head in Hcycle. rewrite <- Hcycle in Hin.
    destruct Hin as [H|[]]. discriminate H.
Qed.

(** Property X10.  Dry run.  In dry-run mode a check cycle makes no call
    that changes a deployment, neither an update of the image nor a
    restart, and leaves the cooldown map as it found it. *)
Theorem checkApplications_dry_run (s : State) :
  dryRun s = true ->
  forallb (fun e => negb (deploys e)) (cycleEvents world s) = true
  /\ lastUpdates (snd (checkApplications world s)) = lastUpdates s.
Proof.
  intros Hdry. split.
  - destruct (cycleEvents_safe s) as [Hsafe _].
    apply forallb_forall. intros e He.
    rewrite List.Forall_forall in Hsafe. specialize (Hsafe e He).
    destruct e; cbn in *; try reflexivity.
    + destruct Hsafe as [H _]. congruence.
    + congruence.
  - destruct (keeps_checkApplications s) as (_ & _ & _ & Hl & _). auto.
Qed.

(** Property X11.  A restart is the second half of an update.  In the
    events of a check cycle, every restart of an application comes
    immediately after an update of the image of the same application; the
    cycle never restarts an application on its own. *)
Theorem checkApplications_restart_follows_update (s : State) :
  restartsFollowUpdates None (cycleEvents world s) = true.
Proof. apply cycleEvents_safe. Qed.

(** Property X12.  When a cycle fails.  The error of a check cycle is the
    error of auto-discovery and nothing else: with applications configured
    the cycle returns no error, whatever happens to each of them; with none
    configured it returns an error exactly when listing the applications of
    the deployment controller fails. *)
Theorem checkApplications_error (s : State) :
  fst (checkApplications world s)
  = match Apps (config s) with
    | _ :: _ => None
    | [] =>
        match wListApplications world (S (steps s)) with
        | OK _ => None
        | Err err =>
            Some ("getting applications: listing Coolify applications: " ++ err)
        end
    end.
Proof.
  pose proof (getApplicationsToCheck_run s) as Hget.
  destruct (Apps (config s)) as [|a l].
  - destruct (wListApplications world (S (steps s))) as [coolifyApps|err].
    + rewrite (checkApplications_unfold world s _ _ Hget). reflexivity.
    + rewrite (checkApplications_failed s _ _ Hget). reflexivity.
  - rewrite (checkApplications_unfold world s _ _ Hget). reflexivity.
Qed.

(** Property X13.  The cooldown gate.  Once the deployment controller has
    answered the fetch of an application, the registry is asked exactly when
    the application is not cooling: while the time since its last update is
    below the cooldown, the check ends after the fetch, without error and
    without touching the state; otherwise the next call is the registry
    lookup for the application's image with the configured exclusions. *)
Theorem checkAndUpdateApp_cooldown_gate (app : AppConfig) (s : State)
    (currentApp : CoolifyApplication) :
  wGetApplication world (steps s) (UUID app) = OK currentApp ->
  (cooling world app s = true ->
   checkAndUpdateApp world app s
   = (None, advance [] (advance [EvGetApplication (UUID app)] s)))
  /\ (cooling world app s = false ->
      exists evs,
        trace (snd (checkAndUpdateApp world app s))
        = (trace s ++ EvGetApplication (UUID app)
             :: EvGetLatestTag (Image app) (ExcludePatterns (Defaults (config s)))
             :: evs)%list).
Proof.
  intros Hget. split; intros Hcool.
  - unfold checkAndUpdateApp.
    unfold mbind at 1. unfold M_bind at 1.
    unfold GetApplication at 1. unfold interact at 1. rewrite Hget.
    unfold mbind at 1. unfold M_bind at 1. rewrite inCooldown_run, Hcool.
    unfold cooling in Hcool.
    destruct (lastUpdates s !! UUID app); [reflexivity | discriminate].
  - destruct (checkAndUpdateApp_shape app s)
      as [(_ & _ & _ & Hnone & Hsome)
         |(_ & [(Ht & _)
               |(_ & newImage & _ & [(Ht & _)|(Ht & _)])])].
    + destruct (fst (checkAndUpdateApp world app s)).
      * destruct Hsome as [err Herr]; congruence.
      * rewrite Hnone in Hcool; [discriminate | reflexivity].
    + eexists. exact Ht.
    + eexists. exact Ht.
    + eexists. exact Ht.
Qed.

(** Property X14.  When the cooldown starts.  One check of an application
    writes the cooldown map only in the run in which, outside dry-run
    mode, it made both calls of an update, the new image (one the engine
    allowed in this check) and the restart, and both answered without
    error; then the check returns no error and the entry of the application
    is the reading of the clock taken right after the restart.  In every
    other run, failed update and failed restart included, the map is left
    as it was. *)
Theorem checkAndUpdateApp_records_update (app : AppConfig) (s : State) :
  let r := checkAndUpdateApp world app s in
  lastUpdates (snd r) = lastUpdates s
  \/ (fst r = None /\ dryRun s = false
      /\ exists newImage,
           allowedUpdate world app s newImage
           /\ fst (UpdateApplication world (UUID app) newImage
                     (decisionState world app s)) = None
           /\ fst (RestartApplication world (UUID app)
                     (updatedState world app newImage s)) = None
           /\ trace (snd r)
              = (trace s
                 ++ [EvGetApplication (UUID app);
                     EvGetLatestTag (Image app) (ExcludePatterns (Defaults (config s)));
                     EvUpdateApplication (UUID app) newImage;
                     EvRestartApplication (UUID app)])%list
           /\ lastUpdates (snd r)
              = <[UUID app := fst (timeNow world (restartedState world app newImage s))]>
                  (lastUpdates s)).
Proof.
  intros r. subst r.
  destruct (checkAndUpdateApp_shape app s)
    as [(_ & _ & Hl & _)
       |(_ & [(_ & Hl & _)
             |(Hdry & newImage & Hallowed
               & [(_ & _ & _ & Hl)
                 |(Ht & [(_ & _ & Hl)|(Hnone & Hu & Hr & Hl)])])])];
    auto.
  right. repeat split; auto. exists newImage. auto.
Qed.

End Facts.

Import example scenario.

(** Property X9 at a cycle that updates [abc-123] from [1.2.3] to [1.2.4]. *)
Lemma checkApplications_deploys_only_allowed_witness :
  dryRun (fresh [app1; app2]) = false
  /\ exists pre app post,
       cycleApps (calm "1.2.4") (fresh [app1; app2]) = (pre ++ app :: post)%list
       /\ UUID app = "abc-123"
       /\ let s1 := checkStart (calm "1.2.4") (fresh [app1; app2]) pre in
          config s1 = config (fresh [app1; app2])
          /\ allowedUpdate (calm "1.2.4") app s1 "n8nio/n8n:1.2.4"
          /\ exists more,
               trace (snd (checkAndUpdateApp (calm "1.2.4") app s1))
               = (trace s1
                  ++ EvGetApplication "abc-123"
                  :: EvGetLatestTag (Image app)
                       (ExcludePatterns (Defaults (config (fresh [app1; app2]))))
                  :: EvUpdateApplication "abc-123" "n8nio/n8n:1.2.4" :: more)%list.
Proof.
  apply checkApplications_deploys_only_allowed. vm_compute. auto 10.
Defined.

(** Property X10 at the same cycle, rehearsed. *)
Lemma checkApplications_dry_run_witness :
  forallb (fun e => negb (deploys e))
          (cycleEvents (calm "1.2.4") (rehearsal [app1; app2])) = true
  /\ lastUpdates (snd (checkApplications (calm "1.2.4") (rehearsal [app1; app2])))
     = lastUpdates (rehearsal [app1; app2]).
Proof.
  apply checkApplications_dry_run. reflexivity.
Defined.

(** Property X13 at an application updated one second ago. *)
Lemma checkAndUpdateApp_cooldown_gate_witness :
  checkAndUpdateApp (calm "1.2.4") app1 (justUpdated [app1])
  = (None, advance [] (advance [EvGetApplication "abc-123"] (justUpdated [app1]))).
Proof.
  refine (proj1 (checkAndUpdateApp_cooldown_gate (calm "1.2.4") app1
                   (justUpdated [app1])
                   {| aUUID := "abc-123"; aName := "app";
                      DockerImage := "image:1.2.3"; Status := "running" |}
                   eq_refl) _).
  vm_compute. reflexivity.
Defined.

End CycleFacts.

(** ** Integers written and read back *)

Module FormatFacts.
Import Go.

Lemma string_of_uint_digits (d : Decimal.uint) :
  all_chars isDigit (NilEmpty.string_of_uint d) = true.
Proof. induction d; cbn [NilEmpty.string_of_uint all_chars]; auto. Qed.

Lemma decimalValue_of_uint_acc (d : Decimal.uint) (acc : positive) :
  decimalValue (Z.pos acc) (NilEmpty.string_of_uint d)
  = Z.pos (Pos.of_uint_acc d acc).
Proof.
  revert acc. induction d; intros acc;
    cbn [NilEmpty.string_of_uint decimalValue Pos.of_uint_acc];
    [reflexivity | rewrite <- IHd; f_equal; vm_compute byte_of; lia ..].
Qed.

Lemma decimalValue_of_uint (d : Decimal.uint) :
  decimalValue 0 (NilEmpty.string_of_uint d) = Z.of_N (Pos.of_uint d).
Proof.
  induction d; cbn [NilEmpty.string_of_uint decimalValue Pos.of_uint];
    [reflexivity | exact IHd
     | cbn [Z.of_N]; rewrite <- decimalValue_of_uint_acc; reflexivity ..].
Qed.

Lemma formatInt_pos (p : positive) :
  exists c r, NilZero.string_of_uint (Pos.to_uint p) = String c r
              /\ isDigit c = true /\ all_chars isDigit r = true
              /\ decimalValue 0 (String c r) = Z.pos p.
Proof.
  pose proof (Unsigned.to_uint_nonnil p) as Hnil.
  pose proof (string_of_uint_digits (Pos.to_uint p)) as Hd.
  pose proof (decimalValue_of_uint (Pos.to_uint p)) as Hv.
  rewrite Unsigned.of_to in Hv. cbn [Z.of_N] in Hv.
  assert (Hs : NilZero.string_of_uint (Pos.to_uint p)
               = NilEmpty.string_of_uint (Pos.to_uint p)).
  { destruct (Pos.to_uint p); [contradiction|reflexivity ..]. }
  rewrite Hs.
  destruct (NilEmpty.string_of_uint (Pos.to_uint p)) as [|c r] eqn:E.
  - cbn in Hv. discriminate.
  - cbn [all_chars] in Hd. apply andb_true_iff in Hd as [Hc Hr].
    exists c, r. auto.
Qed.

Lemma Atoi_unsigned (c : ascii) (r : string) :
  isDigit c = true -> all_chars isDigit r = true ->
  decimalValue 0 (String c r) <= maxInt ->
  Atoi (String c r) = (decimalValue 0 (String c r), true).
Proof.
  intros Hc Hr Hle. unfold Atoi.
  assert (Hsign : match String c r with
                  | String "-" r0 => (true, r0)
                  | String "+" r0 => (false, r0)
                  | _ => (false, String c r)
                  end = (false, String c r)).
  { destruct c as [[] [] [] [] [] [] [] []]; try reflexivity; discriminate Hc. }
  rewrite Hsign. cbn [all_chars]. rewrite Hc, Hr. cbn [andb negb].
  unfold maxInt in Hle.
  destruct (Z.leb_spec (2 ^ (intSize - 1)) (decimalValue 0 (String c r))); [lia|].
  reflexivity.
Qed.

Lemma Atoi_negative (c : ascii) (r : string) :
  isDigit c = true -> all_chars isDigit r = true ->
  decimalValue 0 (String c r) <= - minInt ->
  Atoi (String "-" (String c r)) = (- decimalValue 0 (String c r), true).
Proof.
  intros Hc Hr Hle. unfold Atoi. cbn [all_chars]. rewrite Hc, Hr. cbn [andb negb].
  unfold minInt in Hle.
  destruct (Z.ltb_spec (2 ^ (intSize - 1)) (decimalValue 0 (String c r))); [lia|].
  reflexivity.
Qed.

(** The decimal text of an [int] reads back as that [int]. *)
Lemma Atoi_formatInt (n : Z) :
  minInt <= n <= maxInt -> Atoi (formatInt n) = (n, true).
Proof.
  intros Hn. unfold formatInt. destruct n as [|p|p]; cbn [Z.to_int NilZero.string_of_int].
  - reflexivity.
  - destruct (formatInt_pos p) as (c & r & -> & Hc & Hr & Hv).
    rewrite Atoi_unsigned; auto; rewrite Hv; [reflexivity | lia].
  - destruct (formatInt_pos p) as (c & r & -> & Hc & Hr & Hv).
    rewrite Atoi_negative; auto; rewrite Hv; [reflexivity | lia].
Qed.

End FormatFacts.

(** ** Discovery and the sample configuration *)

Module DiscoverFacts.
Import Go types semver coolify watcher spec sample.
Import CompareFacts ParseFacts DecideFacts ImageFacts FormatFacts.

Lemma ParseVersion_Major_range (s : string) (ver : Version) :
  ParseVersion s = Some ver -> 0 <= Major ver <= maxInt.
Proof.
  unfold ParseVersion.
  destruct (FindStringSubmatch s) as [[[[[m1 m2] m3] m4] m5]|] eqn:Hm; [|discriminate].
  intros H; inversion H; subst; clear H. cbn [Major].
  destruct (FindStringSubmatch_sound _ _ _ _ _ _ Hm) as [(H1 & _) _].
  rewrite (Atoi_digits m1 H1). cbn [fst].
  unfold isDigits in H1. apply andb_true_iff in H1 as [_ H1].
  pose proof (written_nonneg m1 H1).
  assert (0 <= maxInt) by (vm_compute; discriminate). lia.
Qed.

(** Property X15.  What auto-discovery watches.  An application is handed
    to the check loop exactly when it comes from an application the
    deployment controller listed whose reference ends in a tag other than
    [latest]: the tag is the text after the last colon of the reference and
    holds no slash, the image is the text before that colon.  It takes the
    name and the uuid listed, and neither policy nor pin.  A listed
    application without a tag (no colon, or only the colon of a port) or
    with the tag [latest] gives the loop nothing to check. *)
Theorem discovered_apps (coolifyApps : list CoolifyApplication) (app : AppConfig) :
  In app (discovered coolifyApps) <->
  exists coolifyApp tag,
    In coolifyApp coolifyApps
    /\ DockerImage coolifyApp = BuildImageReference (Image app) tag
    /\ Contains tag ":" = false /\ Contains tag "/" = false /\ tag <> "latest"
    /\ Name app = aName coolifyApp /\ UUID app = aUUID coolifyApp
    /\ Policy app = "" /\ Pin app = "".
Proof.
  unfold discovered. split.
  - intros Hin. apply in_map_iff in Hin as (c & <- & Hc).
    apply filter_In in Hc as [Hc Htag].
    apply negb_true_iff in Htag. apply String.eqb_neq in Htag.
    exists c, (snd (ExtractImageAndTag (DockerImage c))). cbn.
    revert Htag. unfold ExtractImageAndTag, BuildImageReference.
    destruct (cutLast (DockerImage c) ":") as [[a b]|] eqn:Hcut; cbn.
    + destruct (cutLast_Some _ _ _ _ Hcut) as [Hs Hb].
      destruct (Contains b "/") eqn:Hslash; cbn;
        [intros H; contradiction H; reflexivity|].
      intros Htag. repeat split; auto.
    + intros H; contradiction H; reflexivity.
  - intros (c & tag & Hc & Himage & Hcolon & Hslash & Htag & Hname & Huuid & Hpol & Hpin).
    assert (E : ExtractImageAndTag (DockerImage c) = (Image app, tag)).
    { rewrite Himage. unfold ExtractImageAndTag, BuildImageReference.
      change (Image app ++ ":" ++ tag) with (Image app ++ String ":" tag).
      rewrite (cutLast_app (Image app) tag ":" Hcolon), Hslash. reflexivity. }
    apply in_map_iff. exists c. split.
    + rewrite E. cbn. destruct app; cbn in *. congruence.
    + apply filter_In. split; [exact Hc|]. rewrite E. cbn.
      apply negb_true_iff. apply String.eqb_neq. exact Htag.
Qed.

(** Property X16.  The sample configuration lists the applications that
    auto-discovery would check, in the same order, with the same name, uuid
    and image and no policy; only the suggested pins are added. *)
Theorem sampleApps_discovered (coolifyApps : list CoolifyApplication) :
  List.map (fun app => {| Name := Name app; UUID := UUID app; Image := Image app;
                          Policy := Policy app; Pin := "" |})
           (sampleApps coolifyApps)
  = discovered coolifyApps.
Proof.
  unfold discovered. induction coolifyApps as [|c rest IH]; [reflexivity|].
  cbn [sampleApps List.filter].
  destruct (String.eqb (snd (ExtractImageAndTag (DockerImage c))) "latest"); cbn.
  - exact IH.
  - rewrite IH. reflexivity.
Qed.

(** The pins the loop of [GenerateSampleConfig] suggests. *)
Lemma sampleApps_pin (coolifyApps : list CoolifyApplication) (app : AppConfig) :
  In app (sampleApps coolifyApps) -> Pin app <> "" ->
  exists coolifyApp currentVer,
    In coolifyApp coolifyApps /\ UUID app = aUUID coolifyApp
    /\ ParseVersion (snd (ExtractImageAndTag (DockerImage coolifyApp))) = Some currentVer
    /\ Atoi (Pin app) = (Major currentVer, true)
    /\ forall latestVer,
         checkPin latestVer (Pin app) = None <-> Major latestVer = Major currentVer.
Proof.
  induction coolifyApps as [|c rest IH]; [intros []|].
  cbn [sampleApps].
  destruct (String.eqb (snd (ExtractImageAndTag (DockerImage c))) "latest").
  { intros Hin Hpin. destruct (IH Hin Hpin) as (c' & ver & Hc' & H).
    exists c', ver. split; [right; exact Hc' | exact H]. }
  intros [<- | Hin] Hpin.
  2:{ destruct (IH Hin Hpin) as (c' & ver & Hc' & H).
      exists c', ver. split; [right; exact Hc' | exact H]. }
  cbn in Hpin |- *. unfold suggestedPin in *.
  destruct (Contains (fst (ExtractImageAndTag (DockerImage c))) "postgres");
    [|contradiction Hpin; reflexivity].
  destruct (ParseVersion (snd (ExtractImageAndTag (DockerImage c)))) as [ver|] eqn:Hver;
    [|contradiction Hpin; reflexivity].
  pose proof (ParseVersion_Major_range _ _ Hver) as Hrange.
  assert (Hatoi : Atoi (formatInt (Major ver)) = (Major ver, true)).
  { apply Atoi_formatInt.
    assert (minInt <= 0) by (vm_compute; discriminate). lia. }
  exists c, ver. repeat split; auto.
  - intros H. apply checkPin_passes in H as [E | (n & Hn & Hm)]; [destruct (Hpin E)|].
    cbn [Pin] in Hn. rewrite Hatoi in Hn. congruence.
  - intros H. apply checkPin_passes. right. exists (Major ver). auto.
Qed.

(** Property X17.  The pins of the sample configuration.  A pin that
    [GenerateSampleConfig] suggests for an application is the major of the
    version the application is deployed at, written so that [strconv.Atoi]
    reads it back: the pin block of [IsUpdateAllowed] lets the versions of
    that major through, and no other. *)
Theorem GenerateSampleConfig_pins (world : World) (s : State) (cfg : Config)
    (app : AppConfig) :
  fst (GenerateSampleConfig world s) = OK cfg ->
  In app (Apps cfg) -> Pin app <> "" ->
  exists coolifyApps coolifyApp currentVer,
    wListApplications world (steps s) = OK coolifyApps
    /\ In coolifyApp coolifyApps /\ UUID app = aUUID coolifyApp
    /\ ParseVersion (snd (ExtractImageAndTag (DockerImage coolifyApp))) = Some currentVer
    /\ Atoi (Pin app) = (Major currentVer, true)
    /\ forall latestVer,
         checkPin latestVer (Pin app) = None <-> Major latestVer = Major currentVer.
Proof.
  unfold GenerateSampleConfig, DiscoverApps, ListApplications, interact, get,
    mbind, M_bind, mret, M_ret. cbn.
  destruct (wListApplications world (steps s)) as [coolifyApps|err]; cbn;
    [|discriminate].
  intros H; inversion H; subst; clear H. cbn [Apps].
  intros Hin Hpin.
  destruct (sampleApps_pin coolifyApps app Hin Hpin) as (c & ver & H).
  exists coolifyApps, c, ver. split; [reflexivity | exact H].
Qed.

Import example scenario.

(** Property X15 at the listing of the scenario: of the four applications
    listed, the one behind a registry with a port is handed over with the
    tag split at the last colon. *)
Lemma discovered_apps_witness :
  In {| Name := "n8n"; UUID := "abc-123";
        Image := "registry.example.com:5000/n8nio/n8n"; Policy := ""; Pin := "" |}
     (discovered listed).
Proof.
  apply (proj2 (discovered_apps listed _)).
  exists {| aUUID := "abc-123"; aName := "n8n";
            DockerImage := "registry.example.com:5000/n8nio/n8n:1.2.3";
            Status := "running" |}, "1.2.3".
  repeat split; try reflexivity; [cbn; auto | discriminate].
Defined.

(** Property X17 at the listing of the scenario: the database is pinned to
    its major, 17. *)
Lemma GenerateSampleConfig_pins_witness :
  exists coolifyApps coolifyApp currentVer,
    wListApplications (listing "1.2.4") 0%nat = OK coolifyApps
    /\ In coolifyApp coolifyApps /\ "def-456" = aUUID coolifyApp
    /\ ParseVersion (snd (ExtractImageAndTag (DockerImage coolifyApp))) = Some currentVer
    /\ Atoi "17" = (Major currentVer, true)
    /\ forall latestVer,
         checkPin latestVer "17" = None <-> Major latestVer = Major currentVer.
Proof.
  apply (GenerateSampleConfig_pins (listing "1.2.4") (fresh [])
           {| Coolify := Coolify (cfg []); Defaults := sampleDefaults;
              Apps := sampleApps listed |}
           {| Name := "postgres"; UUID := "def-456"; Image := "postgres";
              Policy := ""; Pin := "17" |}).
  - reflexivity.
  - vm_compute. auto.
  - discriminate.
Defined.

End DiscoverFacts.

(** ** Loading the configuration, and starting *)

Module LoadFacts.
Import Go types spec layers cmd example scenario CompareFacts ConfigFacts.

Lemma isEmpty_false (s : string) : config.isEmpty s = false <-> s <> "".
Proof. destruct s; cbn; split; congruence. Qed.

Lemma isEmpty_true (s : string) : config.isEmpty s = true <-> s = "".
Proof. destruct s; cbn; split; congruence. Qed.

Section Compact.
Variable TrimSpace : string -> string.

Lemma parseCompactApp_checked (spec : string) (app : AppConfig) :
  config.parseCompactApp TrimSpace spec = OK app -> checked app.
Proof.
  intros Happ. pose proof (parseCompactApp_policy TrimSpace spec app Happ) as Hpol.
  revert Happ. unfold config.parseCompactApp.
  destruct (Split spec ":") as [|p0 [|p1 [|p2 more]]]; try discriminate.
  destruct (config.isEmpty (TrimSpace p0)) eqn:H0; [discriminate|].
  destruct (config.isEmpty (TrimSpace p1)) eqn:H1; [discriminate|].
  destruct (config.isEmpty (TrimSpace p2)) eqn:H2; [discriminate|].
  apply isEmpty_false in H0, H1, H2.
  set (policyField := match more with
                      | p3 :: _ => if semver.nonEmpty p3 then Some (TrimSpace p3) else None
                      | [] => None
                      end).
  set (pinField := match more with
                   | _ :: p4 :: _ => if semver.nonEmpty p4 then Some (TrimSpace p4) else None
                   | _ => None
                   end).
  clearbody policyField pinField.
  destruct policyField as [policy|];
    [destruct (config.isKnownPolicy policy); [|discriminate]|];
    (destruct pinField as [pin|];
     [destruct (snd (Atoi pin)) eqn:Hpin; [|discriminate]|]);
    intros H; inversion H; subst; unfold checked; cbn in *; auto 10.
Qed.

Lemma parseSpecs_checked (appSpecs : list string) (acc apps : list AppConfig) :
  (forall app, In app acc -> checked app) ->
  config.parseSpecs TrimSpace appSpecs acc = OK apps ->
  forall app, In app apps -> checked app.
Proof.
  revert acc. induction appSpecs as [|spec rest IH]; intros acc Hacc; cbn.
  - intros H; inversion H; subst. exact Hacc.
  - destruct (config.isEmpty (TrimSpace spec)); [apply IH; exact Hacc|].
    destruct (config.parseCompactApp TrimSpace (TrimSpace spec)) as [a|e] eqn:Ha;
      [|discriminate].
    apply IH. intros app [Hin|Hin]%in_app_iff; [auto|].
    destruct Hin as [<-|[]]. exact (parseCompactApp_checked _ _ Ha).
Qed.

(** Property X18.  What the compact format accepts.  Every application
    that [parseCompactApps] returns has a name, a uuid and an image that are
    not empty, a policy that is absent or one of the four of the
    enumeration, and a pin that is absent or a number [strconv.Atoi] reads
    without error. *)
Theorem parseCompactApps_fields (appsStr : string) (apps : list AppConfig)
    (app : AppConfig) :
  config.parseCompactApps TrimSpace appsStr = OK apps -> In app apps ->
  Name app <> "" /\ UUID app <> "" /\ Image app <> ""
  /\ (Policy app = "" \/ knownPolicy (Policy app))
  /\ (Pin app = "" \/ snd (Atoi (Pin app)) = true).
Proof.
  unfold config.parseCompactApps. intros H Hin.
  exact (parseSpecs_checked _ [] apps (fun _ F => match F with end) H app Hin).
Qed.

End Compact.

Section Loaded.
Variable TrimSpace : string -> string.
Variable cronParse : string -> option string.
Variable ParseDuration : string -> option string.
Variable Getenv : string -> string.

Lemma Load_steps (decoded : option (result Config)) (cfg : Config) :
  config.Load TrimSpace cronParse ParseDuration Getenv decoded = OK cfg ->
  exists merged,
    config.loadFromEnv TrimSpace Getenv (fromFile decoded) = OK merged
    /\ config.validate cronParse ParseDuration (config.setDefaults merged) = OK cfg.
Proof.
  unfold config.Load, fromFile.
  destruct decoded as [[c|e]|]; try discriminate;
    (destruct (config.loadFromEnv TrimSpace Getenv _) as [merged|e] eqn:Hm;
     [|discriminate]); intros H; exists merged; auto.
Qed.

Lemma validate_ok (c cfg : Config) :
  config.validate cronParse ParseDuration c = OK cfg ->
  cfg = c
  /\ URL (Coolify c) <> "" /\ Token (Coolify c) <> ""
  /\ ParseDuration (Cooldown (Defaults c)) = None
  /\ (if semver.nonEmpty (Schedule (Defaults c))
      then cronParse (Schedule (Defaults c)) = None
      else ParseDuration (Interval (Defaults c)) = None).
Proof.
  unfold config.validate.
  destruct (config.isEmpty (URL (Coolify c))) eqn:Hu; [discriminate|].
  destruct (config.isEmpty (Token (Coolify c))) eqn:Ht; [discriminate|].
  apply isEmpty_false in Hu, Ht.
  destruct (semver.nonEmpty (Schedule (Defaults c))).
  - destruct (cronParse (Schedule (Defaults c))) eqn:Hs; [discriminate|].
    destruct (ParseDuration (Cooldown (Defaults c))) eqn:Hc; [discriminate|].
    intros H; inversion H; subst; repeat split; auto.
  - destruct (ParseDuration (Interval (Defaults c))) eqn:Hs; [discriminate|].
    destruct (ParseDuration (Cooldown (Defaults c))) eqn:Hc; [discriminate|].
    intros H; inversion H; subst; repeat split; auto.
Qed.

Lemma orElse_firstNonEmpty (a b : string) :
  config.orElse a b = firstNonEmpty [a; b].
Proof. unfold config.orElse. cbn. destruct a, b; reflexivity. Qed.

Lemma default_firstNonEmpty (a b d : string) :
  (if config.isEmpty (config.orElse a b) then d else config.orElse a b)
  = firstNonEmpty [a; b; d].
Proof. unfold config.orElse. cbn. destruct a, b, d; reflexivity. Qed.

(** Property X19.  What a loaded configuration guarantees.  When [Load]
    succeeds, the URL and the token are not empty; the default policy, the
    interval and the cooldown are not empty and the exclusion list has at
    least one pattern; the cooldown is a duration; the schedule, when one
    is set, is a cron expression, and otherwise the interval is a duration
    (with a schedule set the interval is not looked at); and the effective
    policy of every application is not empty. *)
Theorem Load_ok_valid (decoded : option (result Config)) (cfg : Config) :
  config.Load TrimSpace cronParse ParseDuration Getenv decoded = OK cfg ->
  URL (Coolify cfg) <> "" /\ Token (Coolify cfg) <> ""
  /\ DefPolicy (Defaults cfg) <> "" /\ Interval (Defaults cfg) <> ""
  /\ Cooldown (Defaults cfg) <> "" /\ ExcludePatterns (Defaults cfg) <> []
  /\ ParseDuration (Cooldown (Defaults cfg)) = None
  /\ (Schedule (Defaults cfg) <> "" -> cronParse (Schedule (Defaults cfg)) = None)
  /\ (Schedule (Defaults cfg) = "" -> ParseDuration (Interval (Defaults cfg)) = None)
  /\ forall app, config.GetUpdatePolicy app (Defaults cfg) <> "".
Proof.
  intros H. destruct (Load_steps _ _ H) as (merged & _ & Hv).
  destruct (validate_ok _ _ Hv) as (-> & Hu & Ht & Hc & Hs).
  assert (Hp : DefPolicy (Defaults (config.setDefaults merged)) <> "").
  { cbn. destruct (config.isEmpty (DefPolicy (Defaults merged))) eqn:E;
      [discriminate | apply isEmpty_false; exact E]. }
  repeat split; auto.
  - cbn. destruct (config.isEmpty (Interval (Defaults merged))) eqn:E;
      [discriminate | apply isEmpty_false; exact E].
  - cbn. destruct (config.isEmpty (Cooldown (Defaults merged))) eqn:E;
      [discriminate | apply isEmpty_false; exact E].
  - cbn. destruct (ExcludePatterns (Defaults merged)); discriminate.
  - intros Hne. destruct (Schedule (Defaults (config.setDefaults merged)));
      [contradiction Hne; reflexivity | exact Hs].
  - intros He. rewrite He in Hs. exact Hs.
  - intros app. unfold config.GetUpdatePolicy.
    destruct (semver.nonEmpty (Policy app)) eqn:E; [|exact Hp].
    apply nonEmpty_true. exact E.
Qed.

(** Property X20.  The layers of a setting.  When [Load] succeeds, each
    scalar setting is the first non-empty text among the environment
    variable, the value of the decoded file and the built-in default (the
    URL, the token and the schedule have no default); and the applications
    are those of PATROL_APPS when it is set, none when it is not set and
    PATROL_AUTO_DISCOVER is [true], and those of the file otherwise. *)
Theorem Load_layers (decoded : option (result Config)) (cfg : Config) :
  config.Load TrimSpace cronParse ParseDuration Getenv decoded = OK cfg ->
  let file := fromFile decoded in
  URL (Coolify cfg) = firstNonEmpty [Getenv "COOLIFY_URL"; URL (Coolify file)]
  /\ Token (Coolify cfg) = firstNonEmpty [Getenv "COOLIFY_TOKEN"; Token (Coolify file)]
  /\ DefPolicy (Defaults cfg)
     = firstNonEmpty [Getenv "PATROL_POLICY"; DefPolicy (Defaults file); AutoPatch]
  /\ Interval (Defaults cfg)
     = firstNonEmpty [Getenv "PATROL_INTERVAL"; Interval (Defaults file); "15m"]
  /\ Schedule (Defaults cfg)
     = firstNonEmpty [Getenv "PATROL_SCHEDULE"; Schedule (Defaults file)]
  /\ Cooldown (Defaults cfg)
     = firstNonEmpty [Getenv "PATROL_COOLDOWN"; Cooldown (Defaults file); "1h"]
  /\ (if semver.nonEmpty (Getenv "PATROL_APPS")
      then config.parseCompactApps TrimSpace (Getenv "PATROL_APPS") = OK (Apps cfg)
      else if String.eqb (Getenv "PATROL_AUTO_DISCOVER") "true"
           then Apps cfg = []
           else Apps cfg = Apps file).
Proof.
  intros H file. destruct (Load_steps _ _ H) as (merged & Hm & Hv).
  destruct (validate_ok _ _ Hv) as (-> & _). fold file in Hm.
  unfold config.loadFromEnv in Hm.
  destruct (semver.nonEmpty (Getenv "PATROL_APPS")).
  - destruct (config.parseCompactApps TrimSpace (Getenv "PATROL_APPS")) as [apps|e];
      [|discriminate].
    inversion Hm; subst merged; clear Hm. cbn.
    rewrite !default_firstNonEmpty, !orElse_firstNonEmpty. repeat split; reflexivity.
  - destruct (String.eqb (Getenv "PATROL_AUTO_DISCOVER") "true");
      inversion Hm; subst merged; clear Hm; cbn;
      rewrite !default_firstNonEmpty, !orElse_firstNonEmpty; repeat split; reflexivity.
Qed.

End Loaded.

Section Startup.
Variable TrimSpace : string -> string.
Variable cronParse : string -> option string.
Variable ParseDuration : string -> result Z.
Variable Getenv : string -> string.

(** Property X21.  How a started watcher schedules.  Take a configuration
    that [Load] accepted and to which [main] applied the flags
    [--schedule] and [--interval] without exiting.  Then the set-up of the
    scheduler in [Watcher.Start] returns no error.  With a schedule in
    force (the flag's, else the configured one when the interval flag is
    not given) the cron scheduler runs on it.  Otherwise the interval in
    force (the flag's, else the configured one) parses as a duration, and
    [time.NewTicker] is called on it: the ticker runs when the duration is
    positive, and the process panics when it is not, as for [0] or [-5m],
    which [Load] and [main] let through. *)
Theorem startScheduler_after_startup (decoded : option (result Config))
    (cfg started : Config) (schedule interval : string) :
  config.Load TrimSpace cronParse (durationError ParseDuration) Getenv decoded = OK cfg ->
  overrideSchedule cronParse ParseDuration cfg schedule interval = OK started ->
  (forall err, startScheduler cronParse ParseDuration started <> Failed err)
  /\ match effectiveSchedule cfg schedule interval with
     | inl text => startScheduler cronParse ParseDuration started = Running (Cron text)
     | inr text =>
         exists d, ParseDuration text = OK d
                   /\ startScheduler cronParse ParseDuration started
                      = if d <=? 0 then Panicked "non-positive interval for NewTicker"
                        else Running (Ticker d)
     end.
Proof.
  intros H Hflags. destruct (Load_steps _ _ _ _ _ _ H) as (merged & _ & Hv).
  destruct (validate_ok _ _ _ _ Hv) as (Hcfg & _ & _ & _ & Hs). rewrite <- Hcfg in Hs.
  assert (Hgoal : match effectiveSchedule cfg schedule interval with
                  | inl text =>
                      startScheduler cronParse ParseDuration started = Running (Cron text)
                  | inr text =>
                      exists d, ParseDuration text = OK d
                                /\ startScheduler cronParse ParseDuration started
                                   = NewTicker d
                  end).
  { revert Hflags.
    unfold overrideSchedule, effectiveSchedule, startScheduler, startWithCron,
      startWithInterval, durationError in *.
    destruct (semver.nonEmpty schedule) eqn:Hsch.
    - destruct (cronParse schedule) eqn:Hparse; [discriminate|].
      intros E; inversion E; subst; clear E. cbn. rewrite Hsch, Hparse. reflexivity.
    - destruct (semver.nonEmpty interval) eqn:Hint.
      + destruct (ParseDuration interval) as [d|e] eqn:Hparse; [|discriminate].
        intros E; inversion E; subst; clear E. cbn. rewrite Hparse. eauto.
      + intros E. injection E as <-.
        destruct (semver.nonEmpty (Schedule (Defaults cfg))).
        * rewrite Hs. reflexivity.
        * destruct (ParseDuration (Interval (Defaults cfg))) as [d|e];
            [eauto | discriminate]. }
  split; [|exact Hgoal].
  intros err Herr. destruct (effectiveSchedule cfg schedule interval).
  - rewrite Hgoal in Herr. discriminate.
  - destruct Hgoal as (d & _ & Hd). rewrite Hd in Herr. unfold NewTicker in Herr.
    destruct (d <=? 0); discriminate.
Qed.

End Startup.

(** Property X18 at the example of the source's comment. *)
Lemma parseCompactApps_fields_witness :
  "postgres" <> "" /\ "def-456" <> "" /\ "postgres" <> ""
  /\ ("auto-patch" = "" \/ knownPolicy "auto-patch")
  /\ ("17" = "" \/ snd (Atoi "17") = true).
Proof.
  apply (parseCompactApps_fields (fun s => s)
           "n8n:abc-123:n8nio/n8n;postgres:def-456:postgres:auto-patch:17"
           [ {| Name := "n8n"; UUID := "abc-123"; Image := "n8nio/n8n";
                Policy := ""; Pin := "" |};
             {| Name := "postgres"; UUID := "def-456"; Image := "postgres";
                Policy := "auto-patch"; Pin := "17" |} ]
           {| Name := "postgres"; UUID := "def-456"; Image := "postgres";
              Policy := "auto-patch"; Pin := "17" |}).
  - vm_compute. reflexivity.
  - right. left. reflexivity.
Defined.

(** Property X19 at a process configured by URL and token alone. *)
Lemma Load_ok_valid_witness :
  URL (Coolify loadedPlain) <> "" /\ Token (Coolify loadedPlain) <> ""
  /\ DefPolicy (Defaults loadedPlain) <> "" /\ Interval (Defaults loadedPlain) <> ""
  /\ Cooldown (Defaults loadedPlain) <> "" /\ ExcludePatterns (Defaults loadedPlain) <> []
  /\ parseDefaults (Cooldown (Defaults loadedPlain)) = None
  /\ (Schedule (Defaults loadedPlain) <> "" ->
      (fun _ : string => @None string) (Schedule (Defaults loadedPlain)) = None)
  /\ (Schedule (Defaults loadedPlain) = "" ->
      parseDefaults (Interval (Defaults loadedPlain)) = None)
  /\ forall app, config.GetUpdatePolicy app (Defaults loadedPlain) <> "".
Proof.
  apply (Load_ok_valid (fun s => s) (fun _ => None) parseDefaults envPlain None).
  vm_compute. reflexivity.
Defined.

(** Property X20 at a process that overrides the policy of its file. *)
Lemma Load_layers_witness :
  DefPolicy (Defaults loadedYolo)
  = firstNonEmpty [envUnknownPolicy "PATROL_POLICY"; DefPolicy (Defaults (cfg []));
                   AutoPatch].
Proof.
  refine (proj1 (proj2 (proj2
           (Load_layers (fun s => s) (fun _ => None) parseDefaults envUnknownPolicy
              (Some (OK (cfg []))) loadedYolo _)))).
  vm_compute. reflexivity.
Defined.

(** Property X21 at a process started with [--interval 1h]. *)
Lemma startScheduler_after_startup_witness :
  (forall err, startScheduler (fun _ => None) parseDurations
                 (setSchedule "" "1h" (cfg [])) <> Failed err)
  /\ exists d, parseDurations "1h" = OK d
               /\ startScheduler (fun _ => None) parseDurations
                    (setSchedule "" "1h" (cfg []))
                  = if d <=? 0 then Panicked "non-positive interval for NewTicker"
                    else Running (Ticker d).
Proof.
  apply (startScheduler_after_startup (fun s => s) (fun _ => None) parseDurations
           envPlain (Some (OK (cfg []))) (cfg []) (setSchedule "" "1h" (cfg []))
           "" "1h").
  - vm_compute. reflexivity.
  - vm_compute. reflexivity.
Defined.

(** The same process started with [--interval 0]: the configuration is
    loaded, the flag is accepted, and the ticker panics. *)
Lemma startScheduler_zero_interval_panics :
  config.Load (fun s => s) (fun _ => None) (durationError parseDurations) envPlain
              (Some (OK (cfg []))) = OK (cfg [])
  /\ overrideSchedule (fun _ => None) parseDurations (cfg []) "" "0"
     = OK (setSchedule "" "0" (cfg []))
  /\ startScheduler (fun _ => None) parseDurations (setSchedule "" "0" (cfg []))
     = Panicked "non-positive interval for NewTicker".
Proof. repeat split; vm_compute; reflexivity. Qed.

End LoadFacts.

(** ** The selection of the registry client *)

Module RegistryFacts.
Import Go types semver registry spec sorting CompareFacts ParseFacts.

(** *** The insertion sort of [sort.Slice] *)

Section Sorting.
Context {A : Type}.
Variable less : A -> A -> bool.

Lemma sink_In (x y : A) (before : list A) :
  In y (sink less x before) <-> y = x \/ In y before.
Proof.
  induction before as [|z r IH]; cbn.
  - intuition auto.
  - destruct (less x z); cbn; rewrite ?IH; intuition auto.
Qed.

Lemma fold_sink_In (l before : list A) (y : A) :
  In y (fold_left (fun before x => sink less x before) l before)
  <-> In y l \/ In y before.
Proof.
  revert before. induction l as [|x l IH]; intros before; cbn.
  - intuition auto.
  - rewrite IH, sink_In. intuition auto.
Qed.

Lemma insertionSort_In (l : list A) (y : A) :
  In y (insertionSort less l) <-> In y l.
Proof.
  unfold insertionSort. rewrite <- in_rev, fold_sink_In. cbn. intuition auto.
Qed.

Variable dom : A -> Prop.
Hypothesis asym : forall x y, dom x -> dom y -> less x y = true -> less y x = false.
Hypothesis negtrans : forall x y z, dom x -> dom y -> dom z ->
  less x y = false -> less y z = false -> less x z = false.

Lemma sink_settled (x : A) (before : list A) :
  dom x -> (forall y, In y before -> dom y) ->
  settled less before -> settled less (sink less x before).
Proof.
  intros Hx. induction before as [|y r IH]; intros Hdom Hs.
  - cbn. auto.
  - cbn [sink]. destruct Hs as [Hy Hr].
    assert (Hdy : dom y) by (apply Hdom; left; reflexivity).
    assert (Hdr : forall z, In z r -> dom z) by (intros z Hz; apply Hdom; right; exact Hz).
    destruct (less x y) eqn:Hxy.
    + cbn [settled]. split; [|apply IH; auto].
      intros z Hz. apply sink_In in Hz as [-> | Hz]; [apply asym; auto | auto].
    + cbn [settled]. split; [|split; auto].
      intros z [<- | Hz]; [exact Hxy|].
      apply (negtrans x y z); auto.
Qed.

Lemma fold_sink_settled (l before : list A) :
  (forall y, In y l -> dom y) -> (forall y, In y before -> dom y) ->
  settled less before ->
  settled less (fold_left (fun before x => sink less x before) l before).
Proof.
  revert before. induction l as [|x l IH]; intros before Hl Hb Hs; [exact Hs|].
  cbn [fold_left]. apply IH.
  - intros y Hy. apply Hl. right. exact Hy.
  - intros y Hy. apply sink_In in Hy as [-> | Hy]; [apply Hl; left; reflexivity | auto].
  - apply sink_settled; auto. apply Hl. left. reflexivity.
Qed.

Lemma settled_last (before : list A) (m : A) (rest : list A) :
  (forall y, In y before -> dom y) ->
  settled less before -> List.rev before = m :: rest ->
  forall y, In y before -> less y m = false.
Proof.
  induction before as [|z r IH] in rest |- *; intros Hdom Hs Hrev y Hy; [destruct Hy|].
  destruct Hs as [Hz Hr]. cbn [List.rev] in Hrev.
  assert (Hdz : dom z) by (apply Hdom; left; reflexivity).
  destruct (List.rev r) as [|m' rest'] eqn:Hr'.
  - cbn in Hrev. inversion Hrev; subst m rest.
    assert (r = []) as -> by (apply (f_equal (@List.rev A)) in Hr';
                              rewrite rev_involutive in Hr'; exact Hr').
    destruct Hy as [<- | []].
    destruct (less z z) eqn:E; [|reflexivity].
    rewrite (asym z z Hdz Hdz E) in E. discriminate.
  - cbn in Hrev. inversion Hrev; subst m'.
    assert (Hm : In m r).
    { apply in_rev. rewrite Hr'. left. reflexivity. }
    destruct Hy as [<- | Hy]; [apply Hz; exact Hm|].
    eapply IH; eauto. intros w Hw. apply Hdom. right. exact Hw.
Qed.

(** The first element of the sorted slice: nothing should come before
    it. *)
Lemma insertionSort_first (l : list A) (m : A) (rest : list A) :
  (forall y, In y l -> dom y) ->
  insertionSort less l = m :: rest ->
  forall y, In y l -> less y m = false.
Proof.
  unfold insertionSort. intros Hdom Hsort y Hy.
  eapply settled_last; [| |exact Hsort|].
  - intros w Hw. apply fold_sink_In in Hw as [Hw | []]. auto.
  - apply fold_sink_settled; [exact Hdom | intros ? [] | exact I].
  - apply fold_sink_In. left. exact Hy.
Qed.

End Sorting.

(** *** Which tags survive *)

Lemma filterTags_In (tags excludePatterns : list string) (t : string) :
  In t (filterTags tags excludePatterns) <-> survives tags excludePatterns t.
Proof.
  unfold filterTags, survives. rewrite filter_In, negb_true_iff.
  assert (H : List.existsb (fun pattern => Contains t pattern) excludePatterns = false
              <-> forall pattern, In pattern excludePatterns -> Contains t pattern = false).
  { induction excludePatterns as [|p ps IH]; cbn.
    - intuition auto.
    - rewrite orb_false_iff, IH. intuition (subst; auto). }
  rewrite H. reflexivity.
Qed.

Lemma Contains_empty (s : string) : Contains s "" = true.
Proof. destruct s; reflexivity. Qed.

(** *** The order of [compareVersions] *)

Lemma wrapInt_small (z : Z) : minInt <= z <= maxInt -> wrapInt z = z.
Proof.
  unfold wrapInt, minInt, maxInt. intros H.
  change (2 ^ (intSize - 1)) with 9223372036854775808 in *.
  change (2 ^ intSize) with 18446744073709551616.
  rewrite Z.mod_small; lia.
Qed.

Lemma firstDigitField_digits (part d : string) :
  firstDigitField part = Some d -> isDigits d = true.
Proof.
  unfold firstDigitField.
  destruct (span isDigit (dropWhile (fun c => negb (isDigit c)) part)) as [a b] eqn:Hs.
  apply span_sound in Hs as (_ & Ha & _). cbn [fst].
  destruct a as [|c r]; [discriminate|].
  intros H; inversion H; subst. unfold isDigits. rewrite Ha. reflexivity.
Qed.

Lemma simpleComponent_range (part : string) (n : Z) :
  simpleComponent part = Some n -> 0 <= n <= maxInt.
Proof.
  unfold simpleComponent.
  destruct (firstDigitField part) as [d|] eqn:Hd; [|discriminate].
  apply firstDigitField_digits in Hd. rewrite (Atoi_digits d Hd).
  destruct (Z.leb_spec (written d) maxInt) as [Hle|Hgt]; [|discriminate].
  intros E; inversion E; subst.
  unfold isDigits in Hd. apply andb_true_iff in Hd as [_ Hd].
  pose proof (written_nonneg d Hd). lia.
Qed.

Lemma parseSimpleVersion_range (v : string) (n0 n1 n2 : Z) :
  parseSimpleVersion v = Some (n0, n1, n2) ->
  0 <= n0 <= maxInt /\ 0 <= n1 <= maxInt /\ 0 <= n2 <= maxInt.
Proof.
  unfold parseSimpleVersion.
  destruct (Split (TrimPrefix_v v) ".") as [|p0 [|p1 [|p2 more]]]; try discriminate.
  destruct (simpleComponent p0) as [m0|] eqn:H0; [|discriminate].
  destruct (simpleComponent p1) as [m1|] eqn:H1; [|discriminate].
  destruct (simpleComponent p2) as [m2|] eqn:H2; [|discriminate].
  intros H; inversion H; subst.
  pose proof (simpleComponent_range _ _ H0).
  pose proof (simpleComponent_range _ _ H1).
  pose proof (simpleComponent_range _ _ H2). auto.
Qed.

(** On two tags that parse, [compareVersions] is the order of the triples:
    the components are non-negative [int]s, so no difference wraps. *)
Lemma compareVersions_parsed (a b : string) (ta tb : Z * Z * Z) :
  parseSimpleVersion a = Some ta -> parseSimpleVersion b = Some tb ->
  compareVersions a b = compareTriples ta tb.
Proof.
  destruct ta as [[a0 a1] a2], tb as [[b0 b1] b2]. intros Ha Hb.
  unfold compareVersions, compareTriples. rewrite Ha, Hb.
  apply parseSimpleVersion_range in Ha, Hb.
  assert (Hmin : minInt = - maxInt - 1) by reflexivity.
  rewrite !wrapInt_small by lia. reflexivity.
Qed.

(** On two tags that do not parse, it is the order of the texts. *)
Lemma compareVersions_unparsed (a b : string) :
  parseSimpleVersion a = None -> compareVersions a b = Go.Compare a b.
Proof.
  intros Ha. unfold compareVersions, Go.Compare, string_gt, string_lt. rewrite Ha.
  destruct (String.compare a b); reflexivity.
Qed.

Lemma compareTriples_asym (ta tb : Z * Z * Z) :
  0 < compareTriples ta tb -> compareTriples tb ta <= 0.
Proof.
  destruct ta as [[a0 a1] a2], tb as [[b0 b1] b2]. unfold compareTriples.
  destruct (Z.eqb_spec a0 b0), (Z.eqb_spec b0 a0),
           (Z.eqb_spec a1 b1), (Z.eqb_spec b1 a1),
           (Z.eqb_spec a2 b2), (Z.eqb_spec b2 a2); cbn; lia.
Qed.

Lemma compareTriples_trans (ta tb tc : Z * Z * Z) :
  compareTriples ta tb <= 0 -> compareTriples tb tc <= 0 -> compareTriples ta tc <= 0.
Proof.
  destruct ta as [[a0 a1] a2], tb as [[b0 b1] b2], tc as [[c0 c1] c2].
  unfold compareTriples.
  destruct (Z.eqb_spec a0 b0), (Z.eqb_spec b0 c0), (Z.eqb_spec a0 c0),
           (Z.eqb_spec a1 b1), (Z.eqb_spec b1 c1), (Z.eqb_spec a1 c1),
           (Z.eqb_spec a2 b2), (Z.eqb_spec b2 c2), (Z.eqb_spec a2 c2); cbn; lia.
Qed.

Lemma newerFirst_false (x y : string) :
  newerFirst x y = false <-> compareVersions x y <= 0.
Proof. unfold newerFirst. rewrite Z.ltb_ge. reflexivity. Qed.

Lemma newerFirst_true (x y : string) :
  newerFirst x y = true <-> 0 < compareVersions x y.
Proof. unfold newerFirst. rewrite Z.ltb_lt. reflexivity. Qed.

Section Selection.
Variable pdqsort : list string -> list string.

Lemma sortSlice_In_short (l : list string) (y : string) :
  (Z.of_nat (List.length l) <= 12) ->
  In y (sortSlice newerFirst pdqsort l) <-> In y l.
Proof.
  intros Hlen. unfold sortSlice.
  destruct (Z.leb_spec (Z.of_nat (List.length l)) 12); [|lia].
  apply insertionSort_In.
Qed.

(** Property X22.  What the registry's selection returns.  Let the sort
    of the standard library keep the elements of the slice.  Then
    [GetLatestTag] returns one of the tags of the registry that contains no
    exclusion pattern; it fails with [no tags found] exactly when the
    registry listed no tag, and with [no stable tags found after filtering]
    exactly when it listed some and every one contains a pattern. *)
Theorem GetLatestTag_outcome (image : string) (tagNames excludePatterns : list string) :
  (forall l x, In x (pdqsort l) <-> In x l) ->
  match GetLatestTag pdqsort image tagNames excludePatterns with
  | OK tag => survives tagNames excludePatterns tag
  | Err msg =>
      (tagNames = [] /\ msg = "no tags found for image " ++ image)
      \/ (tagNames <> []
          /\ (forall tag, ~ survives tagNames excludePatterns tag)
          /\ msg = "no stable tags found after filtering")
  end.
Proof.
  intros Hsort. unfold GetLatestTag.
  destruct tagNames as [|t0 ts]; [left; auto|].
  set (tags := t0 :: ts).
  destruct (filterTags tags excludePatterns) as [|f fs] eqn:Hf.
  { right. repeat split; [discriminate|].
    intros tag Htag. apply filterTags_In in Htag. rewrite Hf in Htag. destruct Htag. }
  assert (Hin : forall y, In y (sortSlice newerFirst pdqsort (f :: fs)) <-> In y (f :: fs)).
  { intros y. unfold sortSlice.
    destruct (Z.of_nat (List.length (f :: fs)) <=? 12);
      [apply insertionSort_In | apply Hsort]. }
  change (fun x y : string => 0 <? compareVersions x y) with newerFirst.
  destruct (sortSlice newerFirst pdqsort (f :: fs)) as [|first rest] eqn:Hs.
  - exfalso. apply (Hin f). left. reflexivity.
  - apply filterTags_In. rewrite Hf. apply Hin. left. reflexivity.
Qed.

(** Property X25.  The empty pattern.  Every tag contains the empty text,
    so an exclusion list that holds an empty pattern (a trailing comma in
    PATROL_EXCLUDE_PATTERNS gives one) excludes every tag: whenever the
    registry lists tags, [GetLatestTag] fails with [no stable tags found
    after filtering]. *)
Theorem GetLatestTag_empty_pattern (image : string)
    (tagNames excludePatterns : list string) :
  In "" excludePatterns -> tagNames <> [] ->
  GetLatestTag pdqsort image tagNames excludePatterns
  = Err "no stable tags found after filtering".
Proof.
  intros Hin Hne. unfold GetLatestTag.
  destruct tagNames as [|t0 ts]; [contradiction Hne; reflexivity|].
  destruct (filterTags (t0 :: ts) excludePatterns) as [|f fs] eqn:Hf; [reflexivity|].
  assert (Hs : survives (t0 :: ts) excludePatterns f).
  { apply filterTags_In. rewrite Hf. left. reflexivity. }
  destruct Hs as [_ Hs]. specialize (Hs "" Hin). rewrite Contains_empty in Hs.
  discriminate.
Qed.

(** Property X23.  The greatest of a uniform list.  Let at most twelve
    tags survive the exclusion list, and let them be of one kind: all of
    them parse as simple versions, or none does.  Then no surviving tag
    compares greater than the tag [GetLatestTag] returns: it has the
    greatest (major, minor, patch) in the first case, and it is the
    greatest text in the second. *)
Theorem GetLatestTag_greatest (image : string) (tagNames excludePatterns : list string)
    (latest : string) :
  Z.of_nat (List.length (filterTags tagNames excludePatterns)) <= 12 ->
  (forall tag, survives tagNames excludePatterns tag -> parseSimpleVersion tag <> None)
  \/ (forall tag, survives tagNames excludePatterns tag -> parseSimpleVersion tag = None) ->
  GetLatestTag pdqsort image tagNames excludePatterns = OK latest ->
  forall tag, survives tagNames excludePatterns tag ->
    compareVersions tag latest <= 0
    /\ match parseSimpleVersion tag, parseSimpleVersion latest with
       | Some t, Some l => compareTriples t l <= 0
       | None, None => Go.Compare tag latest <= 0
       | _, _ => False
       end.
Proof.
  intros Hlen Hkind. unfold GetLatestTag.
  destruct tagNames as [|t0 ts]; [discriminate|].
  set (tags := t0 :: ts) in *.
  destruct (filterTags tags excludePatterns) as [|f fs] eqn:Hf; [discriminate|].
  change (fun x y : string => 0 <? compareVersions x y) with newerFirst.
  unfold sortSlice.
  destruct (Z.leb_spec (Z.of_nat (List.length (f :: fs))) 12) as [_|Hgt]; [|lia].
  destruct (insertionSort newerFirst (f :: fs)) as [|first rest] eqn:Hs; [discriminate|].
  intros H; inversion H; subst first; clear H.
  intros tag Htag. apply filterTags_In in Htag. rewrite Hf in Htag.
  assert (Hlatest : In latest (f :: fs)).
  { apply (insertionSort_In newerFirst). rewrite Hs. left. reflexivity. }
  assert (Hsurv : forall y, In y (f :: fs) -> survives tags excludePatterns y).
  { intros y Hy. apply filterTags_In. rewrite Hf. exact Hy. }
  destruct Hkind as [Hall | Hnone].
  - assert (Hle : newerFirst tag latest = false).
    { apply (insertionSort_first newerFirst (fun y => parseSimpleVersion y <> None))
        with (l := f :: fs) (rest := rest); auto.
      - intros x y Hx Hy.
        destruct (parseSimpleVersion x) as [tx|] eqn:Ex; [|contradiction].
        destruct (parseSimpleVersion y) as [ty|] eqn:Ey; [|contradiction].
        rewrite newerFirst_true, newerFirst_false,
          (compareVersions_parsed x y tx ty), (compareVersions_parsed y x ty tx); auto.
        apply compareTriples_asym.
      - intros x y z Hx Hy Hz.
        destruct (parseSimpleVersion x) as [tx|] eqn:Ex; [|contradiction].
        destruct (parseSimpleVersion y) as [ty|] eqn:Ey; [|contradiction].
        destruct (parseSimpleVersion z) as [tz|] eqn:Ez; [|contradiction].
        rewrite !newerFirst_false,
          (compareVersions_parsed x y tx ty), (compareVersions_parsed y z ty tz),
          (compareVersions_parsed x z tx tz); auto.
        apply compareTriples_trans. }
    apply newerFirst_false in Hle. split; [exact Hle|].
    pose proof (Hall tag (Hsurv tag Htag)) as Ht.
    pose proof (Hall latest (Hsurv latest Hlatest)) as Hl.
    destruct (parseSimpleVersion tag) as [tt|] eqn:Et; [|contradiction].
    destruct (parseSimpleVersion latest) as [tl|] eqn:El; [|contradiction].
    rewrite (compareVersions_parsed tag latest tt tl) in Hle; auto.
  - assert (Hle : newerFirst tag latest = false).
    { apply (insertionSort_first newerFirst (fun y => parseSimpleVersion y = None))
        with (l := f :: fs) (rest := rest); auto.
      - intros x y Hx Hy.
        rewrite newerFirst_true, newerFirst_false,
          (compareVersions_unparsed x y Hx), (compareVersions_unparsed y x Hy),
          (GoCompare_antisym y x). lia.
      - intros x y z Hx Hy Hz.
        rewrite !newerFirst_false,
          (compareVersions_unparsed x y Hx), (compareVersions_unparsed y z Hy),
          (compareVersions_unparsed x z Hx).
        apply GoCompare_trans. }
    apply newerFirst_false in Hle. split; [exact Hle|].
    pose proof (Hnone tag (Hsurv tag Htag)) as Ht.
    pose proof (Hnone latest (Hsurv latest Hlatest)) as Hl.
    rewrite Ht, Hl. rewrite (compareVersions_unparsed tag latest Ht) in Hle. exact Hle.
Qed.

End Selection.

(** *** The two parsers of versions *)

Lemma Split_nonempty (s : string) (sep : ascii) : Split s sep <> [].
Proof.
  induction s as [|c r IH]; cbn; [discriminate|].
  destruct (Ascii.eqb c sep); [discriminate|].
  destruct (Split r sep); [contradiction IH; reflexivity | discriminate].
Qed.

Lemma Split_head_app (a b : string) (sep : ascii) :
  all_chars (fun c => negb (Ascii.eqb c sep)) a = true ->
  exists f fs, Split b sep = f :: fs /\ Split (a ++ b) sep = (a ++ f) :: fs.
Proof.
  intros Ha. induction a as [|c r IH].
  - destruct (Split b sep) as [|f fs] eqn:Hb; [destruct (Split_nonempty _ _ Hb)|].
    exists f, fs. split; [reflexivity | exact Hb].
  - cbn [all_chars] in Ha. apply andb_true_iff in Ha as [Hc Hr].
    destruct (IH Hr) as (f & fs & Hb & Hab). exists f, fs. split; [exact Hb|].
    change (String c r ++ b) with (String c (r ++ b)). cbn [Split].
    apply negb_true_iff in Hc. rewrite Hc, Hab. reflexivity.
Qed.

Lemma Split_field (a b : string) (sep : ascii) :
  all_chars (fun c => negb (Ascii.eqb c sep)) a = true ->
  Split (a ++ String sep b) sep = a :: Split b sep.
Proof.
  intros Ha. destruct (Split_head_app a (String sep b) sep Ha) as (f & fs & Hb & ->).
  cbn [Split] in Hb. rewrite Ascii.eqb_refl in Hb. inversion Hb; subst.
  f_equal. induction a as [|c r IH]; [reflexivity|].
  cbn [all_chars] in Ha. apply andb_true_iff in Ha as [_ Hr].
  change (String c r ++ "") with (String c (r ++ "")). rewrite (IH Hr). reflexivity.
Qed.

Lemma Split_head_stops (b : string) (f : string) (fs : list string) :
  stops isDigit b -> Split b "." = f :: fs -> stops isDigit f.
Proof.
  destruct b as [|c r]; cbn [Split].
  - intros _ H; inversion H; exact I.
  - intros Hc. destruct (Ascii.eqb c "."); [intros H; inversion H; exact I|].
    destruct (Split r "."); intros H; inversion H; exact Hc.
Qed.

Lemma digits_no_dot (d : string) :
  all_chars isDigit d = true ->
  all_chars (fun c => negb (Ascii.eqb c ".")) d = true.
Proof.
  induction d as [|c r IH]; [reflexivity|]. cbn [all_chars].
  intros [Hc Hr]%andb_true_iff. rewrite (IH Hr), andb_true_r.
  destruct (Ascii.eqb_spec c "."); [subst; discriminate Hc | reflexivity].
Qed.

Lemma simpleComponent_digits (d f : string) :
  isDigits d = true -> stops isDigit f ->
  simpleComponent (d ++ f)
  = if written d <=? maxInt then Some (written d) else None.
Proof.
  intros Hd Hf. unfold simpleComponent, firstDigitField.
  destruct (isDigits_head d Hd) as (c & r & -> & Hc).
  change (String c r ++ f) with (String c (r ++ f)). cbn [dropWhile].
  rewrite Hc. cbn [negb].
  change (String c (r ++ f)) with (String c r ++ f).
  pose proof Hd as Hall. unfold isDigits in Hall.
  apply andb_true_iff in Hall as [_ Hall].
  rewrite (span_complete isDigit (String c r) f Hall Hf). cbn [fst].
  rewrite (Atoi_digits (String c r) Hd).
  destruct (written (String c r) <=? maxInt) eqn:E; [|reflexivity].
  apply Z.leb_le in E. rewrite Z.min_l by exact E. reflexivity.
Qed.

(** On a well-formed text the simple parser reads the three numbers
    written, when each fits an [int]. *)
Lemma parseSimpleVersion_render (v : bool) (d1 d2 d3 pre build : string) :
  wellFormed d1 d2 d3 pre build ->
  written d1 <= maxInt -> written d2 <= maxInt -> written d3 <= maxInt ->
  parseSimpleVersion (render v d1 d2 d3 pre build)
  = Some (written d1, written d2, written d3).
Proof.
  intros (H1 & H2 & H3 & _ & _) L1 L2 L3. unfold parseSimpleVersion.
  rewrite render_unfold, (TrimPrefix_v_render v d1 _ H1).
  pose proof H1 as A1. pose proof H2 as A2. pose proof H3 as A3.
  unfold isDigits in A1, A2, A3.
  apply andb_true_iff in A1 as [_ A1]. apply andb_true_iff in A2 as [_ A2].
  apply andb_true_iff in A3 as [_ A3].
  rewrite (Split_field d1 _ "." (digits_no_dot d1 A1)).
  rewrite (Split_field d2 _ "." (digits_no_dot d2 A2)).
  destruct (Split_head_app d3 (optionalPart "-" pre ++ optionalPart "+" build) "."
              (digits_no_dot d3 A3)) as (f & fs & Hf & ->).
  pose proof (Split_head_stops _ f fs (stops_digit_suffix pre build) Hf) as Hstop.
  pose proof (simpleComponent_digits d1 "" H1 I) as Hc1.
  pose proof (simpleComponent_digits d2 "" H2 I) as Hc2.
  assert (E : forall d, d ++ "" = d).
  { induction d as [|c r IH]; [reflexivity|].
    change (String c r ++ "") with (String c (r ++ "")). rewrite IH. reflexivity. }
  rewrite E in Hc1, Hc2. rewrite Hc1, Hc2, (simpleComponent_digits d3 f H3 Hstop).
  apply Z.leb_le in L1, L2, L3. rewrite L1, L2, L3. reflexivity.
Qed.

(** What [ParseVersion] accepts, [parseSimpleVersion] reads alike. *)
Lemma parseSimpleVersion_agrees (tag : string) (ver : Version) :
  ParseVersion tag = Some ver ->
  Major ver < maxInt -> Minor ver < maxInt -> Patch ver < maxInt ->
  parseSimpleVersion tag = Some (Major ver, Minor ver, Patch ver).
Proof.
  unfold ParseVersion.
  destruct (FindStringSubmatch tag) as [[[[[m1 m2] m3] m4] m5]|] eqn:Hm; [|discriminate].
  intros H; inversion H; subst ver; clear H. cbn [Major Minor Patch].
  destruct (FindStringSubmatch_sound _ _ _ _ _ _ Hm) as [Hwf (v & ->)].
  pose proof Hwf as (H1 & H2 & H3 & _).
  rewrite (Atoi_digits m1 H1), (Atoi_digits m2 H2), (Atoi_digits m3 H3). cbn [fst].
  intros L1 L2 L3.
  rewrite !Z.min_l by lia.
  apply parseSimpleVersion_render; auto; lia.
Qed.

(** Property X24.  The two parsers agree on versions.  A tag that
    [semver.ParseVersion] accepts, with each number below the greatest
    [int], is read by the registry's [parseSimpleVersion] as the same
    (major, minor, patch); the prerelease and the build metadata are
    dropped. *)
Theorem parseSimpleVersion_ParseVersion (tag : string) (ver : Version) :
  ParseVersion tag = Some ver ->
  Major ver < maxInt -> Minor ver < maxInt -> Patch ver < maxInt ->
  parseSimpleVersion tag = Some (Major ver, Minor ver, Patch ver).
Proof.
  intros Hver H0 H1 H2. apply parseSimpleVersion_agrees; assumption.
Qed.

(** Property X28.  The two orders agree on releases.  For two tags that
    [semver.ParseVersion] accepts without prerelease, with numbers below the
    greatest [int], the sign of the registry's [compareVersions] is the
    result of the engine's [Compare]: the tag the registry client ranks
    first among such tags is the newest for the engine too. *)
Theorem compareVersions_Compare (a b : string) (va vb : Version) :
  ParseVersion a = Some va -> ParseVersion b = Some vb ->
  belowMaxInt va -> belowMaxInt vb ->
  Prerelease va = "" -> Prerelease vb = "" ->
  Z.sgn (compareVersions a b) = Compare va vb.
Proof.
  intros Ha Hb (A0 & A1 & A2) (B0 & B1 & B2) Pa Pb.
  rewrite (compareVersions_parsed a b _ _
             (parseSimpleVersion_agrees a va Ha A0 A1 A2)
             (parseSimpleVersion_agrees b vb Hb B0 B1 B2)).
  rewrite Compare_unfold, Pa, Pb. unfold compareTriples, comparePrerelease. cbn [nonEmpty negb andb].
  destruct (Z.eqb_spec (Major va) (Major vb)), (Z.ltb_spec (Major va) (Major vb)),
           (Z.ltb_spec (Major vb) (Major va)); cbn [negb]; try lia;
  destruct (Z.eqb_spec (Minor va) (Minor vb)), (Z.ltb_spec (Minor va) (Minor vb)),
           (Z.ltb_spec (Minor vb) (Minor va)); cbn [negb]; try lia;
  destruct (Z.eqb_spec (Patch va) (Patch vb)), (Z.ltb_spec (Patch va) (Patch vb)),
           (Z.ltb_spec (Patch vb) (Patch va)); cbn [negb]; lia.
Qed.

Import example.

(** Property X22 with a sort that leaves long slices alone. *)
Lemma GetLatestTag_outcome_witness :
  survives ["17.1.0"; "17.2.0"; "17.3.0-beta"] ["-beta"] "17.2.0".
Proof.
  exact (GetLatestTag_outcome (fun l => l) "postgres"
           ["17.1.0"; "17.2.0"; "17.3.0-beta"] ["-beta"]
           (fun l x => conj (fun H => H) (fun H => H))).
Defined.

(** Property X23 at three versions, one of them excluded. *)
Lemma GetLatestTag_greatest_witness :
  compareVersions "17.1.0" "17.2.0" <= 0
  /\ match parseSimpleVersion "17.1.0", parseSimpleVersion "17.2.0" with
     | Some t, Some l => compareTriples t l <= 0
     | None, None => Go.Compare "17.1.0" "17.2.0" <= 0
     | _, _ => False
     end.
Proof.
  apply (GetLatestTag_greatest (fun l => l) "postgres"
           ["17.1.0"; "17.2.0"; "17.3.0-beta"] ["-beta"] "17.2.0").
  - vm_compute. discriminate.
  - left. intros tag [Hin _].
    destruct Hin as [<-|[<-|[<-|[]]]]; vm_compute; discriminate.
  - vm_compute. reflexivity.
  - split; [cbn; auto|]. intros pattern [<-|[]]. vm_compute. reflexivity.
Defined.

(** Property X25 at the patterns of [PATROL_EXCLUDE_PATTERNS=-alpha,]. *)
Lemma GetLatestTag_empty_pattern_witness :
  GetLatestTag (fun l => l) "postgres" ["17.1.0"; "17.2.0"] ["-alpha"; ""]
  = Err "no stable tags found after filtering".
Proof.
  apply GetLatestTag_empty_pattern; [right; left; reflexivity | discriminate].
Defined.

(** Property X24 at a tag with a prerelease. *)
Lemma parseSimpleVersion_ParseVersion_witness :
  parseSimpleVersion "v1.2.3-rc.1" = Some (1, 2, 3).
Proof.
  apply (parseSimpleVersion_ParseVersion "v1.2.3-rc.1"
           (mkVersion 1 2 3 "rc.1" "" "v1.2.3-rc.1"));
    vm_compute; reflexivity.
Defined.

(** Property X28 at two releases. *)
Lemma compareVersions_Compare_witness :
  Z.sgn (compareVersions "v1.10.0" "1.9.3")
  = Compare (mkVersion 1 10 0 "" "" "v1.10.0") (mkVersion 1 9 3 "" "" "1.9.3").
Proof.
  apply compareVersions_Compare;
    try reflexivity; repeat split; vm_compute; reflexivity.
Defined.

End RegistryFacts.



(** ** Tags with and without the leading v *)

Module PrefixFacts.
Import Go types semver spec CompareFacts ParseFacts DecideFacts.

Lemma FindStringSubmatch_v (s : string)
    (m : string * string * string * string * string) :
  FindStringSubmatch (String "v" s) = Some m -> FindStringSubmatch s = Some m.
Proof.
  unfold FindStringSubmatch.
  change (match String "v" s with String "v" r => r | _ => String "v" s end) with s.
  destruct (digits1 s) as [[d r]|] eqn:Hd; [|discriminate].
  assert (Hs : match s with String "v" r0 => r0 | _ => s end = s).
  { destruct (digits1_sound _ _ _ Hd) as (Hsplit & Hdig & _).
    destruct (isDigits_head d Hdig) as (c & d' & -> & Hc). subst s.
    change (String c d' ++ r) with (String c (d' ++ r)).
    destruct c as [[] [] [] [] [] [] [] []]; try reflexivity; discriminate Hc. }
  rewrite Hs, Hd. auto.
Qed.

(** Property X26.  The leading v.  A tag that parses with a leading [v]
    parses without it to the same version: the two compare equal and carry
    the same build metadata, only the original text differs.  So the engine
    never takes the one for an update of the other, in either direction,
    under any policy and pin. *)
Theorem ParseVersion_v_prefix (s : string) (ver : Version)
    (policy : UpdatePolicy) (pin : string) :
  ParseVersion (String "v" s) = Some ver ->
  ParseVersion s
  = Some {| Major := Major ver; Minor := Minor ver; Patch := Patch ver;
            Prerelease := Prerelease ver; Build := Build ver; Original := s |}
  /\ fst (IsUpdateAllowed s (String "v" s) policy pin) = false
  /\ fst (IsUpdateAllowed (String "v" s) s policy pin) = false.
Proof.
  intros Hv.
  assert (Hs : ParseVersion s
               = Some {| Major := Major ver; Minor := Minor ver; Patch := Patch ver;
                         Prerelease := Prerelease ver; Build := Build ver;
                         Original := s |}).
  { revert Hv. unfold ParseVersion.
    destruct (FindStringSubmatch (String "v" s)) as [m|] eqn:Hm; [|discriminate].
    rewrite (FindStringSubmatch_v s m Hm).
    destruct m as [[[[m1 m2] m3] m4] m5].
    intros H; inversion H; subst ver; reflexivity. }
  split; [exact Hs|].
  set (bare := {| Major := Major ver; Minor := Minor ver; Patch := Patch ver;
                  Prerelease := Prerelease ver; Build := Build ver;
                  Original := s |}) in *.
  assert (Hkey : sameKey bare ver) by (unfold sameKey; cbn; auto).
  assert (H1 : Compare ver bare = 0).
  { apply Compare_eq. unfold sameKey in *. intuition auto. }
  assert (H2 : Compare bare ver = 0) by (apply Compare_eq; exact Hkey).
  split.
  - rewrite (IsUpdateAllowed_parsed _ _ _ _ policy pin Hs Hv), H1. reflexivity.
  - rewrite (IsUpdateAllowed_parsed _ _ _ _ policy pin Hv Hs), H2. reflexivity.
Qed.

(** Property X26 at a tag with build metadata. *)
Lemma ParseVersion_v_prefix_witness :
  ParseVersion "1.2.3+build.7"
  = Some (mkVersion 1 2 3 "" "build.7" "1.2.3+build.7")
  /\ fst (IsUpdateAllowed "1.2.3+build.7" "v1.2.3+build.7" AutoAll "") = false
  /\ fst (IsUpdateAllowed "v1.2.3+build.7" "1.2.3+build.7" AutoAll "") = false.
Proof.
  apply (ParseVersion_v_prefix "1.2.3+build.7"
           (mkVersion 1 2 3 "" "build.7" "v1.2.3+build.7") AutoAll "").
  vm_compute. reflexivity.
Defined.

End PrefixFacts.

(** ** The endpoints of the registry client *)

Module EndpointFacts.
Import Go endpoints ImageFacts.

Lemma Split_nil_free (s : string) (sep : ascii) : Split s sep <> [].
Proof.
  induction s as [|c r IH]; cbn; [discriminate|].
  destruct (Ascii.eqb c sep); [discriminate|].
  destruct (Split r sep); [contradiction IH; reflexivity | discriminate].
Qed.

(** The fields of a split hold no separator, and joined by the separator
    they give the text back. *)
Lemma Split_fields (s : string) (sep : ascii) :
  Forall (fun f => Contains f (String sep "") = false) (Split s sep)
  /\ String.concat (String sep "") (Split s sep) = s.
Proof.
  induction s as [|c r [IHf IHj]]; cbn [Split].
  - split; [repeat constructor | reflexivity].
  - destruct (Ascii.eqb_spec c sep) as [->|Hne].
    + split; [constructor; [reflexivity | exact IHf]|].
      cbn [String.concat].
      destruct (Split r sep) as [|f fs] eqn:E; [destruct (Split_nil_free _ _ E)|].
      rewrite IHj. reflexivity.
    + destruct (Split r sep) as [|f fs] eqn:E; [destruct (Split_nil_free _ _ E)|].
      pose proof (List.Forall_inv IHf) as Hf.
      pose proof (List.Forall_inv_tail IHf) as Hfs. split.
      * constructor; [|exact Hfs]. rewrite Contains_byte_cons, Hf.
        apply Ascii.eqb_neq in Hne. rewrite Ascii.eqb_sym, Hne. reflexivity.
      * cbn [String.concat] in *. destruct fs; rewrite <- IHj; reflexivity.
Qed.

(** Property X27.  Which images have a registry endpoint.  An image is
    asked at Docker Hub unless its name starts with [ghcr.io/].  Docker Hub
    names have at most one slash: a name without a slash is a repository of
    the namespace [library], a name with one slash is namespace and
    repository, and neither part holds a slash; a name with two slashes or
    more (a registry host, a port, a nested path) is refused with [invalid
    Docker Hub image format].  Before anything is sent [GetTags] returns an
    error in that case and when the request for the URL cannot be created,
    and in no other. *)
Theorem tagsURL_endpoint (NewRequest : string -> option string) (image : string) :
  let endpoint (url : string) : Prop :=
    (HasPrefix image "ghcr.io/" = true /\ url = ghcrURL image)
    \/ (HasPrefix image "ghcr.io/" = false
        /\ exists namespace repo,
             url = dockerHubURL namespace repo
             /\ Contains namespace "/" = false /\ Contains repo "/" = false
             /\ ((namespace = "library" /\ image = repo)
                 \/ image = namespace ++ "/" ++ repo)) in
  match tagsURL NewRequest image with
  | OK url => NewRequest url = None /\ endpoint url
  | Err msg =>
      (HasPrefix image "ghcr.io/" = false
       /\ msg = "invalid Docker Hub image format: " ++ image
       /\ exists a b rest, image = a ++ "/" ++ b ++ "/" ++ rest)
      \/ (exists url e, endpoint url /\ NewRequest url = Some e
                        /\ msg = "creating request: " ++ e)
  end.
Proof.
  intros endpoint.
  assert (Hcreate : forall url, endpoint url ->
            match createRequest NewRequest url with
            | OK url' => NewRequest url' = None /\ endpoint url'
            | Err msg =>
                (HasPrefix image "ghcr.io/" = false
                 /\ msg = "invalid Docker Hub image format: " ++ image
                 /\ exists a b rest, image = a ++ "/" ++ b ++ "/" ++ rest)
                \/ (exists url e, endpoint url /\ NewRequest url = Some e
                                  /\ msg = "creating request: " ++ e)
            end).
  { intros url Hurl. unfold createRequest.
    destruct (NewRequest url) as [e|] eqn:Hreq; [right; eauto | auto]. }
  unfold tagsURL, dockerHubRepository.
  destruct (HasPrefix image "ghcr.io/") eqn:Hg.
  { apply Hcreate. left. auto. }
  destruct (Split_fields image "/") as [Hf Hj].
  destruct (Split image "/") as [|f0 [|f1 [|f2 fs]]] eqn:E.
  - destruct (Split_nil_free _ _ E).
  - apply Hcreate. right. split; [reflexivity|]. exists "library", f0.
    pose proof (List.Forall_inv Hf) as H0. cbn in Hj. repeat split; auto.
  - apply Hcreate. right. split; [reflexivity|]. exists f0, f1.
    pose proof (List.Forall_inv Hf) as H0.
    pose proof (List.Forall_inv (List.Forall_inv_tail Hf)) as H1.
    cbn [String.concat] in Hj. repeat split; auto.
  - left. repeat split; auto.
    exists f0, f1, (String.concat "/" (f2 :: fs)).
    cbn [String.concat] in Hj. rewrite <- Hj. reflexivity.
Qed.

End EndpointFacts.
